(** * ghost.md: the editing-state core

    A shallow embedding of the state-consistency core of the ghost.md
    editor (utils.ts, components/Viewer.tsx, components/Editor.tsx):
    the share codec and the viewer's decode path, the undo/redo history
    with its debounced checkpoints, the draft auto-save, file import,
    the share escalation, the search loop and the scroll
    synchronisation.

    Conventions.
    - A JavaScript string is a [string]; its characters stand for code
      units (the model keeps to code units below 256).
    - A JavaScript array is a [list] whose head is index 0: [push]
      appends at the end, [pop] removes the last element, [shift] the
      first.
    - [string | null] is [option string]; a call that may throw returns
      an [Outcome].
    - Timers run on a virtual clock counted in milliseconds, and a timer
      fires as soon as it is due.
    - A JavaScript number the code divides or multiplies is a binary64
      [float]; a counter or an index is an integer.
    - What the code calls and the repository does not contain is an
      interface: the lz-string package ([LZString]), the pattern matcher
      behind [RegExp] ([Search.Matcher]) and the shortening service
      ([Share.Reply]).  Each interface that carries a contract has a
      reference instance that meets it. *)

From Stdlib Require Import String Ascii List Arith NArith Lia Bool.
Import ListNotations.
Open Scope string_scope.

(** ** JavaScript strings *)

Module JS.

(** Truthiness of a string: every string but the empty one. *)
Definition truthy (s : string) : bool := negb (s =? "").

(** [s.replace(/ /g, "+")], for any pair of characters. *)
Fixpoint replaceAll (from to : ascii) (s : string) : string :=
  match s with
  | EmptyString => EmptyString
  | String c r =>
      String (if Ascii.eqb c from then to else c) (replaceAll from to r)
  end.

(** White space as [String.prototype.trim] sees it, among the code units
    below 256: TAB, LF, VT, FF, CR, SP and NBSP. *)
Definition isWhiteSpace (c : ascii) : bool :=
  let n := nat_of_ascii c in
  ((9 <=? n) && (n <=? 13) || (n =? 32) || (n =? 160))%nat.

Fixpoint trimStart (s : string) : string :=
  match s with
  | EmptyString => EmptyString
  | String c r => if isWhiteSpace c then trimStart r else s
  end.

Fixpoint rev (s : string) : string :=
  match s with
  | EmptyString => EmptyString
  | String c r => rev r ++ String c EmptyString
  end.

Definition trimEnd (s : string) : string := rev (trimStart (rev s)).

Definition trim (s : string) : string := trimEnd (trimStart s).

(** [s.endsWith(suffix)]. *)
Definition endsWith (s suffix : string) : bool :=
  String.prefix (rev suffix) (rev s).

(** Does the character occur in the string? *)
Fixpoint includes (c : ascii) (s : string) : bool :=
  match s with
  | EmptyString => false
  | String d r => Ascii.eqb d c || includes c r
  end.

(** The result of a call that may throw. *)
Inductive Outcome (A : Type) : Type :=
| Returned (a : A)
| Thrown.
Arguments Returned {A} a.
Arguments Thrown {A}.

End JS.
Import JS.

(** ** utils.ts: the compression codec *)

(** The two entry points of the lz-string package the codec calls.  The
    package is an external dependency: the model takes it as an
    interface. *)
Class LZString : Type := {
  compressToEncodedURIComponent : string -> string;
  decompressFromEncodedURIComponent : string -> Outcome (option string)
}.

(** What the codec relies on: the package's round trip, its space-free
    output alphabet (the comment in [decompressMarkdown]) and its answer
    to the empty input. *)
Class LZStringSpec (lz : LZString) : Prop := {
  lz_round_trip : forall t,
    decompressFromEncodedURIComponent (compressToEncodedURIComponent t)
    = Returned (Some t);
  lz_no_space : forall t,
    includes " " (compressToEncodedURIComponent t) = false;
  lz_decompress_empty :
    decompressFromEncodedURIComponent "" = Returned None
}.

Definition MAX_SHAREABLE_URL_LENGTH : nat := 2000.

Section Codec.
Context {lz : LZString}.

Definition compressMarkdown (markdown : string) : string :=
  if negb (truthy markdown) then ""
  else compressToEncodedURIComponent markdown.

Definition decompressMarkdown (compressed : string) : Outcome (option string) :=
  if negb (truthy compressed) then Returned None
  else
    let safeCompressed := replaceAll " " "+" compressed in
    decompressFromEncodedURIComponent safeCompressed.

End Codec.

(** *** A reference instance of the interface

    Not LZ compression: a marker letter followed by two letters per
    character.  It meets [LZStringSpec], so the contract is satisfiable,
    and it lets the definitions above run on concrete inputs. *)
Module PairCodec.

Definition letter (n : N) : ascii := ascii_of_N (65 + n).

Definition value (a : ascii) : option N :=
  let n := N_of_ascii a in
  if ((65 <=? n) && (n <? 81))%N then Some (n - 65)%N else None.

Fixpoint encode (s : string) : string :=
  match s with
  | EmptyString => EmptyString
  | String c r =>
      let n := N_of_ascii c in
      String (letter (n / 16)) (String (letter (n mod 16)) (encode r))
  end.

Fixpoint decode (s : string) : option string :=
  match s with
  | EmptyString => Some EmptyString
  | String a (String b r) =>
      match value a, value b, decode r with
      | Some h, Some l, Some t => Some (String (ascii_of_N (16 * h + l)) t)
      | _, _, _ => None
      end
  | String _ EmptyString => None
  end.

Definition compress (s : string) : string := String "Q" (encode s).

Definition decompress (s : string) : Outcome (option string) :=
  match s with
  | String "Q" r => Returned (decode r)
  | _ => Returned None
  end.

#[export] Instance codec : LZString := {|
  compressToEncodedURIComponent := compress;
  decompressFromEncodedURIComponent := decompress
|}.

End PairCodec.

(** ** components/Viewer.tsx: the decode path *)

Module Viewer.

Record State : Type := mkState {
  content : string;
  loading : bool;
  error : option string
}.

(** [useState('')], [useState(true)], [useState(null)]. *)
Definition initial : State :=
  {| content := ""; loading := true; error := None |}.

Definition MSG_ABSENT : string :=
  "No content found in the URL. The link might be incomplete.".
Definition MSG_EMPTY : string :=
  "The shared link content is empty. Please check the URL.".
Definition MSG_CORRUPT : string :=
  "Failed to load content. The link data might be corrupted or invalid.".
Definition MSG_EXCEPTION : string :=
  "An error occurred while processing the content.".

Definition setError (msg : string) (v : State) : State :=
  {| content := content v; loading := loading v; error := Some msg |}.
Definition setContent (c : string) (v : State) : State :=
  {| content := c; loading := loading v; error := error v |}.
Definition clearError (v : State) : State :=
  {| content := content v; loading := loading v; error := None |}.
Definition setLoading (b : bool) (v : State) : State :=
  {| content := content v; loading := b; error := error v |}.

Section Effect.
Context {lz : LZString}.

(** The effect on [searchParams]; [c] is [searchParams.get('c')]. *)
Definition decodeEffect (c : option string) (v : State) : State :=
  match c with
  | None => setLoading false (setError MSG_ABSENT v)
  | Some encoded =>
      if trim encoded =? "" then setLoading false (setError MSG_EMPTY v)
      else
        setLoading false
          match decompressMarkdown encoded with
          | Returned (Some decoded) =>
              if truthy decoded then clearError (setContent decoded v)
              else setError MSG_CORRUPT v
          | Returned None => setError MSG_CORRUPT v
          | Thrown => setError MSG_EXCEPTION v
          end
  end.

End Effect.
End Viewer.

(** ** components/Editor.tsx: the document session *)

Module Editor.

Definition STORAGE_KEY : string := "ghost-md-draft".

(** [historyRef.current]. *)
Record History : Type := mkHistory {
  past : list string;
  future : list string
}.

(** A pending [window.setTimeout]: the instant it is due and the value
    its callback closed over. *)
Record Timer : Type := mkTimer {
  due : nat;
  captured : string
}.

Inductive Toast : Type :=
| ToastSuccess (msg : string)
| ToastError (msg : string).

(** The session: the [markdown] and [fileName] states, the refs the
    history uses, the two debounce timers, the entry of [localStorage]
    under [STORAGE_KEY], the toasts shown so far and the clock. *)
Record State : Type := mkState {
  markdown : string;
  fileName : string;
  historyRef : History;
  lastSavedMarkdown : string;
  historyTimeoutRef : option Timer;
  autoSaveTimeoutRef : option Timer;
  draft : option string;
  toasts : list Toast;
  now : nat
}.

Definition with_markdown (v : string) (s : State) : State :=
  mkState v (fileName s) (historyRef s) (lastSavedMarkdown s)
    (historyTimeoutRef s) (autoSaveTimeoutRef s) (draft s) (toasts s) (now s).
Definition with_fileName (v : string) (s : State) : State :=
  mkState (markdown s) v (historyRef s) (lastSavedMarkdown s)
    (historyTimeoutRef s) (autoSaveTimeoutRef s) (draft s) (toasts s) (now s).
Definition with_history (h : History) (s : State) : State :=
  mkState (markdown s) (fileName s) h (lastSavedMarkdown s)
    (historyTimeoutRef s) (autoSaveTimeoutRef s) (draft s) (toasts s) (now s).
Definition with_lastSaved (v : string) (s : State) : State :=
  mkState (markdown s) (fileName s) (historyRef s) v
    (historyTimeoutRef s) (autoSaveTimeoutRef s) (draft s) (toasts s) (now s).
Definition with_historyTimeout (t : option Timer) (s : State) : State :=
  mkState (markdown s) (fileName s) (historyRef s) (lastSavedMarkdown s)
    t (autoSaveTimeoutRef s) (draft s) (toasts s) (now s).
Definition with_autoSaveTimeout (t : option Timer) (s : State) : State :=
  mkState (markdown s) (fileName s) (historyRef s) (lastSavedMarkdown s)
    (historyTimeoutRef s) t (draft s) (toasts s) (now s).
Definition with_draft (d : option string) (s : State) : State :=
  mkState (markdown s) (fileName s) (historyRef s) (lastSavedMarkdown s)
    (historyTimeoutRef s) (autoSaveTimeoutRef s) d (toasts s) (now s).
Definition with_now (t : nat) (s : State) : State :=
  mkState (markdown s) (fileName s) (historyRef s) (lastSavedMarkdown s)
    (historyTimeoutRef s) (autoSaveTimeoutRef s) (draft s) (toasts s) t.
Definition toast (t : Toast) (s : State) : State :=
  mkState (markdown s) (fileName s) (historyRef s) (lastSavedMarkdown s)
    (historyTimeoutRef s) (autoSaveTimeoutRef s) (draft s) (toasts s ++ [t])
    (now s).

(** [Array.prototype.push], [shift] and [pop]. *)
Definition push {A : Type} (l : list A) (x : A) : list A := l ++ [x].
Definition shift {A : Type} (l : list A) : list A := tl l.
Definition pop {A : Type} (l : list A) : option (list A * A) :=
  match List.rev l with
  | [] => None
  | x :: r => Some (List.rev r, x)
  end.

(** The state at mount: the saved draft when there is a non-empty one,
    the default document otherwise; the auto-save effect has run once. *)
Definition initial (DEFAULT_MARKDOWN : string) (saved : option string) : State :=
  let md :=
    match saved with
    | Some v => if truthy v then v else DEFAULT_MARKDOWN
    | None => DEFAULT_MARKDOWN
    end in
  {| markdown := md;
     fileName := "document";
     historyRef := {| past := []; future := [] |};
     lastSavedMarkdown := md;
     historyTimeoutRef := None;
     autoSaveTimeoutRef := Some {| due := 1000; captured := md |};
     draft := saved;
     toasts := [];
     now := 0 |}.

(** The auto-save effect, run when [markdown] has changed: the cleanup of
    its previous run clears the pending timer, its body sets a new one. *)
Definition autoSaveEffect (s : State) : State :=
  with_autoSaveTimeout
    (Some {| due := now s + 1000; captured := markdown s |}) s.

(** [setMarkdown]: a state update to an equal value renders nothing, so
    the effect on [markdown] does not run again. *)
Definition setMarkdown (v : string) (s : State) : State :=
  if v =? markdown s then s else autoSaveEffect (with_markdown v s).

Definition pushToHistory (value : string) (s : State) : State :=
  if value =? lastSavedMarkdown s then s
  else
    let past1 := push (past (historyRef s)) (lastSavedMarkdown s) in
    let past2 := if (50 <? length past1)%nat then shift past1 else past1 in
    with_lastSaved value
      (with_history {| past := past2; future := [] |} s).

Definition handleUndo (s : State) : State :=
  match pop (past (historyRef s)) with
  | None => s
  | Some (past', previous) =>
      let h := {| past := past';
                  future := push (future (historyRef s)) (markdown s) |} in
      setMarkdown previous (with_lastSaved previous (with_history h s))
  end.

Definition handleRedo (s : State) : State :=
  match pop (future (historyRef s)) with
  | None => s
  | Some (future', next) =>
      let h := {| past := push (past (historyRef s)) (markdown s);
                  future := future' |} in
      setMarkdown next (with_lastSaved next (with_history h s))
  end.

(** [onMarkdownChange]: the pending history timer is cleared and a new
    one set, 500 ms ahead, closing over [newVal]. *)
Definition onMarkdownChange (newVal : string) (s : State) : State :=
  with_historyTimeout
    (Some {| due := now s + 500; captured := newVal |})
    (setMarkdown newVal s).

(** The end of [insertSnippet], once the splice has produced
    [newContent]: the change, then an immediate checkpoint.  (The splice
    itself, which reads the textarea's selection, is not modelled.) *)
Definition insertSnippet (newContent : string) (s : State) : State :=
  pushToHistory newContent (onMarkdownChange newContent s).

(** [name.replace(/\.[^/.]+$/, "")]: the last dot and what follows it go,
    when at least one character follows and none of them is a slash. *)
Fixpoint extensionSplit (rs : string) (n : nat) : option string :=
  match rs with
  | EmptyString => None
  | String c r =>
      if Ascii.eqb c "." then (if n =? 0 then None else Some r)%nat
      else if Ascii.eqb c "/" then None
      else extensionSplit r (S n)
  end.

Definition stripExtension (name : string) : string :=
  match extensionSplit (JS.rev name) 0 with
  | Some r => JS.rev r
  | None => name
  end.

(** [processFile], with the outcome of the [FileReader]: [Some text] for
    [onload], [None] for [onerror]. *)
Definition processFile (name : string) (result : option string) (s : State)
  : State :=
  if endsWith name ".md" || endsWith name ".txt" then
    match result with
    | Some text =>
        let s1 := with_history {| past := []; future := [] |} s in
        let s2 := with_lastSaved text s1 in
        let s3 := with_fileName (stripExtension name) s2 in
        let s4 := setMarkdown text s3 in
        toast (ToastSuccess ("Imported: " ++ name)) s4
    | None => toast (ToastError "Failed to read file.") s
    end
  else toast (ToastError "Invalid file type.") s.

(** The callbacks of the two timers, run when due. *)
Definition fireHistoryTimeout (s : State) : State :=
  match historyTimeoutRef s with
  | Some t =>
      if (due t <=? now s)%nat
      then pushToHistory (captured t) (with_historyTimeout None s)
      else s
  | None => s
  end.

(** The store takes the write here; [Quota.fireAutoSaveTimeout] is the
    callback over a store that can refuse it. *)
Definition fireAutoSaveTimeout (s : State) : State :=
  match autoSaveTimeoutRef s with
  | Some t =>
      if (due t <=? now s)%nat
      then with_draft (Some (captured t)) (with_autoSaveTimeout None s)
      else s
  | None => s
  end.

(** [ms] milliseconds pass with no event: the clock moves and the timers
    that have come due fire. *)
Definition elapse (ms : nat) (s : State) : State :=
  fireAutoSaveTimeout (fireHistoryTimeout (with_now (now s + ms) s)).

Inductive Event : Type :=
| Typed (newVal : string)
| Snippet (newContent : string)
| UndoKey
| RedoKey
| FileLoaded (name : string) (result : option string)
| Elapsed (ms : nat).

Definition step (s : State) (e : Event) : State :=
  match e with
  | Typed newVal => onMarkdownChange newVal s
  | Snippet newContent => insertSnippet newContent s
  | UndoKey => handleUndo s
  | RedoKey => handleRedo s
  | FileLoaded name result => processFile name result s
  | Elapsed ms => elapse ms s
  end.

Definition run (es : list Event) (s : State) : State := fold_left step es s.

(** The states a session can be in. *)
Inductive reachable (DEFAULT_MARKDOWN : string) (saved : option string)
  : State -> Prop :=
| reach_initial : reachable DEFAULT_MARKDOWN saved (initial DEFAULT_MARKDOWN saved)
| reach_step : forall s e,
    reachable DEFAULT_MARKDOWN saved s ->
    reachable DEFAULT_MARKDOWN saved (step s e).

(** A burst of edits: a first one, then each further one [gap] ms after
    the one before. *)
Definition burst (first : string) (rest : list (nat * string)) : list Event :=
  Typed first :: flat_map (fun gv => [Elapsed (fst gv); Typed (snd gv)]) rest.

Definition lastTyped (first : string) (rest : list (nat * string)) : string :=
  List.last (map snd rest) first.

(** Edit, then stay quiet until the debounce has committed. *)
Definition commits (vs : list string) : list Event :=
  flat_map (fun v => [Typed v; Elapsed 500]) vs.

(** *** Vocabulary of the properties *)

(** What the history keeps of the snapshots pushed so far: the last 50. *)
Definition keep50 (log : list string) : list string :=
  skipn (length log - 50) log.

(** The past stack after a push and the eviction that may follow it. *)
Definition capped (past1 : list string) : list string :=
  if (50 <? length past1)%nat then shift past1 else past1.

(** Consecutive values differ, starting from [prev]. *)
Fixpoint chain (prev : string) (vs : list string) : Prop :=
  match vs with
  | [] => True
  | v :: r => v <> prev /\ chain v r
  end.

(** Every push onto one stack pairs with a pop from the other or with
    the eviction, so the two stacks never hold more than 50 snapshots
    together. *)
Definition bounded (s : State) : Prop :=
  (length (past (historyRef s)) + length (future (historyRef s)) <= 50)%nat.

(** Sixty one-character texts, all different from one another and from
    the text the session starts with. *)
Definition sixty : list string :=
  map (fun n => String (ascii_of_nat n) EmptyString) (seq 40 60).

End Editor.

(** ** utils.ts and components/Editor.tsx: sharing *)

Module Share.

(** What the request of [shortenUrl] comes back with: the [fetch] (or
    the reading of its body) rejects, the response is not [ok], or the
    body is a JSON object with its [shorturl] and [errormessage]. *)
Inductive Reply : Type :=
| NetworkFailure
| HttpError (status : nat)
| Json (shorturl : option string) (errormessage : option string).

(** [shortenUrl], over the service's reply to each long URL: the short
    URL, or an error thrown. *)
Definition shortenUrl (service : string -> Reply) (longUrl : string)
  : Outcome string :=
  match service longUrl with
  | NetworkFailure => Thrown
  | HttpError _ => Thrown
  | Json (Some shorturl) _ => if truthy shorturl then Returned shorturl else Thrown
  | Json None _ => Thrown
  end.

(** The states [handleShare] writes. *)
Record Modal : Type := mkModal {
  shareUrl : string;
  isUrlTooLarge : bool;
  isShortening : bool;
  isShareModalOpen : bool;
  shown : option Editor.Toast
}.

(** [useState("")], [useState(false)] three times; no toast yet. *)
Definition closed : Modal := mkModal "" false false false None.

Section HandleShare.
Context {lz : LZString}.
(** [window.location.origin], and the shortening service's reply to a
    long URL. *)
Variable origin : string.
Variable service : string -> Reply.

Definition generatedUrl (markdown : string) : string :=
  origin ++ "/#/view?c=" ++ compressMarkdown markdown.

Definition handleShare (markdown : string) (m : Modal) : Modal :=
  let url := generatedUrl markdown in
  if (MAX_SHAREABLE_URL_LENGTH <? String.length url)%nat then
    match shortenUrl service url with
    | Returned shortUrl =>
        mkModal shortUrl false false true
          (Some (Editor.ToastSuccess "Short link generated!"))
    | Thrown =>
        mkModal url true false true
          (Some (Editor.ToastError "Document too large for URL sharing"))
    end
  else
    mkModal url false (isShortening m) true
      (Some (Editor.ToastSuccess "Sharable link generated!")).

End HandleShare.

(** The three results a caller can tell apart, read off the states. *)
Definition Direct (url : string) (m : Modal) : Prop :=
  shareUrl m = url /\ isUrlTooLarge m = false /\
  shown m = Some (Editor.ToastSuccess "Sharable link generated!").
Definition Shortened (url : string) (m : Modal) : Prop :=
  shareUrl m = url /\ isUrlTooLarge m = false /\
  shown m = Some (Editor.ToastSuccess "Short link generated!").
Definition TooLarge (url : string) (m : Modal) : Prop :=
  shareUrl m = url /\ isUrlTooLarge m = true /\
  shown m = Some (Editor.ToastError "Document too large for URL sharing").

(** A text of [n] letters. *)
Definition filler (n : nat) : string := string_of_list_ascii (repeat "a"%char n).

(** A text of [n] printable characters with no pattern to it, drawn from
    the linear congruential sequence [x := (75 * x + 74) mod 65537]
    started at [x]: the character is the one of code [33 + x mod 94].
    Dictionary compression does not shorten such a text. *)
Fixpoint noise (n : nat) (x : N) : string :=
  match n with
  | 0 => EmptyString
  | S n' =>
      let x' := ((75 * x + 74) mod 65537)%N in
      String (ascii_of_N (33 + x' mod 94)) (noise n' x')
  end.

(** A service that is down, and one that answers every request with a
    URL of 2001 characters. *)
Definition down : string -> Reply := fun _ => NetworkFailure.
Definition verbose : string -> Reply := fun _ => Json (Some (filler 2001)) None.

End Share.

(** ** components/Editor.tsx: search *)

Module Search.

Record Span : Type := mkSpan {
  start : nat;
  stop : nat   (* the field [end] *)
}.

(** The pattern matcher behind [RegExp], a built-in the model takes as an
    interface: [compile] is the constructor's parse of a source under the
    [i] flag or not ([None] when it throws a SyntaxError), and [matchAt]
    runs the compiled matcher at one index of the text, giving the end
    index of the match found there. *)
Class Matcher : Type := {
  compiled : Type;
  compile : string -> bool -> option compiled;
  matchAt : compiled -> string -> nat -> option nat
}.

(** A match found at an index ends between that index and the end of the
    text. *)
Class MatcherSpec (M : Matcher) : Prop := {
  matchAt_bounds : forall p text i e,
    i <= String.length text -> matchAt p text i = Some e ->
    i <= e <= String.length text
}.

Section PerformSearch.
Context {M : Matcher}.

(** A [RegExp] object with the [g] flag. *)
Record RegExp : Type := mkRegExp {
  matcher : compiled;
  lastIndex : nat
}.

(** The result array of [exec]: [match.index] and [match[0]]. *)
Record Match : Type := mkMatch {
  index : nat;
  matched : string
}.

(** The matcher is tried at [i], [i + 1], ... for [n + 1] indices. *)
Fixpoint scan (p : compiled) (text : string) (n i : nat) : option (nat * nat) :=
  match matchAt p text i with
  | Some e => Some (i, e)
  | None =>
      match n with
      | 0 => None
      | S n' => scan p text n' (S i)
      end
  end.

(** [regex.exec(text)] for a global pattern (RegExpBuiltinExec): a
    [lastIndex] past the end fails; a failure resets [lastIndex] to 0; a
    match sets it to the end index. *)
Definition exec (r : RegExp) (text : string) : option Match * RegExp :=
  if (String.length text <? lastIndex r)%nat then (None, mkRegExp (matcher r) 0)
  else
    match scan (matcher r) text (String.length text - lastIndex r) (lastIndex r) with
    | None => (None, mkRegExp (matcher r) 0)
    | Some (i, e) =>
        (Some (mkMatch i (substring i (e - i) text)), mkRegExp (matcher r) e)
    end.

(** [if (match.index === regex.lastIndex) regex.lastIndex++]. *)
Definition advance (m : Match) (regex : RegExp) : RegExp :=
  if (index m =? lastIndex regex)%nat
  then mkRegExp (matcher regex) (S (lastIndex regex))
  else regex.

(** The [while] loop of [performSearch]; [None] when [fuel] iterations
    were not enough to leave it. *)
Fixpoint searchLoop (fuel : nat) (regex : RegExp) (text : string)
  (matches : list Span) : option (list Span) :=
  match fuel with
  | 0 => None
  | S fuel' =>
      match exec regex text with
      | (None, _) => Some matches
      | (Some m, regex1) =>
          let matches1 :=
            Editor.push matches
              (mkSpan (index m) (index m + String.length (matched m))) in
          searchLoop fuel' (advance m regex1) text matches1
      end
  end.

Definition performSearch (fuel : nat) (text term : string) (matchCase : bool)
  : option (list Span) :=
  if negb (truthy term) then Some []
  else
    match compile term (negb matchCase) with
    | None => Some []
    | Some p => searchLoop fuel (mkRegExp p 0) text []
    end.

(** Iterations that always suffice (see [performSearch_terminates]). *)
Definition enough (text : string) : nat := String.length text + 2.

End PerformSearch.

(** Spans in ascending order, none overlapping the next. *)
Fixpoint ascending (l : list Span) : Prop :=
  match l with
  | [] => True
  | a :: r =>
      match r with
      | [] => True
      | b :: _ => start a < start b /\ stop a <= start b
      end /\ ascending r
  end.

End Search.

(** *** A reference matcher

    An instance of the interface, not the built-in itself: a
    backtracking matcher for a fragment of the pattern language, namely
    literal characters, [.], alternation, groups, the greedy quantifiers
    [*], [+] and [?], and a backslash before a punctuation character.
    On that fragment it follows the built-in (alternatives in order,
    greedy repetition, an iteration of [*] or [?] that consumes nothing
    not taken, case folding of the code units below 256).  A source the
    grammar refuses (a quantifier with nothing to repeat, an unbalanced
    parenthesis, a trailing backslash) does not compile; neither does
    one that leaves the fragment (classes, braces, anchors, letter
    escapes, lazy quantifiers), although the built-in accepts those: no
    property below is stated of this instance but through the
    interface, and it serves to show the contracts satisfiable and to
    run [performSearch] on concrete inputs. *)
Module Backtrack.

Inductive Regex : Type :=
| Eps
| Chr (c : ascii)
| Any
| Seq (a b : Regex)
| Alt (a b : Regex)
| Star (a : Regex)
| Opt (a : Regex).

Definition isQuantifier (c : ascii) : bool :=
  Ascii.eqb c "*" || Ascii.eqb c "+" || Ascii.eqb c "?".

Definition isBracket (c : ascii) : bool :=
  Ascii.eqb c "[" || Ascii.eqb c "]" || Ascii.eqb c "{" || Ascii.eqb c "}"
  || Ascii.eqb c "^" || Ascii.eqb c "$".

Definition isAlphaNum (c : ascii) : bool :=
  let n := nat_of_ascii c in
  ((48 <=? n) && (n <=? 57) || (65 <=? n) && (n <=? 90)
   || (97 <=? n) && (n <=? 122) || (n =? 95))%nat.

Definition quantified (a : Regex) (q : ascii) : Regex :=
  if Ascii.eqb q "*" then Star a
  else if Ascii.eqb q "+" then Seq a (Star a)
  else Opt a.

(** Recursive descent: Disjunction, Alternative, Term, Atom. *)
Fixpoint parseDisjunction (fuel : nat) (s : list ascii)
  : option (Regex * list ascii) :=
  match fuel with
  | 0 => None
  | S f =>
      match parseAlternative f s with
      | Some (a, "|"%char :: r) =>
          match parseDisjunction f r with
          | Some (b, r') => Some (Alt a b, r')
          | None => None
          end
      | other => other
      end
  end
with parseAlternative (fuel : nat) (s : list ascii)
  : option (Regex * list ascii) :=
  match fuel with
  | 0 => None
  | S f =>
      match s with
      | [] => Some (Eps, s)
      | c :: _ =>
          if Ascii.eqb c "|" || Ascii.eqb c ")" then Some (Eps, s)
          else
            match parseTerm f s with
            | Some (t, r) =>
                match parseAlternative f r with
                | Some (a, r') => Some (Seq t a, r')
                | None => None
                end
            | None => None
            end
      end
  end
with parseTerm (fuel : nat) (s : list ascii)
  : option (Regex * list ascii) :=
  match fuel with
  | 0 => None
  | S f =>
      match parseAtom f s with
      | Some (a, q :: r) =>
          if isQuantifier q then
            match r with
            | q' :: _ => if isQuantifier q' then None else Some (quantified a q, r)
            | [] => Some (quantified a q, r)
            end
          else Some (a, q :: r)
      | other => other
      end
  end
with parseAtom (fuel : nat) (s : list ascii)
  : option (Regex * list ascii) :=
  match fuel with
  | 0 => None
  | S f =>
      match s with
      | [] => None
      | c :: r =>
          if Ascii.eqb c "(" then
            match parseDisjunction f r with
            | Some (g, ")"%char :: r') => Some (g, r')
            | _ => None
            end
          else if Ascii.eqb c "." then Some (Any, r)
          else if Ascii.eqb c "\" then
            match r with
            | d :: r' => if isAlphaNum d then None else Some (Chr d, r')
            | [] => None
            end
          else if isQuantifier c || isBracket c then None
          else Some (Chr c, r)
      end
  end.

Definition parse (source : string) : option Regex :=
  let s := list_ascii_of_string source in
  match parseDisjunction (4 * List.length s + 8) s with
  | Some (r, []) => Some r
  | _ => None
  end.

(** Case folding of the [i] flag (Canonicalize), on the code units
    below 256: the letters a-z, and the Latin-1 letters from 224 to 254
    but the division sign, go to the code unit 32 below.  The upper-case
    forms of the micro sign (181) and of y with diaeresis (255) lie
    above 255, and that of the sharp s (223) is two code units: each of
    the three matches itself only. *)
Definition canonicalize (c : ascii) : ascii :=
  let n := nat_of_ascii c in
  if ((97 <=? n) && (n <=? 122)
      || (224 <=? n) && (n <=? 254) && negb (n =? 247))%nat
  then ascii_of_nat (n - 32) else c.

Definition sameChar (ignoreCase : bool) (a b : ascii) : bool :=
  if ignoreCase then Ascii.eqb (canonicalize a) (canonicalize b)
  else Ascii.eqb a b.

Definition isLineTerminator (c : ascii) : bool :=
  let n := nat_of_ascii c in ((n =? 10) || (n =? 13))%nat.

(** The matcher, in continuation style: [k] is run on what is left of the
    input after the pattern; alternatives are tried in order, [*] and
    [?] are greedy.  An iteration of [*] or [?] that consumes nothing is
    not taken (the empty check of RepeatMatcher). *)
Fixpoint run (ignoreCase : bool) (r : Regex) (s : list ascii)
  (k : list ascii -> option nat) {struct r} : option nat :=
  match r with
  | Eps => k s
  | Chr c =>
      match s with
      | d :: s' => if sameChar ignoreCase c d then k s' else None
      | [] => None
      end
  | Any =>
      match s with
      | d :: s' => if isLineTerminator d then None else k s'
      | [] => None
      end
  | Seq a b => run ignoreCase a s (fun s' => run ignoreCase b s' k)
  | Alt a b =>
      match run ignoreCase a s k with
      | Some e => Some e
      | None => run ignoreCase b s k
      end
  | Star a =>
      (fix iterate (n : nat) (s : list ascii) {struct n} : option nat :=
         match n with
         | 0 => k s
         | S n' =>
             match
               run ignoreCase a s
                 (fun s' =>
                    if (List.length s' <? List.length s)%nat
                    then iterate n' s' else None)
             with
             | Some e => Some e
             | None => k s
             end
         end) (List.length s) s
  | Opt a =>
      match
        run ignoreCase a s
          (fun s' =>
             if (List.length s' <? List.length s)%nat then k s' else None)
      with
      | Some e => Some e
      | None => k s
      end
  end.

Definition matchAt (p : bool * Regex) (text : string) (i : nat) : option nat :=
  let s := list_ascii_of_string text in
  if (i <=? List.length s)%nat then
    run (fst p) (snd p) (skipn i s)
      (fun rest => Some (List.length s - List.length rest))
  else None.

Definition compile (source : string) (ignoreCase : bool) : option (bool * Regex) :=
  option_map (pair ignoreCase) (parse source).

#[export] Instance engine : Search.Matcher := {|
  Search.compiled := (bool * Regex)%type;
  Search.compile := compile;
  Search.matchAt := matchAt
|}.

End Backtrack.

(** ** The spans a search is to return *)

Module Matches.
Import Search.

Section Found.
Context {M : Matcher}.

(** The successive matches of a compiled pattern in a text, from index
    [i] on: the first index from [i] at which the matcher succeeds
    gives the first span, and the search resumes where that match
    ended, or one index further when the match was empty; there is no
    span when the matcher fails at every index from [i] to the end of
    the text. *)
Inductive found (p : compiled) (text : string) : nat -> list Span -> Prop :=
| found_end (i : nat) :
    (forall j, i <= j -> j <= String.length text -> matchAt p text j = None) ->
    found p text i []
| found_match (i j e : nat) (rest : list Span) :
    i <= j -> j <= String.length text ->
    (forall k, i <= k -> k < j -> matchAt p text k = None) ->
    matchAt p text j = Some e ->
    found p text (if (e =? j)%nat then S e else e) rest ->
    found p text i (mkSpan j e :: rest).

End Found.

(** What a pattern made of plain characters matches at an index: these
    characters, one after the other, up to case under the [i] flag. *)
Fixpoint literalFrom (ignoreCase : bool) (word text : list ascii) : bool :=
  match word with
  | [] => true
  | c :: w =>
      match text with
      | d :: t => Backtrack.sameChar ignoreCase c d && literalFrom ignoreCase w t
      | [] => false
      end
  end.

Definition literalAt (ignoreCase : bool) (word text : string) (j : nat)
  : option nat :=
  if literalFrom ignoreCase (list_ascii_of_string word)
       (skipn j (list_ascii_of_string text))
  then Some (j + String.length word)
  else None.

End Matches.

(** ** More of the strings *)

From Stdlib Require ZArith Floats.

Module JSText.
Import ZArith.

(** [s.substring(a, b)]: each index is clamped to the length, and the
    two are swapped when out of order. *)
Definition substring2 (s : string) (a b : nat) : string :=
  let len := String.length s in
  let a' := Nat.min a len in
  let b' := Nat.min b len in
  substring (Nat.min a' b') (Nat.max a' b' - Nat.min a' b') s.

(** [s.substring(a)]. *)
Definition substringFrom (s : string) (a : nat) : string :=
  substring2 s a (String.length s).

(** The largest index not above [k] that holds [c]. *)
Fixpoint lastIndexFrom (c : ascii) (s : string) (k : nat) : option nat :=
  if match get k s with
     | Some d => Ascii.eqb d c
     | None => false
     end
  then Some k
  else
    match k with
    | 0 => None
    | S k' => lastIndexFrom c s k'
    end.

(** [s.lastIndexOf(c, position)] for a search string of one character:
    the position is clamped between 0 and the length; the answer is -1
    when nothing is found. *)
Definition lastIndexOf (c : ascii) (s : string) (position : Z) : Z :=
  let start :=
    Z.to_nat (Z.min (Z.max position 0) (Z.of_nat (String.length s))) in
  match lastIndexFrom c s start with
  | Some k => Z.of_nat k
  | None => (-1)%Z
  end.

(** [s.split(sep)] for a separator that is not empty; [skip] counts the
    characters of a separator still to pass, [cur] is the piece being
    read. *)
Fixpoint splitAux (sep : string) (skip : nat) (cur : string) (s : string)
  : list string :=
  match s with
  | EmptyString => [cur]
  | String c r =>
      match skip with
      | S k => splitAux sep k cur r
      | 0 =>
          if prefix sep s
          then cur :: splitAux sep (String.length sep - 1) EmptyString r
          else splitAux sep 0 (cur ++ String c EmptyString) r
      end
  end.

Definition split (sep s : string) : list string := splitAux sep 0 "" s.

(** [x || ""] for an array element that may be undefined. *)
Definition orEmpty (x : option string) : string :=
  match x with
  | Some v => if truthy v then v else ""
  | None => ""
  end.

(** The number of occurrences of a character. *)
Fixpoint count (c : ascii) (s : string) : nat :=
  match s with
  | EmptyString => 0
  | String d r => (if Ascii.eqb d c then 1 else 0) + count c r
  end.

(** The line feed. *)
Definition LF : ascii := ascii_of_nat 10.

End JSText.

(** ** components/Editor.tsx: snippets *)

Module Snippet.
Import JSText ZArith.

Inductive Kind : Type := Wrap | Line | Block.

(** The splice of [insertSnippet]: the new content and the new caret,
    from the buffer, the template, the insertion policy and the
    selection of the textarea. *)
Definition splice (markdown syntax : string) (type : Kind) (start stop : nat)
  : string * nat :=
  let selection := substring2 markdown start stop in
  match type with
  | Wrap =>
      let parts := split "Text" syntax in
      let prefix := orEmpty (nth_error parts 0) in
      let suffix := orEmpty (nth_error parts 1) in
      let textToUse := if truthy selection then selection else "text" in
      (substring2 markdown 0 start ++ prefix ++ textToUse ++ suffix
         ++ substringFrom markdown stop,
       start + String.length prefix + String.length textToUse
         + String.length suffix)
  | Line =>
      let lineStart :=
        Z.to_nat (lastIndexOf LF markdown (Z.of_nat start - 1) + 1) in
      (substring2 markdown 0 lineStart ++ syntax
         ++ substringFrom markdown lineStart,
       lineStart + String.length syntax
         + (if truthy selection then String.length selection else 0))
  | Block =>
      (substring2 markdown 0 start ++ String LF EmptyString ++ syntax
         ++ String LF EmptyString ++ substringFrom markdown stop,
       start + String.length syntax + 2)
  end.

(** [insertSnippet] as a whole: nothing happens without a textarea;
    otherwise the splice is applied as a change and a checkpoint, and
    the caret to restore is reported. *)
Definition insertSnippetAt (textarea : option (nat * nat)) (syntax : string)
  (type : Kind) (s : Editor.State) : Editor.State * option nat :=
  match textarea with
  | None => (s, None)
  | Some (start, stop) =>
      let r := splice (Editor.markdown s) syntax type start stop in
      (Editor.insertSnippet (fst r) s, Some (snd r))
  end.

(** What the wrap policy puts in: the two parts of the template around
    the selection, or around the word "text". *)
Definition wrapped (syntax selection : string) : string :=
  orEmpty (nth_error (split "Text" syntax) 0)
  ++ (if truthy selection then selection else "text")
  ++ orEmpty (nth_error (split "Text" syntax) 1).

(** Where the line policy puts the prefix. *)
Definition lineStart (markdown : string) (start : nat) : nat :=
  Z.to_nat (lastIndexOf LF markdown (Z.of_nat start - 1) + 1).

End Snippet.

(** ** components/CodeEditor.tsx: the search overlay and the gutter *)

Module CodeEditor.
Import JSText.

(** What [renderedMatches] holds: strings and highlighted spans. *)
Inductive Node : Type :=
| TextNode (s : string)
| Mark (key : nat) (current : bool) (s : string).

Definition nodeText (n : Node) : string :=
  match n with
  | TextNode s => s
  | Mark _ _ s => s
  end.

Definition isCurrent (n : Node) : bool :=
  match n with
  | TextNode _ => false
  | Mark _ c _ => c
  end.

Definition isMark (n : Node) : bool :=
  match n with
  | TextNode _ => false
  | Mark _ _ _ => true
  end.

(** The [forEach] over the matches, from match number [i] on, with the
    text up to [lastIndex] already rendered, and the push of the rest of
    the text that follows it. *)
Fixpoint forEachMatch (value : string) (currentIndex i lastIndex : nat)
  (matches : list Search.Span) : list Node :=
  match matches with
  | [] => [TextNode (substringFrom value lastIndex)]
  | m :: rest =>
      if ((Search.start m <? lastIndex)
          || (String.length value <? Search.start m))%nat
      then forEachMatch value currentIndex (S i) lastIndex rest
      else
        TextNode (substring2 value lastIndex (Search.start m))
        :: Mark i (i =? currentIndex)%nat
             (substring2 value (Search.start m) (Search.stop m))
        :: forEachMatch value currentIndex (S i) (Search.stop m) rest
  end.

Definition renderedMatches (value : string) (matches : list Search.Span)
  (currentIndex : nat) : list Node :=
  match matches with
  | [] => [TextNode value]
  | _ => forEachMatch value currentIndex 0 0 matches
  end.

(** The text the overlay shows. *)
Definition shownText (nodes : list Node) : string :=
  String.concat "" (map nodeText nodes).

(** [value.split('\n').length] and the line numbers of the gutter. *)
Definition lineCount (value : string) : nat :=
  List.length (split (String LF EmptyString) value).

Definition lines (value : string) : list nat := seq 1 (lineCount value).

End CodeEditor.

(** ** components/Editor.tsx: the search state, drag and drop, export *)

Module SearchPanel.

Record SearchState : Type := mkSearchState {
  isOpen : bool;
  searchTerm : string;
  replaceTerm : string;
  matchCase : bool;
  currentIndex : nat;
  results : list Search.Span
}.

Definition initial : SearchState := mkSearchState false "" "" false 0 [].

(** The update of the effect on the buffer and the query, once
    [performSearch] has returned [found]. *)
Definition withResults (found : list Search.Span) (s : SearchState)
  : SearchState :=
  mkSearchState (isOpen s) (searchTerm s) (replaceTerm s) (matchCase s)
    (if (0 <? List.length found)%nat
     then (if (List.length found <=? currentIndex s)%nat then 0 else currentIndex s)
     else 0)
    found.

(** The effect itself; [None] when [fuel] does not let the search
    finish. *)
Definition searchEffect {M : Search.Matcher} (fuel : nat) (markdown : string)
  (s : SearchState) : option SearchState :=
  option_map (fun found => withResults found s)
    (Search.performSearch fuel markdown (searchTerm s) (matchCase s)).

End SearchPanel.

Module DragDrop.
Import ZArith.

(** [dragCounter.current] and the [isDraggingFile] state. *)
Record State : Type := mkState {
  dragCounter : Z;
  isDraggingFile : bool
}.

Definition initial : State := mkState 0 false.

(** [hasFiles] is [e.dataTransfer.types.includes("Files")]. *)
Definition handleDragEnter (hasFiles : bool) (d : State) : State :=
  if negb hasFiles then d
  else mkState (dragCounter d + 1) true.

Definition handleDragLeave (d : State) : State :=
  if negb (isDraggingFile d) then d
  else
    let c := (dragCounter d - 1)%Z in
    mkState c (if (c =? 0)%Z then false else isDraggingFile d).

Definition handleDragOver (d : State) : State := d.

(** The state part of [handleDrop], and of the close button of the
    overlay. *)
Definition handleDrop (d : State) : State := mkState 0 false.
Definition closeOverlay (d : State) : State := mkState 0 false.

(** The file [handleDrop] passes on to [processFile]:
    [e.dataTransfer.files[0]], when there is one. *)
Definition droppedFile {F : Type} (files : list F) : option F :=
  match files with
  | [] => None
  | f :: _ => Some f
  end.

Inductive Event : Type :=
| DragEnter (hasFiles : bool)
| DragLeave
| DragOver
| Drop
| Close.

Definition step (d : State) (e : Event) : State :=
  match e with
  | DragEnter hasFiles => handleDragEnter hasFiles d
  | DragLeave => handleDragLeave d
  | DragOver => handleDragOver d
  | Drop => handleDrop d
  | Close => closeOverlay d
  end.

Definition run (es : list Event) (d : State) : State := fold_left step es d.

End DragDrop.

Module Exporting.

Inductive ExportFormat : Type := Md | Pdf.

(** The file [handleExport] hands to the browser: the [download]
    attribute of the link and the content of the blob. *)
Record Download : Type := mkDownload {
  download : string;
  blob : string
}.

(** [`${fileName.trim() || "document"}.md`]. *)
Definition downloadName (fileName : string) : string :=
  (if truthy (trim fileName) then trim fileName else "document") ++ ".md".

(** What [handleExport] does at once: the download, if any, and the
    toast; the modal closes in both cases.  (The print dialog of the PDF
    branch opens 500 ms later.) *)
Definition handleExport (exportFormat : ExportFormat) (s : Editor.State)
  : option Download * Editor.State :=
  match exportFormat with
  | Md =>
      (Some (mkDownload (downloadName (Editor.fileName s)) (Editor.markdown s)),
       Editor.toast (Editor.ToastSuccess "File exported!") s)
  | Pdf => (None, s)
  end.

End Exporting.

(** ** components/Editor.tsx: the draft, with a store that can refuse *)

Module Quota.
Import Editor.

Section Store.
(** Whether [localStorage.setItem(STORAGE_KEY, v)] stores [v].  When the
    entry would not fit the quota of the origin the call throws
    instead, the entry stays as it was, and the exception ends the
    callback of the timer; nothing catches it and nothing else is
    touched.  (The other entries of the origin are taken as fixed, so
    that the answer depends on the value alone.) *)
Variable accepts : string -> bool.

(** The callback of the auto-save timer, run when due. *)
Definition fireAutoSaveTimeout (s : State) : State :=
  match autoSaveTimeoutRef s with
  | Some t =>
      if (due t <=? now s)%nat
      then
        if accepts (captured t)
        then with_draft (Some (captured t)) (with_autoSaveTimeout None s)
        else with_autoSaveTimeout None s
      else s
  | None => s
  end.

Definition elapse (ms : nat) (s : State) : State :=
  fireAutoSaveTimeout (fireHistoryTimeout (with_now (now s + ms) s)).

Definition step (s : State) (e : Event) : State :=
  match e with
  | Elapsed ms => elapse ms s
  | _ => Editor.step s e
  end.

Definition run (es : list Event) (s : State) : State := fold_left step es s.

(** The states a session can be in. *)
Inductive reachable (DEFAULT_MARKDOWN : string) (saved : option string)
  : State -> Prop :=
| reach_initial : reachable DEFAULT_MARKDOWN saved (initial DEFAULT_MARKDOWN saved)
| reach_step : forall s e,
    reachable DEFAULT_MARKDOWN saved s ->
    reachable DEFAULT_MARKDOWN saved (step s e).

(** The draft follows the buffer as far as the store lets it: a pending
    auto-save timer holds the buffer and is due within a second; with
    no timer pending the draft is the buffer, unless the store refuses
    the buffer. *)
Definition synced (s : State) : Prop :=
  match autoSaveTimeoutRef s with
  | Some t => captured t = markdown s /\ (due t <= now s + 1000)%nat
  | None => accepts (markdown s) = true -> draft s = Some (markdown s)
  end.

End Store.

(** A store with room for five characters. *)
Definition tiny (v : string) : bool := (String.length v <=? 5)%nat.

End Quota.

(** ** The session: vocabulary of further properties *)

Module Session.
Import Editor.

(** The same handler, [n] times. *)
Definition times (n : nat) (handler : State -> State) (s : State) : State :=
  Nat.iter n handler s.

End Session.

(** ** Vocabulary of the search overlay *)

Module Overlay.

(** Spans in order within a text of length [len], from index [lo] on:
    each starts where the one before stopped or later, and none runs
    backwards or past the end. *)
Fixpoint chained (len lo : nat) (l : list Search.Span) : Prop :=
  match l with
  | [] => True
  | m :: r =>
      (lo <= Search.start m /\ Search.start m <= Search.stop m
       /\ Search.stop m <= len)%nat
      /\ chained len (Search.stop m) r
  end.

(** What [URLSearchParams] makes of the plus signs of a query value. *)
Definition plusToSpace (s : string) : string := replaceAll "+" " " s.

End Overlay.

(** ** components/ui.tsx: toasts *)

Module Toasts.

Inductive ToastType : Type := Success | Error | Info.

Record ToastEvent : Type := mkToastEvent {
  id : string;
  message : string;
  type : ToastType
}.

(** The module variable [toasts], the removal timers that are pending
    (the time each is due and the id it closes over, in the order they
    were set), and the clock. *)
Record State : Type := mkState {
  toasts : list ToastEvent;
  timers : list (nat * string);
  now : nat
}.

Definition initial : State := mkState [] [] 0.

(** [toast.show]; [newId] is the string drawn from [Math.random]. *)
Definition show (newId message : string) (type : ToastType) (s : State)
  : State :=
  mkState (toasts s ++ [mkToastEvent newId message type])
          (timers s ++ [(now s + 3000, newId)])
          (now s).

Definition success (newId msg : string) : State -> State :=
  show newId msg Success.

Definition error (newId msg : string) : State -> State :=
  show newId msg Error.

(** The body of a removal timer:
    [toasts = toasts.filter((t) => t.id !== id)]. *)
Definition remove (id0 : string) (l : list ToastEvent) : list ToastEvent :=
  filter (fun t => negb (id t =? id0)%string) l.

Definition isDue (now' : nat) (t : nat * string) : bool :=
  (fst t <=? now')%nat.

(** [ms] milliseconds pass: the timers that have come due fire, in the
    order they were set. *)
Definition elapse (ms : nat) (s : State) : State :=
  let now' := now s + ms in
  mkState
    (fold_left (fun l t => remove (snd t) l)
               (filter (isDue now') (timers s)) (toasts s))
    (filter (fun t => negb (isDue now' t)) (timers s))
    now'.

Inductive Event : Type :=
| Show (newId message : string) (type : ToastType)
| Elapsed (ms : nat).

Definition step (s : State) (e : Event) : State :=
  match e with
  | Show newId message type => show newId message type s
  | Elapsed ms => elapse ms s
  end.

Definition run (es : list Event) (s : State) : State := fold_left step es s.

(** The ids drawn during a run, and the time a run takes. *)
Fixpoint ids (es : list Event) : list string :=
  match es with
  | [] => []
  | Show newId _ _ :: r => newId :: ids r
  | Elapsed _ :: r => ids r
  end.

Fixpoint duration (es : list Event) : nat :=
  match es with
  | [] => 0
  | Show _ _ _ :: r => duration r
  | Elapsed ms :: r => ms + duration r
  end.

End Toasts.

(** ** components/Editor.tsx: the scroll lock *)

Module ScrollSync.
Import ZArith.

Inductive Source : Type := EditorPane | PreviewPane.

Definition other (source : Source) : Source :=
  match source with
  | EditorPane => PreviewPane
  | PreviewPane => EditorPane
  end.

Definition same (a b : Source) : bool :=
  match a, b with
  | EditorPane, EditorPane => true
  | PreviewPane, PreviewPane => true
  | _, _ => false
  end.

(** [syncSourceRef], the release timer of [syncTimeoutRef] (the time it
    is due, when one is pending) and the clock. *)
Record State : Type := mkState {
  syncSourceRef : option Source;
  syncTimeoutRef : option nat;
  now : nat
}.

Definition initial : State := mkState None None 0.

(** [handleScroll(source)].  [attached] says that both pane refs are
    set; [max] is [scrollHeight - clientHeight] of the source pane.  The
    result names the pane whose [scrollTop] is written, if any; the
    value written is left out. *)
Definition handleScroll (source : Source) (attached : bool) (max : Z)
  (s : State) : State * option Source :=
  if match syncSourceRef s with
     | Some o => negb (same o source)
     | None => false
     end
  then (s, None)
  else if negb attached then (s, None)
  else
    (mkState (Some source) (Some (now s + 50)) (now s),
     if (0 <? max)%Z then Some (other source) else None).

(** [ms] milliseconds pass: the release timer fires when it has come
    due. *)
Definition elapse (ms : nat) (s : State) : State :=
  let now' := now s + ms in
  match syncTimeoutRef s with
  | Some due =>
      if (due <=? now')%nat then mkState None None now'
      else mkState (syncSourceRef s) (Some due) now'
  | None => mkState (syncSourceRef s) None now'
  end.

Inductive Event : Type :=
| Scroll (source : Source) (attached : bool) (max : Z)
| Elapsed (ms : nat).

Definition step (s : State) (e : Event) : State :=
  match e with
  | Scroll source attached max => fst (handleScroll source attached max s)
  | Elapsed ms => elapse ms s
  end.

Definition run (es : list Event) (s : State) : State := fold_left step es s.

End ScrollSync.

(** ** components/Editor.tsx: scroll synchronisation, with the panes *)

Module ScrollPanes.
Import Floats.

(** The three metrics of a scroll container [handleScroll] reads,
    JavaScript numbers. *)
Record Pane : Type := mkPane {
  scrollTop : float;
  scrollHeight : float;
  clientHeight : float
}.

(** [editorScrollRef] and [previewScrollRef] ([None] while the element
    is not mounted), [syncSourceRef], the release timer of
    [syncTimeoutRef] and the clock. *)
Record State : Type := mkState {
  editorScrollRef : option Pane;
  previewScrollRef : option Pane;
  syncSourceRef : option ScrollSync.Source;
  syncTimeoutRef : option nat;
  now : nat
}.

Section Setter.
(** The assignment [pane.scrollTop = value], which belongs to the
    browser: what the element holds afterwards (the browser clamps the
    value to the range of the element and may round it). *)
Variable setScrollTop : float -> Pane -> Pane.

Definition handleScroll (source : ScrollSync.Source) (s : State) : State :=
  if match syncSourceRef s with
     | Some o => negb (ScrollSync.same o source)
     | None => false
     end
  then s
  else
    match editorScrollRef s, previewScrollRef s with
    | Some editor, Some preview =>
        let panes :=
          match source with
          | ScrollSync.EditorPane =>
              let editorMax := (scrollHeight editor - clientHeight editor)%float in
              if (0 <? editorMax)%float then
                let percentage := (scrollTop editor / editorMax)%float in
                (editor,
                 setScrollTop
                   (percentage * (scrollHeight preview - clientHeight preview))%float
                   preview)
              else (editor, preview)
          | ScrollSync.PreviewPane =>
              let previewMax := (scrollHeight preview - clientHeight preview)%float in
              if (0 <? previewMax)%float then
                let percentage := (scrollTop preview / previewMax)%float in
                (setScrollTop
                   (percentage * (scrollHeight editor - clientHeight editor))%float
                   editor,
                 preview)
              else (editor, preview)
          end in
        mkState (Some (fst panes)) (Some (snd panes)) (Some source)
          (Some (now s + 50)) (now s)
    | _, _ => s
    end.

End Setter.

(** [ms] milliseconds pass: the release timer fires when it has come
    due. *)
Definition elapse (ms : nat) (s : State) : State :=
  let now' := now s + ms in
  match syncTimeoutRef s with
  | Some due =>
      if (due <=? now')%nat
      then mkState (editorScrollRef s) (previewScrollRef s) None None now'
      else mkState (editorScrollRef s) (previewScrollRef s) (syncSourceRef s)
             (Some due) now'
  | None =>
      mkState (editorScrollRef s) (previewScrollRef s) (syncSourceRef s) None
        now'
  end.

(** *** Vocabulary of the properties *)

(** The pane behind a source. *)
Definition pane (source : ScrollSync.Source) (s : State) : option Pane :=
  match source with
  | ScrollSync.EditorPane => editorScrollRef s
  | ScrollSync.PreviewPane => previewScrollRef s
  end.

(** The range of a pane and its proportional position. *)
Definition range (p : Pane) : float := (scrollHeight p - clientHeight p)%float.
Definition proportion (p : Pane) : float := (scrollTop p / range p)%float.

(** What [handleScroll] assigns to the pane [b] when the pane [a] drives:
    nothing, when [a] has no range. *)
Definition driven (setScrollTop : float -> Pane -> Pane) (a b : Pane) : Pane :=
  if (0 <? range a)%float
  then setScrollTop (proportion a * range b)%float b
  else b.

(** The lock and its timer, as [ScrollSync] has them. *)
Definition lockOf (s : State) : ScrollSync.State :=
  ScrollSync.mkState (syncSourceRef s) (syncTimeoutRef s) (now s).

(** An element that holds the value assigned, as it is. *)
Definition store (value : float) (p : Pane) : Pane :=
  mkPane value (scrollHeight p) (clientHeight p).

(** An editor at 7 of 1234 and a preview at 0 of 777, the lock free;
    the state after a scroll of that editor; and the state after the
    scroll of the preview handled 50 ms later. *)
Definition aligned7 : State :=
  mkState (Some (mkPane 7 1834 600)) (Some (mkPane 0 1377 600)) None None 0.
Definition driven7 : State := handleScroll store ScrollSync.EditorPane aligned7.
Definition bounced7 : State :=
  handleScroll store ScrollSync.PreviewPane (elapse 50 driven7).

End ScrollPanes.

(** ** components/Editor.tsx: resizing *)

Module Resize.
Import Floats.
#[local] Open Scope float_scope.

(** The [splitRatio] state, a JavaScript number, and the [isResizing]
    ref. *)
Record State : Type := mkState {
  splitRatio : float;
  isResizing : bool
}.

Definition initial : State := mkState 50 false.

Definition startResizing (s : State) : State := mkState (splitRatio s) true.

(** [onMouseMove]; [clientX] and [innerWidth] are the numbers of the
    event and of the window. *)
Definition onMouseMove (clientX innerWidth : float) (s : State) : State :=
  if negb (isResizing s) then s
  else
    let newRatio := (clientX / innerWidth) * 100 in
    if (20 <? newRatio) && (newRatio <? 80)
    then mkState newRatio (isResizing s)
    else s.

Definition onMouseUp (s : State) : State := mkState (splitRatio s) false.

Inductive Event : Type :=
| MouseDown
| MouseMove (clientX innerWidth : float)
| MouseUp.

Definition step (s : State) (e : Event) : State :=
  match e with
  | MouseDown => startResizing s
  | MouseMove clientX innerWidth => onMouseMove clientX innerWidth s
  | MouseUp => onMouseUp s
  end.

Definition run (es : list Event) (s : State) : State := fold_left step es s.

End Resize.

(** ** App.tsx, components/ui.tsx, components/MarkdownRenderer.tsx: the
    colour theme *)

Module Theme.

(** The [ghost-md-theme] key of the local storage, the [data-theme]
    attribute of the document, and the [currentTheme] state of the
    toggle. *)
Record State : Type := mkState {
  stored : option string;
  dataTheme : option string;
  currentTheme : string
}.

(** [localStorage.getItem('ghost-md-theme') || 'gruvbox']. *)
Definition savedTheme (s : State) : string :=
  match stored s with
  | Some v => if truthy v then v else "gruvbox"
  | None => "gruvbox"
  end.

(** The effect of [App]. *)
Definition appEffect (s : State) : State :=
  mkState (stored s) (Some (savedTheme s)) (currentTheme s).

(** The effect of [ThemeToggle]. *)
Definition toggleEffect (s : State) : State :=
  mkState (stored s) (dataTheme s) (savedTheme s).

Definition handleThemeChange (theme : string) (s : State) : State :=
  mkState (Some theme) (Some theme) theme.

(** A page load: the storage stays, the attribute is not set, the toggle
    starts on its default; then both effects run. *)
Definition load (s : State) : State :=
  toggleEffect (appEffect (mkState (stored s) None "gruvbox")).

(** The themes [getHighlighter] creates the highlighter with. *)
Definition themes : list string := ["one-dark-pro"; "github-dark"; "dark-plus"].

(** The theme [CodeBlock] asks the highlighter for. *)
Definition shikiTheme (appTheme : option string) : string :=
  match appTheme with
  | Some t =>
      if (t =? "one-dark")%string then "one-dark-pro"
      else if (t =? "gruvbox")%string then "dark-plus"
      else "github-dark"
  | None => "github-dark"
  end.

End Theme.

(** ** Vocabulary of the snippet templates *)

Module Template.

(** [sub] occurs in [s]. *)
Fixpoint occurs (sub s : string) : bool :=
  prefix sub s
  || match s with
     | EmptyString => false
     | String _ r => occurs sub r
     end.

End Template.

(** ** Vocabulary of the invariants *)

Module Invariant.
Import ZArith Floats.

(** The drop overlay is up exactly while the counter is positive. *)
Definition balanced (d : DragDrop.State) : Prop :=
  (0 <= DragDrop.dragCounter d)%Z /\
  (DragDrop.isDraggingFile d = true <-> (0 < DragDrop.dragCounter d)%Z).

(** What holds of the toast with id [i] whose timer is due at [D], while
    no other toast or timer has that id. *)
Definition tracked (i : string) (D : nat) (x : Toasts.ToastEvent)
  (s : Toasts.State) : Prop :=
  (forall t, In t (Toasts.timers s) -> snd t = i -> fst t = D) /\
  (Toasts.now s < D ->
   In x (Toasts.toasts s) /\ In (D, i) (Toasts.timers s)) /\
  (D <= Toasts.now s -> forall y, In y (Toasts.toasts s) -> Toasts.id y <> i).

(** The scroll lock is held exactly while the release timer is pending,
    and the timer is due within 50 ms. *)
Definition timed (s : ScrollSync.State) : Prop :=
  match ScrollSync.syncSourceRef s, ScrollSync.syncTimeoutRef s with
  | Some _, Some due =>
      ScrollSync.now s < due /\ due <= ScrollSync.now s + 50
  | None, None => True
  | _, _ => False
  end.

(** The split ratio lies strictly between 20 and 80. *)
Definition within (s : Resize.State) : Prop :=
  PrimFloat.ltb 20%float (Resize.splitRatio s) = true /\
  PrimFloat.ltb (Resize.splitRatio s) 80%float = true.

End Invariant.

(** * Properties *)

(** ** The codec *)

Lemma truthy_false_iff (s : string) : truthy s = false <-> s = "".
Proof.
  unfold truthy. destruct (String.eqb_spec s ""); simpl; split;
    intros; congruence.
Qed.

Lemma truthy_true_iff (s : string) : truthy s = true <-> s <> "".
Proof.
  unfold truthy. destruct (String.eqb_spec s ""); simpl; split;
    intros; congruence.
Qed.

(** Replacing a character a string does not contain changes nothing. *)
Lemma replaceAll_absent (from to : ascii) (s : string) :
  includes from s = false -> replaceAll from to s = s.
Proof.
  induction s as [|c r IH]; simpl; [reflexivity|].
  intros H. apply orb_false_iff in H as [Hc Hr].
  rewrite Hc, (IH Hr). reflexivity.
Qed.

Section CodecFacts.
Context {lz : LZString} {spec : LZStringSpec lz}.

Lemma compress_nonempty (t : string) :
  compressToEncodedURIComponent t <> "".
Proof.
  intros E. pose proof (lz_round_trip t) as R.
  rewrite E, lz_decompress_empty in R. discriminate R.
Qed.

Lemma decompress_compress (t : string) :
  t <> "" -> decompressMarkdown (compressMarkdown t) = Returned (Some t).
Proof.
  intros Ht. unfold compressMarkdown, decompressMarkdown.
  apply truthy_true_iff in Ht. rewrite Ht. simpl.
  pose proof (compress_nonempty t) as Hc. apply truthy_true_iff in Hc.
  rewrite Hc. simpl.
  rewrite (replaceAll_absent _ _ _ (lz_no_space t)).
  apply lz_round_trip.
Qed.

End CodecFacts.

(** The reference codec meets the contract. *)
Module PairCodecFacts.
Import PairCodec.

Lemma letters (c : ascii) :
  let n := N_of_ascii c in
  value (letter (n / 16)) = Some (n / 16)%N /\
  value (letter (n mod 16)) = Some (n mod 16)%N /\
  ascii_of_N (16 * (n / 16) + n mod 16) = c /\
  Ascii.eqb (letter (n / 16)) " " = false /\
  Ascii.eqb (letter (n mod 16)) " " = false.
Proof.
  destruct c as [[] [] [] [] [] [] [] []]; vm_compute; repeat split.
Qed.

Lemma decode_encode (s : string) : decode (encode s) = Some s.
Proof.
  induction s as [|c r IH]; [reflexivity|].
  destruct (letters c) as (H1 & H2 & H3 & _).
  cbn [encode decode]. cbv zeta in H1, H2, H3.
  rewrite H1, H2, IH, H3. reflexivity.
Qed.

Lemma encode_no_space (s : string) : includes " " (encode s) = false.
Proof.
  induction s as [|c r IH]; [reflexivity|].
  destruct (letters c) as (_ & _ & _ & H4 & H5).
  cbn [encode includes]. cbv zeta in H4, H5.
  rewrite H4, H5, IH. reflexivity.
Qed.

#[export] Instance codec_spec : LZStringSpec codec.
Proof.
  split.
  - intros t. cbn. rewrite decode_encode. reflexivity.
  - intros t. cbn [compressToEncodedURIComponent codec compress includes].
    rewrite encode_no_space. reflexivity.
  - reflexivity.
Qed.

End PairCodecFacts.

(** C1, as amended.  Under the contract of the lz-string package,
    decoding the encoding of a buffer gives the buffer back when the
    buffer is not empty; the empty buffer is encoded as the empty string,
    which decodes to [null]. *)
Theorem codec_round_trip (lz : LZString) (spec : LZStringSpec lz) (t : string) :
  decompressMarkdown (compressMarkdown t)
  = if truthy t then Returned (Some t) else Returned None.
Proof.
  destruct (truthy t) eqn:Ht.
  - apply decompress_compress. now apply truthy_true_iff.
  - apply truthy_false_iff in Ht. subst t. reflexivity.
Qed.

Lemma codec_round_trip_witness :
  @decompressMarkdown PairCodec.codec
    (@compressMarkdown PairCodec.codec "# Boo")
  = Returned (Some "# Boo").
Proof.
  exact (codec_round_trip PairCodec.codec PairCodecFacts.codec_spec "# Boo").
Defined.

(** C1 as stated fails on the empty buffer: whatever the package does,
    the encoding of the empty buffer is the empty string and decoding
    that gives [null], not the empty buffer. *)
Lemma codec_round_trip_empty :
  (forall lz : LZString, @compressMarkdown lz "" = "") /\
  (forall lz : LZString,
     @decompressMarkdown lz (@compressMarkdown lz "") = Returned None) /\
  @Returned (option string) None <> Returned (Some "").
Proof. repeat split. discriminate. Qed.

(** ** The viewer *)

Section ViewerFacts.
Context {lz : LZString}.
Import Viewer.

Lemma decodeEffect_loading (c : option string) (v : State) :
  loading (decodeEffect c v) = false.
Proof.
  unfold decodeEffect. destruct c as [encoded|]; [|reflexivity].
  destruct (trim encoded =? ""); reflexivity.
Qed.

Lemma decodeEffect_blank (encoded : string) (v : State) :
  trim encoded = "" ->
  decodeEffect (Some encoded) v = setLoading false (setError MSG_EMPTY v).
Proof. intros H. unfold decodeEffect. rewrite H. reflexivity. Qed.

Lemma decodeEffect_decoded (encoded : string) (v : State) :
  trim encoded <> "" ->
  decodeEffect (Some encoded) v =
  setLoading false
    match decompressMarkdown encoded with
    | Returned (Some decoded) =>
        if truthy decoded then clearError (setContent decoded v)
        else setError MSG_CORRUPT v
    | Returned None => setError MSG_CORRUPT v
    | Thrown => setError MSG_EXCEPTION v
    end.
Proof.
  intros H. unfold decodeEffect.
  destruct (String.eqb_spec (trim encoded) ""); [contradiction|reflexivity].
Qed.

End ViewerFacts.

(** C2, as amended.  A missing [c] gives the absent message; a [c] that
    is empty or all white space gives the empty message; a [c] with
    something else in it gives the corrupt message when decompression
    returns [null] or the empty string, a message of its own when
    decompression throws, and the decoded text, with no error, when
    decompression returns a non-empty text.  The four messages differ,
    a failure leaves the content as it was, and loading ends in each
    case. *)
Theorem decode_outcomes (lz : LZString) :
  (forall v, Viewer.decodeEffect None v
             = Viewer.mkState (Viewer.content v) false (Some Viewer.MSG_ABSENT)) /\
  (forall v encoded, trim encoded = "" ->
     Viewer.decodeEffect (Some encoded) v
     = Viewer.mkState (Viewer.content v) false (Some Viewer.MSG_EMPTY)) /\
  (forall v encoded, trim encoded <> "" ->
     decompressMarkdown encoded = Returned None \/
     decompressMarkdown encoded = Returned (Some "") ->
     Viewer.decodeEffect (Some encoded) v
     = Viewer.mkState (Viewer.content v) false (Some Viewer.MSG_CORRUPT)) /\
  (forall v encoded, trim encoded <> "" ->
     decompressMarkdown encoded = Thrown ->
     Viewer.decodeEffect (Some encoded) v
     = Viewer.mkState (Viewer.content v) false (Some Viewer.MSG_EXCEPTION)) /\
  (forall v encoded decoded, trim encoded <> "" ->
     decompressMarkdown encoded = Returned (Some decoded) -> decoded <> "" ->
     Viewer.decodeEffect (Some encoded) v = Viewer.mkState decoded false None) /\
  NoDup [Viewer.MSG_ABSENT; Viewer.MSG_EMPTY; Viewer.MSG_CORRUPT;
         Viewer.MSG_EXCEPTION].
Proof.
  split; [reflexivity|].
  split; [intros v encoded H; now rewrite decodeEffect_blank|].
  split.
  { intros v encoded H [D|D]; rewrite decodeEffect_decoded, D by assumption;
      reflexivity. }
  split.
  { intros v encoded H D. rewrite decodeEffect_decoded, D by assumption.
    reflexivity. }
  split.
  { intros v encoded decoded H D Hd.
    rewrite decodeEffect_decoded, D by assumption.
    apply truthy_true_iff in Hd. rewrite Hd. reflexivity. }
  repeat constructor; simpl; intros H;
    repeat (destruct H as [H|H]; [discriminate H|]); exact H.
Qed.

Lemma decode_outcomes_witness :
  Viewer.decodeEffect (lz := PairCodec.codec) (Some "QGI") Viewer.initial
  = Viewer.mkState "h" false None.
Proof.
  refine (proj1 (proj2 (proj2 (proj2 (proj2
            (decode_outcomes PairCodec.codec))))) Viewer.initial "QGI" "h" _ _ _).
  - vm_compute. discriminate.
  - reflexivity.
  - discriminate.
Defined.

(** C2 as stated fails on a value of white space alone: it is present
    and not empty, it does not decompress to a text (the reference codec
    answers [null]), and whatever the package does the viewer reports it
    as empty, not as corrupt. *)
Lemma decode_blank_value :
  " " <> "" /\
  decompressMarkdown (lz := PairCodec.codec) " " = Returned None /\
  (forall (lz : LZString) (v : Viewer.State),
     Viewer.error (Viewer.decodeEffect (Some " ") v) = Some Viewer.MSG_EMPTY) /\
  Viewer.MSG_EMPTY <> Viewer.MSG_CORRUPT.
Proof. repeat split; discriminate. Qed.

(** ** The history *)

Module EditorFacts.
Import Editor.
#[local] Open Scope nat_scope.

Lemma pop_nil {A : Type} : pop (@nil A) = None.
Proof. reflexivity. Qed.

Lemma pop_push {A : Type} (l : list A) (x : A) : pop (push l x) = Some (l, x).
Proof.
  unfold pop, push. rewrite rev_app_distr. simpl.
  now rewrite rev_involutive.
Qed.

Lemma pop_none {A : Type} (l : list A) : pop l = None <-> l = [].
Proof.
  split; [|intros ->; reflexivity].
  unfold pop. destruct (List.rev l) as [|x r] eqn:E; [|discriminate].
  intros _. apply (f_equal (@List.rev A)) in E.
  now rewrite rev_involutive in E.
Qed.

Lemma pop_some {A : Type} (l l' : list A) (x : A) :
  pop l = Some (l', x) -> l = push l' x.
Proof.
  unfold pop, push. destruct (List.rev l) as [|y r] eqn:E; [discriminate|].
  intros [= <- <-]. apply (f_equal (@List.rev A)) in E.
  now rewrite rev_involutive in E.
Qed.

Lemma capped_push_keep50 (log : list string) (x : string) :
  capped (push (keep50 log) x) = keep50 (push log x).
Proof.
  unfold capped, keep50, push, shift.
  rewrite !length_app, length_skipn. simpl.
  destruct (Nat.ltb_spec 50 (length log - (length log - 50) + 1)) as [H|H].
  - assert (Hl : 50 <= length log) by lia.
    replace (length log + 1 - 50) with (S (length log - 50)) by lia.
    rewrite skipn_app.
    replace (S (length log - 50) - length log) with 0 by lia.
    change (skipn 0 [x]) with [x].
    destruct (skipn (length log - 50) log) as [|y r] eqn:E.
    + apply (f_equal (@length string)) in E. rewrite length_skipn in E.
      simpl in E. lia.
    + cbn [tl app]. f_equal.
      change (S (length log - 50)) with (1 + (length log - 50)).
      rewrite <- skipn_skipn, E. reflexivity.
  - replace (length log - 50) with 0 by lia.
    replace (length log + 1 - 50) with 0 by lia. reflexivity.
Qed.

Lemma capped_length (l : list string) :
  length l <= 51 -> length (capped l) <= 50.
Proof.
  unfold capped, shift. destruct (Nat.ltb_spec 50 (length l)); [|lia].
  destruct l; simpl in *; lia.
Qed.

Lemma capped_push_pop (l : list string) (x : string) :
  exists l', pop (capped (push l x)) = Some (l', x).
Proof.
  unfold capped, shift, push.
  destruct (Nat.ltb_spec 50 (length (l ++ [x]))) as [H|H].
  - destruct l as [|y r]; [simpl in H; lia|].
    exists r. apply pop_push.
  - exists l. apply pop_push.
Qed.

(** Each of the three functions below branches once; a field it does not
    write is read off both branches. *)
Ltac by_setMarkdown :=
  unfold setMarkdown;
  match goal with
  | |- context [(?v =? ?m)%string] => destruct (v =? m)%string
  end; reflexivity.

Ltac by_pushToHistory :=
  unfold pushToHistory;
  match goal with
  | |- context [(?v =? ?m)%string] => destruct (v =? m)%string
  end; reflexivity.

Ltac by_fireAutoSave :=
  unfold fireAutoSaveTimeout;
  match goal with
  | |- context [autoSaveTimeoutRef ?s] =>
      destruct (autoSaveTimeoutRef s) as [t|];
      [destruct (due t <=? now s)|]
  end; reflexivity.

(** [setMarkdown] writes the buffer and leaves the history alone. *)
Lemma setMarkdown_markdown v s : markdown (setMarkdown v s) = v.
Proof.
  unfold setMarkdown. destruct (String.eqb_spec v (markdown s)); subst;
    reflexivity.
Qed.

Lemma setMarkdown_history v s : historyRef (setMarkdown v s) = historyRef s.
Proof. by_setMarkdown. Qed.

Lemma setMarkdown_lastSaved v s :
  lastSavedMarkdown (setMarkdown v s) = lastSavedMarkdown s.
Proof. by_setMarkdown. Qed.

Lemma setMarkdown_historyTimeout v s :
  historyTimeoutRef (setMarkdown v s) = historyTimeoutRef s.
Proof. by_setMarkdown. Qed.

Lemma setMarkdown_draft v s : draft (setMarkdown v s) = draft s.
Proof. by_setMarkdown. Qed.

Lemma setMarkdown_now v s : now (setMarkdown v s) = now s.
Proof. by_setMarkdown. Qed.

Lemma setMarkdown_autoSave v s :
  v <> markdown s ->
  autoSaveTimeoutRef (setMarkdown v s) = Some (mkTimer (now s + 1000) v).
Proof.
  intros H. unfold setMarkdown.
  destruct (String.eqb_spec v (markdown s)); [contradiction|reflexivity].
Qed.

(** [pushToHistory] reads and writes the history and the checkpoint
    only. *)
Lemma pushToHistory_history v s :
  historyRef (pushToHistory v s) =
  if (v =? lastSavedMarkdown s)%string then historyRef s
  else mkHistory (capped (push (past (historyRef s)) (lastSavedMarkdown s))) [].
Proof. by_pushToHistory. Qed.

Lemma pushToHistory_lastSaved v s : lastSavedMarkdown (pushToHistory v s) = v.
Proof.
  unfold pushToHistory.
  destruct (String.eqb_spec v (lastSavedMarkdown s)); [now subst|reflexivity].
Qed.

Lemma pushToHistory_markdown v s : markdown (pushToHistory v s) = markdown s.
Proof. by_pushToHistory. Qed.

Lemma pushToHistory_historyTimeout v s :
  historyTimeoutRef (pushToHistory v s) = historyTimeoutRef s.
Proof. by_pushToHistory. Qed.

Lemma pushToHistory_draft v s : draft (pushToHistory v s) = draft s.
Proof. by_pushToHistory. Qed.

Lemma pushToHistory_autoSave v s :
  autoSaveTimeoutRef (pushToHistory v s) = autoSaveTimeoutRef s.
Proof. by_pushToHistory. Qed.

Lemma pushToHistory_now v s : now (pushToHistory v s) = now s.
Proof. by_pushToHistory. Qed.

Lemma pushToHistory_same_history v s s' :
  historyRef s' = historyRef s ->
  lastSavedMarkdown s' = lastSavedMarkdown s ->
  historyRef (pushToHistory v s') = historyRef (pushToHistory v s).
Proof. intros H L. rewrite !pushToHistory_history, H, L. reflexivity. Qed.

(** The auto-save timer writes the draft and nothing of the history. *)
Lemma fireAutoSave_history s :
  historyRef (fireAutoSaveTimeout s) = historyRef s.
Proof. by_fireAutoSave. Qed.

Lemma fireAutoSave_lastSaved s :
  lastSavedMarkdown (fireAutoSaveTimeout s) = lastSavedMarkdown s.
Proof. by_fireAutoSave. Qed.

Lemma fireAutoSave_markdown s : markdown (fireAutoSaveTimeout s) = markdown s.
Proof. by_fireAutoSave. Qed.

Lemma fireAutoSave_historyTimeout s :
  historyTimeoutRef (fireAutoSaveTimeout s) = historyTimeoutRef s.
Proof. by_fireAutoSave. Qed.

Lemma fireAutoSave_now s : now (fireAutoSaveTimeout s) = now s.
Proof. by_fireAutoSave. Qed.

Create Rewrite HintDb session.
#[local] Hint Rewrite setMarkdown_markdown setMarkdown_history
  setMarkdown_lastSaved setMarkdown_historyTimeout setMarkdown_draft
  setMarkdown_now pushToHistory_lastSaved pushToHistory_markdown
  pushToHistory_historyTimeout pushToHistory_draft pushToHistory_autoSave
  pushToHistory_now fireAutoSave_history fireAutoSave_lastSaved
  fireAutoSave_markdown fireAutoSave_historyTimeout fireAutoSave_now
  : session.

Ltac session := repeat (autorewrite with session; cbn [
  markdown fileName historyRef lastSavedMarkdown historyTimeoutRef
  autoSaveTimeoutRef draft toasts now with_markdown with_fileName
  with_history with_lastSaved with_historyTimeout with_autoSaveTimeout
  with_draft with_now toast past future due captured]).

Lemma last_default {A : Type} (l : list A) (a d d' : A) :
  List.last (a :: l) d = List.last (a :: l) d'.
Proof.
  revert a. induction l as [|b l IH]; intros a; [reflexivity|].
  change (List.last (b :: l) d = List.last (b :: l) d'). apply IH.
Qed.

(** While the history timer is not due, time passes without a
    checkpoint. *)
Lemma elapse_pending (ms : nat) (s : State) (t : Timer) :
  historyTimeoutRef s = Some t -> now s + ms < due t ->
  historyRef (elapse ms s) = historyRef s /\
  lastSavedMarkdown (elapse ms s) = lastSavedMarkdown s /\
  markdown (elapse ms s) = markdown s.
Proof.
  intros Ht Hd. unfold elapse, fireHistoryTimeout. session. rewrite Ht.
  session. destruct (Nat.leb_spec (due t) (now s + ms)); [lia|].
  session. auto.
Qed.

(** Once it is due, the timer commits the text it closed over. *)
Lemma elapse_due (ms : nat) (s : State) (t : Timer) :
  historyTimeoutRef s = Some t -> due t <= now s + ms ->
  historyRef (elapse ms s) = historyRef (pushToHistory (captured t) s) /\
  lastSavedMarkdown (elapse ms s) = captured t /\
  markdown (elapse ms s) = markdown s /\
  historyTimeoutRef (elapse ms s) = None.
Proof.
  intros Ht Hd. unfold elapse, fireHistoryTimeout. session. rewrite Ht.
  session. destruct (Nat.leb_spec (due t) (now s + ms)); [|lia].
  session. repeat split; try reflexivity.
  apply pushToHistory_same_history; reflexivity.
Qed.

Lemma onMarkdownChange_facts (v : string) (s : State) :
  historyRef (onMarkdownChange v s) = historyRef s /\
  lastSavedMarkdown (onMarkdownChange v s) = lastSavedMarkdown s /\
  markdown (onMarkdownChange v s) = v /\
  historyTimeoutRef (onMarkdownChange v s) = Some (mkTimer (now (onMarkdownChange v s) + 500) v).
Proof. unfold onMarkdownChange. session. auto. Qed.

(** An edit followed by a quiet half second is one commit of the edit. *)
Lemma typed_then_quiet (v : string) (ms : nat) (s : State) :
  500 <= ms ->
  let s' := elapse ms (onMarkdownChange v s) in
  markdown s' = v /\
  historyRef s' = historyRef (pushToHistory v s) /\
  lastSavedMarkdown s' = v /\
  historyTimeoutRef s' = None.
Proof.
  intros Hms s'. destruct (onMarkdownChange_facts v s) as (H & L & M & T).
  destruct (elapse_due ms _ _ T) as (H' & L' & M' & T'); [simpl; lia|].
  subst s'. simpl in *. rewrite M', M, L', T', H'. repeat split.
  apply pushToHistory_same_history; assumption.
Qed.

(** Through a burst, the history stays as it was and the timer waits for
    the last text typed. *)
Lemma burst_rest (rest : list (nat * string)) : forall (v : string) (s0 s : State),
  Forall (fun gv => fst gv < 500) rest ->
  historyRef s = historyRef s0 ->
  lastSavedMarkdown s = lastSavedMarkdown s0 ->
  markdown s = v ->
  historyTimeoutRef s = Some (mkTimer (now s + 500) v) ->
  let s' := run (flat_map (fun gv => [Elapsed (fst gv); Typed (snd gv)]) rest) s in
  historyRef s' = historyRef s0 /\
  lastSavedMarkdown s' = lastSavedMarkdown s0 /\
  markdown s' = List.last (map snd rest) v /\
  historyTimeoutRef s' =
    Some (mkTimer (now s' + 500) (List.last (map snd rest) v)).
Proof.
  induction rest as [|[g w] rest IH]; intros v s0 s Hg H L M T.
  - simpl. auto.
  - apply Forall_cons_iff in Hg as [Hlt Hg']. simpl in Hlt.
    cbn [flat_map app run fold_left step fst snd].
    destruct (elapse_pending g s _ T) as (H1 & L1 & _); [simpl; lia|].
    destruct (onMarkdownChange_facts w (elapse g s)) as (H2 & L2 & M2 & T2).
    specialize (IH w s0 (onMarkdownChange w (elapse g s)) Hg').
    cbv zeta in IH. unfold run in IH.
    destruct IH as (H3 & L3 & M3 & T3); try congruence.
    replace (List.last (map snd ((g, w) :: rest)) v)
      with (List.last (map snd rest) w).
    + auto.
    + cbn [map snd]. destruct (map snd rest) as [|x l]; [reflexivity|].
      change (List.last (w :: x :: l) v) with (List.last (x :: l) v).
      apply last_default.
Qed.

Lemma burst_pending (first : string) (rest : list (nat * string)) (s : State) :
  Forall (fun gv => fst gv < 500) rest ->
  let s' := run (burst first rest) s in
  historyRef s' = historyRef s /\
  lastSavedMarkdown s' = lastSavedMarkdown s /\
  markdown s' = lastTyped first rest /\
  historyTimeoutRef s' = Some (mkTimer (now s' + 500) (lastTyped first rest)).
Proof.
  intros Hg. unfold burst, lastTyped.
  destruct (onMarkdownChange_facts first s) as (H & L & M & T).
  apply (burst_rest rest first s (onMarkdownChange first s)); assumption.
Qed.

Lemma NoDup_chain (vs : list string) : forall prev,
  NoDup (prev :: vs) -> chain prev vs.
Proof.
  induction vs as [|v r IH]; intros prev H; [exact I|].
  inversion H as [|? ? Hin Hr]; subst. split.
  - intros ->. apply Hin. now left.
  - now apply IH.
Qed.

(** Committing a chain of values logs every checkpoint left behind; the
    past stack is the last 50 entries of the log. *)
Lemma commits_past (vs : list string) : forall (s : State) (log : list string),
  past (historyRef s) = keep50 log ->
  chain (lastSavedMarkdown s) vs ->
  past (historyRef (run (commits vs) s))
  = keep50 (log ++ removelast (lastSavedMarkdown s :: vs)) /\
  lastSavedMarkdown (run (commits vs) s) = List.last vs (lastSavedMarkdown s).
Proof.
  induction vs as [|v r IH]; intros s log Hp Hc.
  - cbn. now rewrite app_nil_r.
  - destruct Hc as [Hv Hc].
    cbn [commits flat_map app run fold_left step].
    destruct (typed_then_quiet v 500 s (le_n _)) as (_ & H & L & _).
    cbv zeta in H, L.
    specialize (IH (elapse 500 (onMarkdownChange v s))
                  (push log (lastSavedMarkdown s))).
    unfold run, commits in IH. rewrite L in IH.
    destruct IH as [IH1 IH2]; [|assumption|].
    + rewrite H, pushToHistory_history.
      destruct (String.eqb_spec v (lastSavedMarkdown s)); [contradiction|].
      cbn [past]. rewrite Hp. apply capped_push_keep50.
    + split.
      * rewrite IH1. unfold push. rewrite <- app_assoc. f_equal.
      * rewrite IH2. destruct r as [|x r]; [reflexivity|].
        change (List.last (v :: x :: r) (lastSavedMarkdown s))
          with (List.last (x :: r) (lastSavedMarkdown s)).
        apply last_default.
Qed.

Lemma toast_history t s : historyRef (toast t s) = historyRef s.
Proof. reflexivity. Qed.

Lemma pushToHistory_bounded v s : bounded s -> bounded (pushToHistory v s).
Proof.
  unfold bounded. intros B. rewrite pushToHistory_history.
  destruct (v =? lastSavedMarkdown s)%string; [exact B|].
  cbn [past future length]. rewrite Nat.add_0_r. apply capped_length.
  unfold push. rewrite length_app. simpl. lia.
Qed.

Lemma step_bounded s e : bounded s -> bounded (step s e).
Proof.
  intros B. destruct e as [v|v| | |name result|ms]; cbn [step].
  - unfold bounded. now destruct (onMarkdownChange_facts v s) as (-> & _).
  - apply pushToHistory_bounded. unfold bounded.
    now destruct (onMarkdownChange_facts v s) as (-> & _).
  - unfold handleUndo. destruct (pop (past (historyRef s))) as [[p x]|] eqn:E;
      [|exact B].
    apply pop_some in E. unfold bounded in *. session.
    rewrite E in B. unfold push in *. rewrite length_app in *. simpl in *. lia.
  - unfold handleRedo. destruct (pop (future (historyRef s))) as [[f x]|] eqn:E;
      [|exact B].
    apply pop_some in E. unfold bounded in *. session.
    rewrite E in B. unfold push in *. rewrite length_app in *. simpl in *. lia.
  - unfold processFile.
    destruct (endsWith name ".md" || endsWith name ".txt"); [|exact B].
    destruct result as [text|]; [|exact B].
    unfold bounded. rewrite toast_history. session. simpl. lia.
  - unfold elapse, bounded. rewrite fireAutoSave_history.
    unfold fireHistoryTimeout. cbn [historyTimeoutRef with_now now].
    destruct (historyTimeoutRef s) as [t|]; [|exact B].
    destruct (due t <=? now s + ms); [|exact B].
    apply pushToHistory_bounded. exact B.
Qed.

Lemma reachable_bounded D saved s : reachable D saved s -> bounded s.
Proof.
  induction 1 as [|s e _ IH].
  - unfold bounded. simpl. lia.
  - now apply step_bounded.
Qed.

(** C3, as amended.  Through a burst of edits, each less than 500 ms
    after the one before, no checkpoint is recorded; once 500 ms have
    passed without an edit the timer has fired once, on the last text
    typed: the history is the one a single [pushToHistory] of that text
    gives.  That is one checkpoint (the text committed before the burst)
    when the last text typed differs from the last committed one, and
    none when it equals it. *)
Theorem debounce_coalesces (s : State) (first : string)
  (rest : list (nat * string)) (quiet : nat) :
  Forall (fun gv => fst gv < 500) rest -> 500 <= quiet ->
  let v := lastTyped first rest in
  let s1 := run (burst first rest) s in
  let s2 := elapse quiet s1 in
  (historyRef s1 = historyRef s /\
   lastSavedMarkdown s1 = lastSavedMarkdown s) /\
  (markdown s2 = v /\ lastSavedMarkdown s2 = v /\
   historyTimeoutRef s2 = None /\
   historyRef s2 = historyRef (pushToHistory v s)) /\
  (v <> lastSavedMarkdown s ->
   historyRef s2
   = mkHistory (capped (push (past (historyRef s)) (lastSavedMarkdown s))) []) /\
  (v <> lastSavedMarkdown s -> length (past (historyRef s)) < 50 ->
   length (past (historyRef s2)) = S (length (past (historyRef s)))) /\
  (v = lastSavedMarkdown s -> historyRef s2 = historyRef s).
Proof.
  intros Hg Hq v s1 s2.
  destruct (burst_pending first rest s Hg) as (H & L & M & T).
  fold s1 v in H, L, M, T.
  destruct (elapse_due quiet s1 _ T) as (H' & L' & M' & T'); [simpl; lia|].
  fold s2 in H', L', M', T'. cbn [captured] in H', L'.
  assert (E : historyRef s2 = historyRef (pushToHistory v s)).
  { rewrite H'. apply pushToHistory_same_history; assumption. }
  split; [auto|]. split; [rewrite M', M; auto|].
  rewrite E, pushToHistory_history.
  destruct (String.eqb_spec v (lastSavedMarkdown s)) as [Heq|Hne].
  - split; [intros C; contradiction|].
    split; [intros C; contradiction|reflexivity].
  - split; [reflexivity|].
    split; [|intros C; contradiction].
    intros _ Hlen. cbn [past]. unfold capped, push.
    destruct (Nat.ltb_spec 50 (length (past (historyRef s) ++ [lastSavedMarkdown s])))
      as [C|C]; rewrite length_app in C; cbn [length] in C; [lia|].
    rewrite length_app. cbn [length]. lia.
Qed.

Lemma debounce_coalesces_witness :
  historyRef
    (elapse 500 (run (burst "g" [(120, "gh"); (90, "gho")]) (initial "" None)))
  = mkHistory [""] [].
Proof.
  refine (proj1 (proj2 (proj2
    (debounce_coalesces (initial "" None) "g" [(120, "gh"); (90, "gho")] 500
       _ _))) _).
  - repeat constructor; simpl; lia.
  - lia.
  - discriminate.
Defined.

(** C3 as stated fails when the burst ends on the text of the last
    checkpoint: two edits 100 ms apart, the second undoing the first,
    and after the pause the past stack is as empty as before. *)
Lemma debounce_without_checkpoint :
  past (historyRef (initial "a" None)) = [] /\
  past (historyRef
          (elapse 500 (run (burst "ab" [(100, "a")]) (initial "a" None)))) = [] /\
  historyTimeoutRef
    (elapse 500 (run (burst "ab" [(100, "a")]) (initial "a" None))) = None.
Proof. repeat split. Qed.

(** C4.  For distinct texts [a] and [b]: edit to [a], let the debounce
    commit, edit to [b], let it commit, undo; the buffer is [a], and a
    redo makes it [b] again.  An undo with an empty past stack and a redo
    with an empty future stack change nothing. *)
Theorem undo_redo_inverse (s : State) (a b : string) (d1 d2 : nat) :
  a <> b -> 500 <= d1 -> 500 <= d2 ->
  let s1 := run [Typed a; Elapsed d1; Typed b; Elapsed d2; UndoKey] s in
  markdown s1 = a /\
  markdown (step s1 RedoKey) = b /\
  (forall s0, past (historyRef s0) = [] -> handleUndo s0 = s0) /\
  (forall s0, future (historyRef s0) = [] -> handleRedo s0 = s0).
Proof.
  intros Hab H1 H2 s1. subst s1. cbn [run fold_left step].
  destruct (typed_then_quiet a d1 s H1) as (_ & _ & La & _).
  set (sa := elapse d1 (onMarkdownChange a s)) in *. cbv zeta in La.
  destruct (typed_then_quiet b d2 sa H2) as (Mb & Hb & Lb & _).
  set (sb := elapse d2 (onMarkdownChange b sa)) in *. cbv zeta in Mb, Hb, Lb.
  rewrite pushToHistory_history, La in Hb.
  destruct (String.eqb_spec b a) as [E|_]; [now symmetry in E|].
  destruct (capped_push_pop (past (historyRef sa)) a) as [p Hp].
  assert (U : handleUndo sb
              = setMarkdown a (with_lastSaved a
                  (with_history (mkHistory p (push [] b)) sb))).
  { unfold handleUndo. rewrite Hb. cbn [past future]. rewrite Hp, Mb.
    reflexivity. }
  split; [rewrite U; apply setMarkdown_markdown|].
  split.
  - rewrite U. unfold handleRedo. session.
    change (push [] b) with [b]. cbn [pop List.rev app]. session.
    reflexivity.
  - split; intros s0 H0.
    + unfold handleUndo. rewrite H0. reflexivity.
    + unfold handleRedo. rewrite H0. reflexivity.
Qed.

Lemma undo_redo_inverse_witness :
  markdown (run [Typed "boo"; Elapsed 500; Typed "boo!"; Elapsed 700; UndoKey]
              (initial "# ghost" None)) = "boo".
Proof.
  refine (proj1 (undo_redo_inverse (initial "# ghost" None) "boo" "boo!"
                   500 700 _ _ _)).
  - discriminate.
  - lia.
  - lia.
Defined.

Lemma removelast_length {A : Type} (l : list A) :
  length (removelast l) = pred (length l).
Proof.
  rewrite removelast_firstn_len, length_firstn. lia.
Qed.

(** C5.  In every state a session can reach the past stack holds at most
    50 snapshots, and so it does after any commit made there.  Eviction
    takes the oldest first: after committing distinct values in sequence
    from the start, the past stack is the last 50 of the checkpoints left
    behind, in the order they were made; with 60 values it holds exactly
    50, the ten oldest gone.  ([pushToHistory] is a total function: a
    commit has no failure to report.) *)
Theorem history_cap (DEFAULT_MARKDOWN : string) (saved : option string) :
  let s0 := initial DEFAULT_MARKDOWN saved in
  (forall s, reachable DEFAULT_MARKDOWN saved s ->
     length (past (historyRef s)) <= 50 /\
     forall v, length (past (historyRef (pushToHistory v s))) <= 50) /\
  (forall vs, NoDup (markdown s0 :: vs) ->
     past (historyRef (run (commits vs) s0))
     = keep50 (removelast (markdown s0 :: vs))) /\
  (forall vs, length vs = 60 -> NoDup (markdown s0 :: vs) ->
     past (historyRef (run (commits vs) s0))
     = skipn 10 (markdown s0 :: removelast vs) /\
     length (past (historyRef (run (commits vs) s0))) = 50).
Proof.
  intros s0.
  assert (G : forall vs, NoDup (markdown s0 :: vs) ->
            past (historyRef (run (commits vs) s0))
            = keep50 (removelast (markdown s0 :: vs))).
  { intros vs Hnd. destruct (commits_past vs s0 []) as [Hp _].
    - reflexivity.
    - apply NoDup_chain. exact Hnd.
    - exact Hp. }
  split; [|split; [exact G|]].
  - intros s R. apply reachable_bounded in R. split.
    + unfold bounded in R. lia.
    + intros v. pose proof (pushToHistory_bounded v s R) as B.
      unfold bounded in B. lia.
  - intros vs Hlen Hnd. pose proof (G vs Hnd) as Hp.
    assert (E : removelast (markdown s0 :: vs) = markdown s0 :: removelast vs).
    { destruct vs; [discriminate Hlen|reflexivity]. }
    rewrite E in Hp. unfold keep50 in Hp.
    assert (L : length (markdown s0 :: removelast vs) = 60).
    { cbn [length]. rewrite removelast_length, Hlen. reflexivity. }
    rewrite L in Hp. change (60 - 50) with 10 in Hp.
    split; [exact Hp|]. rewrite Hp, length_skipn, L. reflexivity.
Qed.

Lemma sixty_distinct : NoDup ("# ghost" :: sixty).
Proof.
  repeat constructor; cbn; intros H;
    repeat (destruct H as [H|H]; [discriminate H|]); exact H.
Qed.

Lemma history_cap_witness :
  length (past (historyRef (run (commits sixty) (initial "# ghost" None)))) = 50.
Proof.
  exact (proj2 (proj2 (proj2 (history_cap "# ghost" None)) sixty eq_refl
                  sixty_distinct)).
Defined.

(** ** Import *)




End EditorFacts.

(** ** Sharing *)

Module ShareFacts.
Import Share.
#[local] Open Scope nat_scope.

Lemma handleShare_direct {lz : LZString} origin service markdown m :
  String.length (generatedUrl origin markdown) <= MAX_SHAREABLE_URL_LENGTH ->
  handleShare origin service markdown m
  = mkModal (generatedUrl origin markdown) false (isShortening m) true
      (Some (Editor.ToastSuccess "Sharable link generated!")).
Proof.
  intros H. unfold handleShare.
  destruct (Nat.ltb_spec MAX_SHAREABLE_URL_LENGTH
              (String.length (generatedUrl origin markdown))); [lia|reflexivity].
Qed.

Lemma handleShare_long {lz : LZString} origin service markdown m :
  MAX_SHAREABLE_URL_LENGTH < String.length (generatedUrl origin markdown) ->
  handleShare origin service markdown m
  = match shortenUrl service (generatedUrl origin markdown) with
    | Returned shortUrl =>
        mkModal shortUrl false false true
          (Some (Editor.ToastSuccess "Short link generated!"))
    | Thrown =>
        mkModal (generatedUrl origin markdown) true false true
          (Some (Editor.ToastError "Document too large for URL sharing"))
    end.
Proof.
  intros H. unfold handleShare.
  destruct (Nat.ltb_spec MAX_SHAREABLE_URL_LENGTH
              (String.length (generatedUrl origin markdown))); [reflexivity|lia].
Qed.

(** No state is two of the three results at once. *)
Lemma results_exclusive (m : Modal) (u1 u2 u3 : string) :
  ~ (Direct u1 m /\ Shortened u2 m) /\
  ~ (Direct u1 m /\ TooLarge u3 m) /\
  ~ (Shortened u2 m /\ TooLarge u3 m).
Proof.
  unfold Direct, Shortened, TooLarge.
  repeat split; intros [(_ & T1 & S1) (_ & T2 & S2)]; congruence.
Qed.

(** C7, as amended.  A generated reference of at most 2000 characters is
    the Direct result, whole; a longer one is the Shortened result, with
    whatever URL the shortening call returned, when that call succeeds,
    and the TooLarge result, carrying the whole generated reference, when
    the call fails.  The modal is open in each case and no state is two
    results at once. *)
Theorem share_escalation (lz : LZString) (origin : string)
  (service : string -> Reply) (markdown : string) (m : Modal) :
  let url := origin ++ "/#/view?c=" ++ compressMarkdown markdown in
  let m' := handleShare origin service markdown m in
  (String.length url <= 2000 -> Direct url m') /\
  (2000 < String.length url -> forall shortUrl,
     shortenUrl service url = Returned shortUrl -> Shortened shortUrl m') /\
  (2000 < String.length url ->
     shortenUrl service url = Thrown -> TooLarge url m') /\
  isShareModalOpen m' = true /\
  (forall u1 u2 u3,
     ~ (Direct u1 m' /\ Shortened u2 m') /\
     ~ (Direct u1 m' /\ TooLarge u3 m') /\
     ~ (Shortened u2 m' /\ TooLarge u3 m')).
Proof.
  intros url m'. fold (generatedUrl origin markdown) in url.
  split; [|split; [|split; [|split]]].
  - intros H. subst m'. rewrite handleShare_direct by exact H.
    repeat split.
  - intros H shortUrl S. subst m'. rewrite handleShare_long by exact H.
    fold url. rewrite S. repeat split.
  - intros H S. subst m'. rewrite handleShare_long by exact H.
    fold url. rewrite S. repeat split.
  - subst m'. unfold handleShare.
    destruct (MAX_SHAREABLE_URL_LENGTH <? _); [|reflexivity].
    destruct (shortenUrl _ _); reflexivity.
  - intros u1 u2 u3. apply results_exclusive.
Qed.

Lemma share_escalation_witness :
  TooLarge
    ("https://ghost.md" ++ "/#/view?c=" ++
       compressMarkdown (lz := PairCodec.codec) (noise 2000 1))
    (handleShare (lz := PairCodec.codec) "https://ghost.md" down
       (noise 2000 1) closed).
Proof.
  refine (proj1 (proj2 (proj2
    (share_escalation PairCodec.codec "https://ghost.md" down (noise 2000 1)
       closed))) _ _).
  - vm_compute. lia.
  - reflexivity.
Defined.

(** C7 as stated fails when the shortening call succeeds with a result
    that is itself over the threshold: the state is the Shortened one,
    with the over-long URL, not TooLarge.  The buffer is 2000 characters
    of [noise], which no dictionary compression brings near the
    threshold, so that the generated reference is over it whatever the
    codec does with repetition. *)
Lemma share_overlong_short_url :
  String.length (noise 2000 1) = 2000 /\
  2000 < String.length
           (generatedUrl (lz := PairCodec.codec) "https://ghost.md" (noise 2000 1)) /\
  shortenUrl verbose
    (generatedUrl (lz := PairCodec.codec) "https://ghost.md" (noise 2000 1))
  = Returned (filler 2001) /\
  2000 < String.length (filler 2001) /\
  Shortened (filler 2001)
    (handleShare (lz := PairCodec.codec) "https://ghost.md" verbose
       (noise 2000 1) closed) /\
  isUrlTooLarge
    (handleShare (lz := PairCodec.codec) "https://ghost.md" verbose
       (noise 2000 1) closed) = false.
Proof.
  split; [vm_compute; reflexivity|].
  split; [vm_compute; lia|]. split; [reflexivity|].
  split; [vm_compute; lia|]. split; [|vm_compute; reflexivity].
  repeat split; vm_compute; reflexivity.
Qed.

End ShareFacts.

(** ** Search *)

Module SearchFacts.
Import Search Matches.
#[local] Open Scope nat_scope.

Lemma substring_length (s : string) : forall n m,
  n + m <= String.length s -> String.length (substring n m s) = m.
Proof.
  induction s as [|c r IH]; intros n m H; simpl in H.
  - assert (n = 0) by lia. assert (m = 0) by lia. subst. reflexivity.
  - destruct n as [|n]; destruct m as [|m]; simpl.
    + reflexivity.
    + f_equal. apply IH. simpl. lia.
    + apply IH. lia.
    + apply IH. lia.
Qed.

Section Loop.
Context {M : Matcher}.

Lemma scan_found p text : forall n i j e,
  scan p text n i = Some (j, e) ->
  i <= j <= i + n /\ matchAt p text j = Some e.
Proof.
  induction n as [|n IH]; intros i j e H; simpl in H;
    destruct (matchAt p text i) as [e'|] eqn:E.
  - injection H as <- <-. split; [lia|exact E].
  - discriminate.
  - injection H as <- <-. split; [lia|exact E].
  - apply IH in H as [H1 H2]. split; [lia|exact H2].
Qed.

(** The accumulator only grows at its end. *)
Lemma searchLoop_acc text : forall fuel regex acc,
  searchLoop fuel regex text acc
  = option_map (app acc) (searchLoop fuel regex text []).
Proof.
  induction fuel as [|fuel IH]; intros regex acc; [reflexivity|].
  cbn [searchLoop]. destruct (exec regex text) as [[m|] regex1].
  - rewrite IH. rewrite (IH _ (Editor.push [] _)).
    unfold Editor.push.
    destruct (searchLoop fuel (advance m regex1) text []); simpl;
      [now rewrite <- app_assoc|reflexivity].
  - simpl. now rewrite app_nil_r.
Qed.

Lemma searchLoop_step text fuel regex :
  searchLoop (S fuel) regex text []
  = match exec regex text with
    | (None, _) => Some []
    | (Some m, regex1) =>
        option_map
          (cons (mkSpan (index m) (index m + String.length (matched m))))
          (searchLoop fuel (advance m regex1) text [])
    end.
Proof.
  cbn [searchLoop]. destruct (exec regex text) as [[m|] regex1];
    [|reflexivity].
  now rewrite searchLoop_acc.
Qed.

(** A finished loop gives the same result with more iterations allowed. *)
Lemma searchLoop_more text : forall fuel fuel' regex acc res,
  searchLoop fuel regex text acc = Some res -> fuel <= fuel' ->
  searchLoop fuel' regex text acc = Some res.
Proof.
  induction fuel as [|fuel IH]; intros fuel' regex acc res H Hle;
    [discriminate|].
  destruct fuel' as [|fuel']; [lia|]. cbn [searchLoop] in *.
  destruct (exec regex text) as [[m|] regex1]; [|exact H].
  apply IH with (fuel' := fuel') in H; [exact H|lia].
Qed.

Lemma performSearch_more text term matchCase fuel fuel' res :
  performSearch fuel text term matchCase = Some res -> fuel <= fuel' ->
  performSearch fuel' text term matchCase = Some res.
Proof.
  unfold performSearch. destruct (negb (truthy term)); [auto|].
  destruct (compile term (negb matchCase)); [|auto].
  apply searchLoop_more.
Qed.

Lemma performSearch_empty fuel text matchCase :
  performSearch fuel text "" matchCase = Some [].
Proof. reflexivity. Qed.

Lemma performSearch_malformed fuel text term matchCase :
  compile term (negb matchCase) = None ->
  performSearch fuel text term matchCase = Some [].
Proof.
  intros H. unfold performSearch. rewrite H.
  destruct (negb (truthy term)); reflexivity.
Qed.

Context {spec : MatcherSpec M}.

(** What [exec] returns on a match. *)
Lemma exec_match regex text m regex1 :
  exec regex text = (Some m, regex1) ->
  lastIndex regex <= index m /\
  index m + String.length (matched m) <= String.length text /\
  lastIndex regex1 = index m + String.length (matched m) /\
  matcher regex1 = matcher regex.
Proof.
  unfold exec.
  destruct (Nat.ltb_spec (String.length text) (lastIndex regex)) as [H|H];
    [discriminate|].
  destruct (scan _ _ _ _) as [[i e]|] eqn:S; [|discriminate].
  intros [= <- <-]. apply scan_found in S as [Hi Hm].
  apply matchAt_bounds in Hm as [H1 H2]; [|lia].
  cbn [index matched lastIndex matcher].
  rewrite substring_length by lia. repeat split; lia.
Qed.

Lemma exec_beyond regex text :
  String.length text < lastIndex regex -> fst (exec regex text) = None.
Proof.
  intros H. unfold exec.
  destruct (Nat.ltb_spec (String.length text) (lastIndex regex)); [reflexivity|lia].
Qed.

(** Each match moves [lastIndex] forward; one that consumed nothing
    moves it to the index after the match. *)
Lemma advance_progress regex text m regex1 :
  exec regex text = (Some m, regex1) ->
  lastIndex regex < lastIndex (advance m regex1) /\
  index m < lastIndex (advance m regex1) /\
  index m + String.length (matched m) <= lastIndex (advance m regex1) /\
  (String.length (matched m) = 0 ->
   lastIndex (advance m regex1) = S (index m)).
Proof.
  intros E. apply exec_match in E as (H1 & H2 & H3 & _). unfold advance.
  destruct (Nat.eqb_spec (index m) (lastIndex regex1)) as [Q|Q];
    cbn [lastIndex]; repeat split; lia.
Qed.

Lemma searchLoop_terminates text : forall fuel regex acc,
  1 <= fuel -> String.length text + 2 <= fuel + lastIndex regex ->
  exists res, searchLoop fuel regex text acc = Some res.
Proof.
  induction fuel as [|fuel IH]; intros regex acc H1 H2; [lia|].
  cbn [searchLoop]. destruct (exec regex text) as [[m|] regex1] eqn:E.
  - pose proof (exec_match _ _ _ _ E) as (A & B & _).
    pose proof (advance_progress _ _ _ _ E) as (P & _).
    apply IH; lia.
  - eexists. reflexivity.
Qed.

(** The spans found lie in the text, from [lastIndex] on, in ascending
    order. *)
Lemma searchLoop_ascending text : forall fuel regex res,
  searchLoop fuel regex text [] = Some res ->
  ascending res /\
  Forall (fun sp => lastIndex regex <= start sp /\ start sp <= stop sp
                    /\ stop sp <= String.length text) res.
Proof.
  induction fuel as [|fuel IH]; intros regex res H; [discriminate|].
  rewrite searchLoop_step in H.
  destruct (exec regex text) as [[m|] regex1] eqn:E.
  - destruct (searchLoop fuel (advance m regex1) text []) as [rest|] eqn:R;
      [|discriminate].
    injection H as <-. apply IH in R as [A F].
    pose proof (exec_match _ _ _ _ E) as (H1 & H2 & _).
    pose proof (advance_progress _ _ _ _ E) as (P1 & P2 & P3 & _).
    split.
    + cbn [ascending]. split; [|exact A].
      destruct rest as [|b rest]; [exact I|].
      apply Forall_inv in F. cbn [start stop]. lia.
    + constructor; [cbn [start stop]; lia|].
      eapply Forall_impl; [|exact F]. cbn beta. intros sp Hsp. lia.
  - injection H as <-. split; [exact I|constructor].
Qed.

Lemma scan_first p text : forall n i j e,
  scan p text n i = Some (j, e) ->
  forall k, i <= k -> k < j -> matchAt p text k = None.
Proof.
  induction n as [|n IH]; intros i j e H k H1 H2; cbn [scan] in H;
    destruct (matchAt p text i) as [e'|] eqn:E.
  - injection H as <- <-. lia.
  - discriminate.
  - injection H as <- <-. lia.
  - destruct (Nat.eq_dec k i) as [->|N]; [exact E|].
    apply (IH _ _ _ H); lia.
Qed.

Lemma scan_none p text : forall n i,
  scan p text n i = None ->
  forall k, i <= k -> k <= i + n -> matchAt p text k = None.
Proof.
  induction n as [|n IH]; intros i H k H1 H2; cbn [scan] in H;
    destruct (matchAt p text i) as [e'|] eqn:E; try discriminate.
  - assert (k = i) by lia. now subst k.
  - destruct (Nat.eq_dec k i) as [->|N]; [exact E|].
    apply (IH _ H); lia.
Qed.

(** A loop that has ended has returned the successive matches. *)
Lemma searchLoop_found text : forall fuel regex res,
  searchLoop fuel regex text [] = Some res ->
  found (matcher regex) text (lastIndex regex) res.
Proof.
  induction fuel as [|fuel IH]; intros regex res H; [discriminate|].
  rewrite searchLoop_step in H. unfold exec in H.
  destruct (Nat.ltb_spec (String.length text) (lastIndex regex)) as [L|L].
  - injection H as <-. apply found_end. intros j H1 H2. lia.
  - destruct (scan (matcher regex) text
                (String.length text - lastIndex regex) (lastIndex regex))
      as [[j e]|] eqn:S.
    + destruct (searchLoop fuel _ text []) as [rest|] eqn:R; [|discriminate].
      injection H as <-. cbn [index matched] in *.
      pose proof (scan_first _ _ _ _ _ _ S) as F.
      apply scan_found in S as [Hj Hm].
      pose proof Hm as Hb. apply matchAt_bounds in Hb as [B1 B2]; [|lia].
      rewrite substring_length by lia.
      replace (j + (e - j)) with e by lia.
      apply found_match; [lia|lia|exact F|exact Hm|].
      apply IH in R. unfold advance in R.
      cbn [index lastIndex matcher] in R.
      rewrite (Nat.eqb_sym e j).
      destruct (j =? e); exact R.
    + injection H as <-. apply found_end. intros k H1 H2.
      apply (scan_none _ _ _ _ S); lia.
Qed.

(** The successive matches are one list. *)
Lemma found_unique p text : forall i r1 r2,
  found p text i r1 -> found p text i r2 -> r1 = r2.
Proof.
  intros i r1 r2 H. revert r2.
  induction H as [i N|i j e rest H1 H2 F Hm _ IH]; intros r2 H'.
  - inversion H' as [|i' j' e' rest' A B C D E]; subst; [reflexivity|].
    rewrite N in D by lia. discriminate.
  - inversion H' as [i' N'|i' j' e' rest' A B C D E]; subst.
    + rewrite N' in Hm by lia. discriminate.
    + assert (j' = j).
      { destruct (Nat.lt_trichotomy j j') as [T|[T|T]]; [|auto|].
        - rewrite C in Hm by lia. discriminate.
        - rewrite F in D by lia. discriminate. }
      subst j'. rewrite Hm in D. injection D as <-.
      f_equal. now apply IH.
Qed.

End Loop.

(** The reference matcher meets the contract. *)
Module BacktrackFacts.
Import Backtrack.

Lemma list_ascii_length (s : string) :
  List.length (list_ascii_of_string s) = String.length s.
Proof. induction s as [|c r IH]; simpl; congruence. Qed.

(** A successful run ends in its continuation, called on a suffix no
    longer than the input. *)
Lemma run_suffix (ignoreCase : bool) (r : Regex) :
  forall (s : list ascii) (k : list ascii -> option nat) (e : nat),
  run ignoreCase r s k = Some e ->
  exists rest, k rest = Some e /\ List.length rest <= List.length s.
Proof.
  induction r as [|c| |a IHa b IHb|a IHa b IHb|a IHa|a IHa]; intros s k e H;
    cbn [run] in H.
  - exists s. split; [exact H|lia].
  - destruct s as [|d s']; [discriminate|].
    destruct (sameChar ignoreCase c d); [|discriminate].
    exists s'. split; [exact H|simpl; lia].
  - destruct s as [|d s']; [discriminate|].
    destruct (isLineTerminator d); [discriminate|].
    exists s'. split; [exact H|simpl; lia].
  - apply IHa in H as (mid & H & L1). apply IHb in H as (rest & H & L2).
    exists rest. split; [exact H|lia].
  - destruct (run ignoreCase a s k) as [e'|] eqn:E.
    + injection H as ->. now apply IHa in E.
    + now apply IHb in H.
  - revert H. generalize (List.length s) at 1. intros n. revert s.
    induction n as [|n IHn]; intros s H.
    + exists s. split; [exact H|lia].
    + match type of H with
      | match ?X with _ => _ end = _ => destruct X as [e'|] eqn:E
      end.
      * injection H as ->. apply IHa in E as (mid & E & L1).
        destruct (Nat.ltb_spec (List.length mid) (List.length s));
          [|discriminate].
        apply IHn in E as (rest & E & L2). exists rest. split; [exact E|lia].
      * exists s. split; [exact H|lia].
  - match type of H with
    | match ?X with _ => _ end = _ => destruct X as [e'|] eqn:E
    end.
    + injection H as ->. apply IHa in E as (mid & E & L1).
      destruct (Nat.ltb_spec (List.length mid) (List.length s));
        [|discriminate].
      exists mid. split; [exact E|lia].
    + exists s. split; [exact H|lia].
Qed.

#[export] Instance engine_spec : MatcherSpec engine.
Proof.
  split. intros p text i e Hi H. cbn in H. unfold Backtrack.matchAt in H.
  rewrite list_ascii_length in H.
  destruct (Nat.leb_spec i (String.length text)); [|discriminate].
  apply run_suffix in H as (rest & [= <-] & L).
  rewrite length_skipn, list_ascii_length in L. lia.
Qed.

End BacktrackFacts.

(** C8.  For every matcher whose matches lie within the text, every
    text, every query and either case setting, the search returns: there
    is one list of spans that every run allowed [enough text] iterations
    returns.  It is empty for the empty query and for a pattern the
    constructor refuses (no error comes out); for a pattern that
    compiles it holds the successive matches of the pattern and nothing
    else: each span is a match, found at the first index from where the
    one before ended (one index further after an empty match), and no
    match is left after the last.  So the spans are in ascending order
    of start, within the text, none overlapping the next.  On the text
    "ghost ghost boo", for a matcher that takes the pattern "ghost"
    under the [i] flag for these five letters up to case, the spans are
    0-5 and 6-11; for one that takes "GHOST" without the flag for these
    five capitals, there is none. *)
Theorem search_results (M : Matcher) (spec : MatcherSpec M) :
  (forall text term matchCase, exists res,
     (forall fuel, enough text <= fuel ->
        performSearch fuel text term matchCase = Some res) /\
     ascending res /\
     Forall (fun sp => start sp <= stop sp /\ stop sp <= String.length text)
       res /\
     (term = "" -> res = []) /\
     (compile term (negb matchCase) = None -> res = []) /\
     (forall p, term <> "" -> compile term (negb matchCase) = Some p ->
        found p text 0 res)) /\
  (forall p, compile "ghost" true = Some p ->
     (forall j, j <= 15 ->
        matchAt p "ghost ghost boo" j
        = literalAt true "ghost" "ghost ghost boo" j) ->
     forall fuel, enough "ghost ghost boo" <= fuel ->
     performSearch fuel "ghost ghost boo" "ghost" false
     = Some [mkSpan 0 5; mkSpan 6 11]) /\
  (forall p, compile "GHOST" false = Some p ->
     (forall j, j <= 15 ->
        matchAt p "ghost ghost boo" j
        = literalAt false "GHOST" "ghost ghost boo" j) ->
     forall fuel, enough "ghost ghost boo" <= fuel ->
     performSearch fuel "ghost ghost boo" "GHOST" true = Some []).
Proof.
  assert (G : forall text term matchCase, exists res,
     (forall fuel, enough text <= fuel ->
        performSearch fuel text term matchCase = Some res) /\
     ascending res /\
     Forall (fun sp => start sp <= stop sp /\ stop sp <= String.length text)
       res /\
     (term = "" -> res = []) /\
     (compile term (negb matchCase) = None -> res = []) /\
     (forall p, term <> "" -> compile term (negb matchCase) = Some p ->
        found p text 0 res)).
  { intros text term matchCase. unfold performSearch.
    destruct (truthy term) eqn:T; cbn [negb].
    - apply truthy_true_iff in T.
      destruct (compile term (negb matchCase)) as [p|] eqn:C.
      + destruct (searchLoop_terminates text (enough text) (mkRegExp p 0) [])
          as [res H]; [unfold enough; lia|unfold enough; cbn [lastIndex]; lia|].
        exists res. split; [|split; [|split; [|split; [|split]]]].
        * intros fuel Hf.
          now apply searchLoop_more with (fuel := enough text).
        * now apply searchLoop_ascending in H.
        * apply searchLoop_ascending in H as [_ F].
          eapply Forall_impl; [|exact F]. cbn beta. intros sp Hsp. lia.
        * intros E. contradiction.
        * discriminate.
        * intros q _ [= <-]. exact (searchLoop_found _ _ _ _ H).
      + exists []. split; [reflexivity|]. split; [exact I|].
        split; [constructor|]. split; [reflexivity|].
        split; [reflexivity|]. intros q _ Q. discriminate Q.
    - apply truthy_false_iff in T. exists [].
      split; [reflexivity|]. split; [exact I|]. split; [constructor|].
      split; [reflexivity|]. split; [reflexivity|].
      intros q N. contradiction. }
  split; [exact G|]. split.
  - intros p C Hm fuel Hf.
    destruct (G "ghost ghost boo" "ghost" false)
      as (res & R & _ & _ & _ & _ & F).
    rewrite (R fuel Hf). f_equal.
    apply (found_unique p "ghost ghost boo" 0);
      [apply F; [discriminate|exact C]|].
    apply (found_match _ _ 0 0 5); [lia|cbn; lia|intros; lia| |].
    { rewrite Hm by lia. reflexivity. }
    cbn [Nat.eqb].
    apply (found_match _ _ 5 6 11); [lia|cbn; lia| | |].
    { intros k K1 K2. assert (k = 5) by lia. subst k.
      rewrite Hm by lia. reflexivity. }
    { rewrite Hm by lia. reflexivity. }
    cbn [Nat.eqb].
    apply found_end. intros j J1 J2. cbn in J2.
    rewrite Hm by exact J2. do 16 (destruct j as [|j]; [try lia; try reflexivity|]). lia.
  - intros p C Hm fuel Hf.
    destruct (G "ghost ghost boo" "GHOST" true)
      as (res & R & _ & _ & _ & _ & F).
    rewrite (R fuel Hf). f_equal.
    apply (found_unique p "ghost ghost boo" 0);
      [apply F; [discriminate|exact C]|].
    apply found_end. intros j J1 J2. cbn in J2.
    rewrite Hm by exact J2. do 16 (destruct j as [|j]; [try lia; try reflexivity|]). lia.
Qed.

Lemma search_results_witness :
  performSearch (M := Backtrack.engine) 17 "ghost ghost boo" "ghost" false
  = Some [mkSpan 0 5; mkSpan 6 11].
Proof.
  refine (proj1 (proj2 (search_results Backtrack.engine
                          BacktrackFacts.engine_spec)) _ eq_refl _ 17 _).
  - intros j Hj. do 16 (destruct j as [|j]; [try lia; try reflexivity|]). lia.
  - cbn. lia.
Defined.

(** C10.  With a matcher whose matches lie between the index they were
    tried at and the end of the text, [performSearch] leaves its loop on
    every text and every query, patterns that match the empty string
    included: there is one finite list of spans that every run allowed
    [enough text] iterations or more returns.  The loop moves on at each
    match: [lastIndex] grows strictly, and after a match that consumed
    nothing it is one past the index of the match. *)
Theorem performSearch_terminates (M : Matcher) (spec : MatcherSpec M)
  (text term : string) (matchCase : bool) :
  (exists res, forall fuel, enough text <= fuel ->
     performSearch fuel text term matchCase = Some res) /\
  (forall regex m regex1, exec regex text = (Some m, regex1) ->
     lastIndex regex < lastIndex (advance m regex1) /\
     (String.length (matched m) = 0 ->
      lastIndex (advance m regex1) = S (index m))).
Proof.
  split.
  - unfold performSearch. destruct (negb (truthy term));
      [exists []; reflexivity|].
    destruct (compile term (negb matchCase)) as [p|];
      [|exists []; reflexivity].
    destruct (searchLoop_terminates text (enough text) (mkRegExp p 0) [])
      as [res H]; [unfold enough; lia|unfold enough; cbn [lastIndex]; lia|].
    exists res. intros fuel Hf. now apply searchLoop_more with (fuel := enough text).
  - intros regex m regex1 E.
    pose proof (advance_progress _ _ _ _ E) as (P1 & _ & _ & P4). auto.
Qed.

Lemma performSearch_terminates_witness :
  exists res, forall fuel, enough "baaac" <= fuel ->
    performSearch (M := Backtrack.engine) fuel "baaac" "a*" true = Some res.
Proof.
  exact (proj1 (performSearch_terminates Backtrack.engine
                  BacktrackFacts.engine_spec "baaac" "a*" true)).
Defined.

End SearchFacts.

(** ** Substrings *)

Module JSTextFacts.
Import JSText ZArith.
#[local] Open Scope nat_scope.

Lemma chars_append (a b : string) :
  list_ascii_of_string (a ++ b)
  = (list_ascii_of_string a ++ list_ascii_of_string b)%list.
Proof. induction a as [|c a IH]; simpl; [reflexivity|now rewrite IH]. Qed.

Lemma chars_length (s : string) :
  List.length (list_ascii_of_string s) = String.length s.
Proof. induction s as [|c r IH]; simpl; congruence. Qed.

Lemma chars_inj (a b : string) :
  list_ascii_of_string a = list_ascii_of_string b -> a = b.
Proof.
  intros H. apply (f_equal string_of_list_ascii) in H.
  now rewrite !string_of_list_ascii_of_string in H.
Qed.

Lemma chars_substring (s : string) : forall n m,
  list_ascii_of_string (substring n m s)
  = firstn m (skipn n (list_ascii_of_string s)).
Proof.
  induction s as [|c r IH]; intros n m.
  - destruct n, m; reflexivity.
  - destruct n as [|n]; destruct m as [|m]; simpl.
    + reflexivity.
    + now rewrite IH.
    + rewrite IH. reflexivity.
    + apply IH.
Qed.

Lemma chars_get (s : string) : forall i,
  get i s = nth_error (list_ascii_of_string s) i.
Proof.
  induction s as [|c r IH]; intros [|i]; simpl; try reflexivity. apply IH.
Qed.

(** In order and in range, [substring2] is the plain substring. *)
Lemma substring2_ordered (s : string) (a b : nat) :
  a <= b -> b <= String.length s ->
  substring2 s a b = substring a (b - a) s.
Proof.
  intros H1 H2. unfold substring2.
  rewrite (Nat.min_l a), (Nat.min_l b), Nat.min_l, Nat.max_r by lia.
  reflexivity.
Qed.

Lemma chars_substring2 (s : string) (a b : nat) :
  a <= b -> b <= String.length s ->
  list_ascii_of_string (substring2 s a b)
  = firstn (b - a) (skipn a (list_ascii_of_string s)).
Proof.
  intros H1 H2. rewrite substring2_ordered by assumption.
  apply chars_substring.
Qed.

Lemma chars_substringFrom (s : string) (a : nat) :
  a <= String.length s ->
  list_ascii_of_string (substringFrom s a) = skipn a (list_ascii_of_string s).
Proof.
  intros H. unfold substringFrom. rewrite chars_substring2 by lia.
  apply firstn_all2. rewrite length_skipn, chars_length. lia.
Qed.

Lemma substring2_length (s : string) (a b : nat) :
  a <= b -> b <= String.length s ->
  String.length (substring2 s a b) = b - a.
Proof.
  intros H1 H2. rewrite <- chars_length, chars_substring2 by assumption.
  rewrite length_firstn, length_skipn, chars_length. lia.
Qed.

Lemma firstn_plus {A : Type} (n m : nat) : forall l : list A,
  firstn (n + m) l = (firstn n l ++ firstn m (skipn n l))%list.
Proof.
  induction n as [|n IH]; intros [|x l]; simpl;
    try reflexivity; [now destruct m|now rewrite IH].
Qed.

(** Two adjacent pieces make the piece that spans them. *)
Lemma substring2_adjacent (s : string) (a b c : nat) :
  a <= b -> b <= c -> c <= String.length s ->
  substring2 s a b ++ substring2 s b c = substring2 s a c.
Proof.
  intros H1 H2 H3. apply chars_inj.
  rewrite chars_append, !chars_substring2 by lia.
  set (l := list_ascii_of_string s).
  replace (c - a) with ((b - a) + (c - b)) by lia.
  rewrite firstn_plus. f_equal. rewrite skipn_skipn.
  f_equal. f_equal. lia.
Qed.

Lemma substring2_rest (s : string) (a b : nat) :
  a <= b -> b <= String.length s ->
  substring2 s a b ++ substringFrom s b = substringFrom s a.
Proof.
  intros H1 H2. unfold substringFrom. apply substring2_adjacent; lia.
Qed.

Lemma substringFrom_0 (s : string) : substringFrom s 0 = s.
Proof.
  apply chars_inj. rewrite chars_substringFrom by lia. reflexivity.
Qed.

(** A string is what lies before an index and what lies from it on. *)
Lemma substring2_split (s : string) (a : nat) :
  a <= String.length s -> substring2 s 0 a ++ substringFrom s a = s.
Proof.
  intros H. rewrite substring2_rest by lia. apply substringFrom_0.
Qed.

Lemma append_length (a b : string) :
  String.length (a ++ b) = String.length a + String.length b.
Proof. induction a as [|c a IH]; simpl; [reflexivity|now rewrite IH]. Qed.

Lemma append_assoc (a b c : string) : (a ++ b) ++ c = a ++ b ++ c.
Proof. induction a as [|d a IH]; simpl; [reflexivity|now rewrite IH]. Qed.

Lemma append_nil_r (a : string) : a ++ "" = a.
Proof. induction a as [|d a IH]; simpl; [reflexivity|now rewrite IH]. Qed.

(** What lies before and from the end of a prefix [a] of [a ++ b]. *)
Lemma substring2_prefix (a b : string) :
  substring2 (a ++ b) 0 (String.length a) = a.
Proof.
  apply chars_inj. rewrite chars_substring2, chars_append;
    [|lia|rewrite append_length; lia].
  rewrite Nat.sub_0_r. cbn [skipn].
  rewrite firstn_app, chars_length, Nat.sub_diag, firstn_all2
    by (rewrite chars_length; lia).
  cbn [firstn]. apply app_nil_r.
Qed.

Lemma substringFrom_suffix (a b : string) :
  substringFrom (a ++ b) (String.length a) = b.
Proof.
  apply chars_inj. rewrite chars_substringFrom, chars_append;
    [|rewrite append_length; lia].
  rewrite skipn_app, chars_length, Nat.sub_diag, skipn_all2
    by (rewrite chars_length; lia).
  reflexivity.
Qed.

(** [lastIndexFrom] finds the last occurrence at or below [k]. *)
Lemma lastIndexFrom_some (c : ascii) (s : string) : forall k j,
  lastIndexFrom c s k = Some j ->
  j <= k /\ get j s = Some c /\
  forall i, j < i -> i <= k -> get i s <> Some c.
Proof.
  induction k as [|k IH]; intros j H; cbn [lastIndexFrom] in H.
  - destruct (get 0 s) as [d|] eqn:G; [|discriminate].
    destruct (Ascii.eqb_spec d c); [|discriminate].
    injection H as <-. subst d.
    split; [lia|split; [assumption|intros; lia]].
  - destruct (get (S k) s) as [d|] eqn:G.
    + destruct (Ascii.eqb_spec d c) as [->|N].
      * injection H as <-. split; [lia|split; [assumption|intros; lia]].
      * apply IH in H as (H1 & H2 & H3).
        split; [lia|split; [assumption|]].
        intros i Hi1 Hi2. destruct (Nat.eq_dec i (S k)) as [->|].
        -- rewrite G. congruence.
        -- apply H3; lia.
    + apply IH in H as (H1 & H2 & H3).
      split; [lia|split; [assumption|]].
      intros i Hi1 Hi2. destruct (Nat.eq_dec i (S k)) as [->|].
      * rewrite G. discriminate.
      * apply H3; lia.
Qed.

Lemma lastIndexFrom_none (c : ascii) (s : string) : forall k,
  lastIndexFrom c s k = None -> forall i, i <= k -> get i s <> Some c.
Proof.
  induction k as [|k IH]; intros H i Hi; cbn [lastIndexFrom] in H.
  - assert (i = 0) by lia. subst i.
    destruct (get 0 s) as [d|]; [|discriminate].
    destruct (Ascii.eqb_spec d c); [discriminate|congruence].
  - destruct (get (S k) s) as [d|] eqn:G.
    + destruct (Ascii.eqb_spec d c) as [->|N]; [discriminate|].
      destruct (Nat.eq_dec i (S k)) as [->|]; [rewrite G; congruence|].
      apply IH; [assumption|lia].
    + destruct (Nat.eq_dec i (S k)) as [->|]; [rewrite G; discriminate|].
      apply IH; [assumption|lia].
Qed.

Lemma get_in_range (s : string) (i : nat) (c : ascii) :
  get i s = Some c -> i < String.length s.
Proof.
  rewrite chars_get. intros H.
  rewrite <- chars_length. apply nth_error_Some. congruence.
Qed.

End JSTextFacts.

(** ** Snippets *)

Module SnippetFacts.
Import JSText JSTextFacts Snippet ZArith.
#[local] Open Scope nat_scope.

Lemma nonempty_length (s : string) : s <> "" <-> 0 < String.length s.
Proof.
  destruct s; simpl; split; intros H; try congruence; try lia.
Qed.

Lemma wrapped_nonempty (syntax selection : string) :
  wrapped syntax selection <> "".
Proof.
  apply nonempty_length. unfold wrapped. rewrite !append_length.
  destruct (truthy selection) eqn:T.
  - apply truthy_true_iff, nonempty_length in T. lia.
  - simpl. lia.
Qed.

(** One splice for the wrap and block policies. *)
Lemma splice_shape (markdown syntax : string) (type : Kind) (start stop : nat) :
  type <> Line ->
  exists inserted, inserted <> "" /\
    splice markdown syntax type start stop
    = (substring2 markdown 0 start ++ inserted ++ substringFrom markdown stop,
       start + String.length inserted) /\
    (type = Block ->
     inserted = String LF EmptyString ++ syntax ++ String LF EmptyString) /\
    (type = Wrap ->
     inserted = wrapped syntax (substring2 markdown start stop)).
Proof.
  intros Hl. destruct type; [|contradiction|].
  - exists (wrapped syntax (substring2 markdown start stop)).
    split; [apply wrapped_nonempty|]. split; [|split; [discriminate|reflexivity]].
    unfold splice, wrapped. cbv zeta. f_equal.
    + now rewrite !append_assoc.
    + rewrite !append_length. lia.
  - exists (String LF EmptyString ++ syntax ++ String LF EmptyString).
    split; [discriminate|]. split; [|split; [reflexivity|discriminate]].
    unfold splice. cbv zeta. f_equal.
    + now rewrite !append_assoc.
    + rewrite !append_length. simpl. lia.
Qed.

(** X1.  With the wrap and block policies, a snippet replaces the
    selection and nothing else: the text before the selection and the
    text after it stay, something non-empty comes between them, and the
    caret reported is the index just after what was put in. *)
Theorem splice_replaces_selection (markdown syntax : string) (type : Kind)
  (start stop : nat) :
  type <> Line -> start <= stop -> stop <= String.length markdown ->
  let before := substring2 markdown 0 start in
  let selection := substring2 markdown start stop in
  let after := substringFrom markdown stop in
  let newContent := fst (splice markdown syntax type start stop) in
  let newCursorPos := snd (splice markdown syntax type start stop) in
  markdown = before ++ selection ++ after /\
  exists inserted, inserted <> "" /\
    newContent = before ++ inserted ++ after /\
    newCursorPos = start + String.length inserted /\
    substring2 newContent 0 newCursorPos = before ++ inserted /\
    substringFrom newContent newCursorPos = after /\
    (type = Block ->
     inserted = String LF EmptyString ++ syntax ++ String LF EmptyString) /\
    (type = Wrap -> inserted = wrapped syntax selection).
Proof.
  intros Hl H1 H2 before selection after newContent newCursorPos.
  assert (Lb : String.length before = start).
  { unfold before. rewrite substring2_length by lia. lia. }
  split.
  - unfold before, selection, after.
    rewrite substring2_rest by lia. symmetry. apply substring2_split. lia.
  - destruct (splice_shape markdown syntax type start stop Hl)
      as (inserted & Hne & Hs & Hb & Hw).
    exists inserted. subst newContent newCursorPos. rewrite Hs. cbn [fst snd].
    fold before after selection in Hw |- *.
    split; [exact Hne|]. split; [reflexivity|]. split; [reflexivity|].
    assert (Lp : start + String.length inserted
                 = String.length (before ++ inserted)).
    { rewrite append_length. lia. }
    rewrite Lp, <- append_assoc.
    split; [apply substring2_prefix|].
    split; [apply substringFrom_suffix|]. split; assumption.
Qed.

Lemma splice_replaces_selection_witness :
  fst (splice "see ghost.md" "**Text**" Wrap 4 9) = "see **ghost**.md".
Proof.
  destruct (splice_replaces_selection "see ghost.md" "**Text**" Wrap 4 9)
    as (_ & inserted & _ & H & _ & _ & _ & _ & W).
  - discriminate.
  - lia.
  - simpl. lia.
  - rewrite H, (W eq_refl). reflexivity.
Defined.

(** X2.  With the line policy, the template goes in at one index,
    [lineStart], and the buffer stays whole around it.  That index is 0
    or follows a line feed.  When the caret is past index 0 it is the
    start of the line of the caret: not after the caret, with no line
    feed between it and the caret.  When the caret is at index 0 it is
    0, unless the buffer begins with a line feed: then it is 1. *)
Theorem splice_line_start (markdown syntax : string) (start stop : nat) :
  start <= stop -> stop <= String.length markdown ->
  let at_ := lineStart markdown start in
  fst (splice markdown syntax Line start stop)
  = substring2 markdown 0 at_ ++ syntax ++ substringFrom markdown at_ /\
  markdown = substring2 markdown 0 at_ ++ substringFrom markdown at_ /\
  at_ <= String.length markdown /\
  (at_ = 0 \/ get (at_ - 1) markdown = Some LF) /\
  (1 <= start ->
   at_ <= start /\
   forall i, at_ <= i -> i < start -> get i markdown <> Some LF) /\
  (start = 0 ->
   at_ = match get 0 markdown with
         | Some c => if Ascii.eqb c LF then 1 else 0
         | None => 0
         end).
Proof.
  intros H1 H2 at_.
  assert (Hat : at_ <= String.length markdown /\
                (at_ = 0 \/ get (at_ - 1) markdown = Some LF) /\
                (1 <= start ->
                 at_ <= start /\
                 forall i, at_ <= i -> i < start -> get i markdown <> Some LF)).
  { subst at_. unfold lineStart, lastIndexOf.
    set (k := Z.to_nat (Z.min (Z.max (Z.of_nat start - 1) 0)
                          (Z.of_nat (String.length markdown)))).
    assert (Hk : 1 <= start -> k = start - 1) by (intros; subst k; lia).
    destruct (lastIndexFrom LF markdown k) as [j|] eqn:E.
    - apply lastIndexFrom_some in E as (E1 & E2 & E3).
      pose proof (get_in_range _ _ _ E2) as R.
      replace (Z.to_nat (Z.of_nat j + 1)) with (S j) by lia.
      split; [lia|]. split.
      + right. now replace (S j - 1) with j by lia.
      + intros Hs. rewrite (Hk Hs) in *. split; [lia|].
        intros i Hi1 Hi2. apply E3; lia.
    - pose proof (lastIndexFrom_none _ _ _ E) as N.
      change (Z.to_nat (-1 + 1)) with 0.
      split; [lia|]. split; [now left|].
      intros Hs. rewrite (Hk Hs) in *. split; [lia|].
      intros i Hi1 Hi2. apply N. lia. }
  destruct Hat as (A1 & A2 & A3).
  split; [reflexivity|].
  split; [symmetry; now apply substring2_split|].
  split; [exact A1|]. split; [exact A2|]. split; [exact A3|].
  intros ->. subst at_. unfold lineStart, lastIndexOf.
  replace (Z.to_nat (Z.min (Z.max (Z.of_nat 0 - 1) 0)
                       (Z.of_nat (String.length markdown)))) with 0 by lia.
  cbn [lastIndexFrom]. destruct (get 0 markdown) as [c|]; [|reflexivity].
  destruct (Ascii.eqb c LF); reflexivity.
Qed.

Lemma splice_line_start_witness :
  lineStart (String "a" (String LF (String "b" (String "c" EmptyString)))) 3
  <= 3.
Proof.
  refine (proj1 (proj1 (proj2 (proj2 (proj2 (proj2
    (splice_line_start
       (String "a" (String LF (String "b" (String "c" EmptyString))))
       "# " 3 3 _ _))))) _)).
  - lia.
  - simpl. lia.
  - lia.
Defined.

End SnippetFacts.

(** ** More of the history and of the draft *)

Module SessionFacts.
Import Editor EditorFacts Session.
#[local] Open Scope nat_scope.

#[local] Hint Rewrite setMarkdown_markdown setMarkdown_history
  setMarkdown_lastSaved setMarkdown_historyTimeout setMarkdown_draft
  setMarkdown_now pushToHistory_lastSaved pushToHistory_markdown
  pushToHistory_historyTimeout pushToHistory_draft pushToHistory_autoSave
  pushToHistory_now fireAutoSave_history fireAutoSave_lastSaved
  fireAutoSave_markdown fireAutoSave_historyTimeout fireAutoSave_now
  : session.

Lemma history_eta (s : State) :
  historyRef s = mkHistory (past (historyRef s)) (future (historyRef s)).
Proof. destruct (historyRef s); reflexivity. Qed.

Lemma pop_nonempty {A : Type} (l : list A) :
  l <> [] -> exists l' x, pop l = Some (l', x) /\ l = push l' x.
Proof.
  intros H. destruct (pop l) as [[l' x]|] eqn:E.
  - exists l', x. split; [reflexivity|now apply pop_some].
  - apply pop_none in E. contradiction.
Qed.

(** An undo and a redo, on a state whose stacks are known. *)
Lemma handleUndo_push (s : State) (p f : list string) (x : string) :
  historyRef s = mkHistory (push p x) f ->
  markdown (handleUndo s) = x /\
  historyRef (handleUndo s) = mkHistory p (push f (markdown s)) /\
  lastSavedMarkdown (handleUndo s) = x /\
  historyTimeoutRef (handleUndo s) = historyTimeoutRef s.
Proof.
  intros H. unfold handleUndo. rewrite H. cbn [past future].
  rewrite pop_push. session. auto.
Qed.

Lemma handleRedo_push (s : State) (p f : list string) (x : string) :
  historyRef s = mkHistory p (push f x) ->
  markdown (handleRedo s) = x /\
  historyRef (handleRedo s) = mkHistory (push p (markdown s)) f /\
  lastSavedMarkdown (handleRedo s) = x /\
  historyTimeoutRef (handleRedo s) = historyTimeoutRef s.
Proof.
  intros H. unfold handleRedo. rewrite H. cbn [past future].
  rewrite pop_push. session. auto.
Qed.

(** X3.  A snippet is a checkpoint at once.  When its text differs from
    the last checkpoint, the buffer and the checkpoint are the new text,
    the old checkpoint goes onto the past stack and the future stack is
    emptied; the debounce timer that fires later adds nothing; and one
    undo brings back the text of the old checkpoint. *)
Theorem snippet_checkpoint (s : State) (newContent : string) (ms : nat) :
  newContent <> lastSavedMarkdown s -> 500 <= ms ->
  let s' := insertSnippet newContent s in
  markdown s' = newContent /\
  lastSavedMarkdown s' = newContent /\
  historyRef s'
  = mkHistory (capped (push (past (historyRef s)) (lastSavedMarkdown s))) [] /\
  historyRef (elapse ms s') = historyRef s' /\
  lastSavedMarkdown (elapse ms s') = newContent /\
  markdown (handleUndo s') = lastSavedMarkdown s.
Proof.
  intros Hne Hms s'.
  destruct (onMarkdownChange_facts newContent s) as (H & L & M & T).
  assert (H' : historyRef s'
               = mkHistory (capped (push (past (historyRef s))
                                      (lastSavedMarkdown s))) []).
  { unfold s', insertSnippet. rewrite pushToHistory_history, L, H.
    destruct (String.eqb_spec newContent (lastSavedMarkdown s));
      [contradiction|reflexivity]. }
  assert (L' : lastSavedMarkdown s' = newContent)
    by apply pushToHistory_lastSaved.
  assert (T' : historyTimeoutRef s'
               = Some (mkTimer (now s' + 500) newContent)).
  { unfold s', insertSnippet. session. exact T. }
  destruct (elapse_due ms s' _ T') as (E1 & E2 & _); [simpl; lia|].
  cbn [captured] in E1, E2.
  split; [unfold s', insertSnippet; session; exact M|].
  split; [exact L'|]. split; [exact H'|].
  split.
  { rewrite E1, pushToHistory_history, L', String.eqb_refl. reflexivity. }
  split; [exact E2|].
  destruct (capped_push_pop (past (historyRef s)) (lastSavedMarkdown s))
    as [p Hp].
  unfold handleUndo. rewrite H'. cbn [past]. rewrite Hp.
  apply setMarkdown_markdown.
Qed.

Lemma snippet_checkpoint_witness :
  markdown (handleUndo (insertSnippet "# ghost" (initial "boo" None))) = "boo".
Proof.
  refine (proj2 (proj2 (proj2 (proj2 (proj2
    (snippet_checkpoint (initial "boo" None) "# ghost" 500 _ _)))))).
  - discriminate.
  - lia.
Defined.

(** X4.  A redo takes back an undo, and an undo a redo: where there is
    something to undo, undo then redo leaves the buffer and both stacks
    as they were, and so does redo then undo where there is something to
    redo. *)
Theorem redo_reverts_undo (s : State) :
  (past (historyRef s) <> [] ->
   markdown (handleRedo (handleUndo s)) = markdown s /\
   historyRef (handleRedo (handleUndo s)) = historyRef s) /\
  (future (historyRef s) <> [] ->
   markdown (handleUndo (handleRedo s)) = markdown s /\
   historyRef (handleUndo (handleRedo s)) = historyRef s).
Proof.
  split; intros H.
  - destruct (pop_nonempty _ H) as (p & x & _ & E).
    assert (Hs : historyRef s = mkHistory (push p x) (future (historyRef s))).
    { rewrite <- E. apply history_eta. }
    destruct (handleUndo_push s _ _ _ Hs) as (M & Hu & _).
    destruct (handleRedo_push (handleUndo s) _ _ _ Hu) as (M' & Hr & _).
    split; [exact M'|]. rewrite Hr, M, <- E. symmetry. apply history_eta.
  - destruct (pop_nonempty _ H) as (f & x & _ & E).
    assert (Hs : historyRef s = mkHistory (past (historyRef s)) (push f x)).
    { rewrite <- E. apply history_eta. }
    destruct (handleRedo_push s _ _ _ Hs) as (M & Hr & _).
    destruct (handleUndo_push (handleRedo s) _ _ _ Hr) as (M' & Hu & _).
    split; [exact M'|]. rewrite Hu, M, <- E. symmetry. apply history_eta.
Qed.

Lemma redo_reverts_undo_witness :
  markdown (handleRedo (handleUndo (insertSnippet "# ghost" (initial "boo" None))))
  = "# ghost".
Proof.
  refine (proj1 (proj1 (redo_reverts_undo
            (insertSnippet "# ghost" (initial "boo" None))) _)).
  vm_compute. discriminate.
Defined.

Lemma tl_app_nonempty {A : Type} (l : list A) (x : A) :
  l <> [] -> tl (l ++ [x]) = (tl l ++ [x])%list.
Proof. destruct l; [contradiction|reflexivity]. Qed.

Lemma hd_app_last {A : Type} (l : list A) (x d : A) :
  hd d (l ++ [x]) = hd x l.
Proof. destruct l; reflexivity. Qed.

Lemma app_last_nonempty {A : Type} (l : list A) (x : A) : (l ++ [x])%list <> [].
Proof. destruct l; discriminate. Qed.

(** Undoing all there is to undo. *)
Lemma undo_all (p : list string) : forall (s : State) (f : list string),
  historyRef s = mkHistory p f ->
  let u := times (length p) handleUndo s in
  markdown u = hd (markdown s) p /\
  historyRef u = mkHistory [] (f ++ List.rev (tl (p ++ [markdown s]))).
Proof.
  induction p as [|x q IH] using rev_ind; intros s f H.
  - cbn. rewrite app_nil_r. auto.
  - destruct (handleUndo_push s q f x H) as (M & Hu & _).
    rewrite length_app, Nat.add_1_r. unfold times.
    rewrite Nat.iter_succ_r. fold (times (length q) handleUndo (handleUndo s)).
    destruct (IH (handleUndo s) _ Hu) as (M' & H').
    cbv zeta in M', H'. rewrite M', H', M. split.
    + now rewrite hd_app_last.
    + rewrite (tl_app_nonempty (q ++ [x])) by apply app_last_nonempty.
      rewrite (rev_app_distr (tl (q ++ [x]))). cbn [List.rev app].
      unfold push. now rewrite <- app_assoc.
Qed.

(** Redoing all there is to redo. *)
Lemma redo_all (f : list string) : forall (s : State) (p : list string),
  historyRef s = mkHistory p f ->
  let r := times (length f) handleRedo s in
  markdown r = hd (markdown s) f /\
  historyRef r = mkHistory (p ++ List.rev (tl (f ++ [markdown s]))) [].
Proof.
  induction f as [|x g IH] using rev_ind; intros s p H.
  - cbn. rewrite app_nil_r. auto.
  - destruct (handleRedo_push s p g x H) as (M & Hr & _).
    rewrite length_app, Nat.add_1_r. unfold times.
    rewrite Nat.iter_succ_r. fold (times (length g) handleRedo (handleRedo s)).
    destruct (IH (handleRedo s) _ Hr) as (M' & H').
    cbv zeta in M', H'. rewrite M', H', M. split.
    + now rewrite hd_app_last.
    + rewrite (tl_app_nonempty (g ++ [x])) by apply app_last_nonempty.
      rewrite (rev_app_distr (tl (g ++ [x]))). cbn [List.rev app].
      unfold push. now rewrite <- app_assoc.
Qed.

(** After commits, the buffer is the last text committed and nothing is
    left to redo. *)
Lemma commits_buffer (vs : list string) : forall (s : State),
  chain (lastSavedMarkdown s) vs ->
  future (historyRef s) = [] ->
  future (historyRef (run (commits vs) s)) = [] /\
  markdown (run (commits vs) s) = List.last vs (markdown s).
Proof.
  induction vs as [|v r IH]; intros s Hc Hf; [auto|].
  destruct Hc as [Hv Hc].
  cbn [commits flat_map app run fold_left step].
  destruct (typed_then_quiet v 500 s (le_n _)) as (M & H & L & _).
  cbv zeta in M, H, L.
  specialize (IH (elapse 500 (onMarkdownChange v s))).
  unfold run, commits in IH. rewrite L, M in IH.
  destruct IH as [IH1 IH2]; [assumption| |].
  - rewrite H, pushToHistory_history.
    destruct (String.eqb_spec v (lastSavedMarkdown s)); [contradiction|].
    reflexivity.
  - split; [exact IH1|]. rewrite IH2.
    destruct r as [|x r]; [reflexivity|].
    change (List.last (v :: x :: r) (markdown s))
      with (List.last (x :: r) (markdown s)).
    apply last_default.
Qed.

Lemma rev_tl_rev {A : Type} (l : list A) :
  List.rev (tl (List.rev l)) = removelast l.
Proof.
  induction l as [|x l _] using rev_ind; [reflexivity|].
  rewrite rev_app_distr. cbn [List.rev app tl].
  now rewrite rev_involutive, removelast_last.
Qed.

Lemma hd_rev_last {A : Type} (l : list A) (d : A) :
  hd d (List.rev l) = List.last l d.
Proof.
  induction l as [|x l _] using rev_ind; [reflexivity|].
  rewrite rev_app_distr, last_last. reflexivity.
Qed.

(** X5.  The undo lineage is whole while the cap is not reached: after
    committing up to 50 distinct texts in sequence from the start, as
    many undos bring the buffer back to the text the session started
    with, with nothing left to undo and the committed texts on the
    future stack; as many redos then restore the buffer and both stacks
    as they were after the last commit. *)
Theorem undo_lineage (DEFAULT_MARKDOWN : string) (saved : option string)
  (vs : list string) :
  let s0 := initial DEFAULT_MARKDOWN saved in
  let s := run (commits vs) s0 in
  let u := times (length vs) handleUndo s in
  let r := times (length vs) handleRedo u in
  NoDup (markdown s0 :: vs) -> length vs <= 50 ->
  markdown u = markdown s0 /\
  historyRef u = mkHistory [] (List.rev vs) /\
  handleUndo u = u /\
  markdown r = markdown s /\
  historyRef r = historyRef s.
Proof.
  intros s0 s u r Hnd Hlen.
  assert (Hc : chain (lastSavedMarkdown s0) vs) by (apply NoDup_chain; exact Hnd).
  destruct (commits_past vs s0 [] eq_refl Hc) as [Hp _].
  destruct (commits_buffer vs s0 Hc eq_refl) as [Hf Hm].
  fold s in Hp, Hf, Hm. cbn [app] in Hp.
  change (lastSavedMarkdown s0) with (markdown s0) in Hp.
  set (m0 := markdown s0) in *.
  assert (Lp : length (removelast (m0 :: vs)) = length vs).
  { rewrite removelast_length. reflexivity. }
  assert (Hk : keep50 (removelast (m0 :: vs)) = removelast (m0 :: vs)).
  { unfold keep50. rewrite Lp. replace (length vs - 50) with 0 by lia.
    reflexivity. }
  rewrite Hk in Hp.
  assert (Hs : historyRef s = mkHistory (removelast (m0 :: vs)) []).
  { rewrite (history_eta s), Hp, Hf. reflexivity. }
  assert (Hall : (removelast (m0 :: vs) ++ [markdown s])%list = m0 :: vs).
  { rewrite Hm.
    replace (List.last vs m0) with (List.last (m0 :: vs) m0)
      by (destruct vs; reflexivity).
    symmetry. apply app_removelast_last. discriminate. }
  destruct (undo_all (removelast (m0 :: vs)) s [] Hs) as (Mu & Hu).
  rewrite Lp in Mu, Hu. fold u in Mu, Hu. cbv zeta in Mu, Hu.
  rewrite Hall in Hu. cbn [tl app] in Hu.
  assert (Mu' : markdown u = m0).
  { rewrite Mu. destruct vs as [|v vs']; [exact Hm|reflexivity]. }
  split; [exact Mu'|]. split; [exact Hu|].
  split; [unfold handleUndo; rewrite Hu; reflexivity|].
  destruct (redo_all (List.rev vs) u [] Hu) as (Mr & Hr).
  rewrite length_rev in Mr, Hr. fold r in Mr, Hr. cbv zeta in Mr, Hr.
  rewrite Mu' in Mr, Hr. split.
  - rewrite Mr, Hm. apply hd_rev_last.
  - rewrite Hr, Hs. cbn [app]. f_equal.
    change (List.rev vs ++ [m0])%list with (List.rev (m0 :: vs)).
    apply rev_tl_rev.
Qed.

Lemma undo_lineage_witness :
  markdown
    (times 3 handleUndo (run (commits ["a"; "b"; "c"]) (initial "# ghost" None)))
  = "# ghost".
Proof.
  refine (proj1 (undo_lineage "# ghost" None ["a"; "b"; "c"] _ _)).
  - repeat constructor; cbn; intros H;
      repeat (destruct H as [H|H]; [discriminate H|]); exact H.
  - simpl. lia.
Defined.

(** X6.  An undo does not cancel the pending checkpoint.  After typing a
    text and undoing before the debounce has fired, the timer still
    fires: it commits the typed text although the buffer is back at the
    previous snapshot.  The past stack is then what it was before the
    edit (capped), the future stack is empty, so the typed text cannot
    be redone, and the checkpoint is the typed text, not the buffer. *)
Theorem undo_keeps_pending_checkpoint (s : State) (v : string) (ms : nat) :
  past (historyRef s) <> [] ->
  v <> List.last (past (historyRef s)) "" ->
  500 <= ms ->
  let s' := run [Typed v; UndoKey; Elapsed ms] s in
  markdown s' = List.last (past (historyRef s)) "" /\
  lastSavedMarkdown s' = v /\
  historyRef s' = mkHistory (capped (past (historyRef s))) [] /\
  handleRedo s' = s'.
Proof.
  intros Hp Hv Hms s'. subst s'. cbn [run fold_left step].
  destruct (pop_nonempty _ Hp) as (p & x & _ & E).
  assert (Hx : List.last (past (historyRef s)) "" = x).
  { rewrite E. unfold push. apply last_last. }
  rewrite Hx in *.
  destruct (onMarkdownChange_facts v s) as (H & L & M & T).
  set (s1 := onMarkdownChange v s) in *.
  assert (Hs1 : historyRef s1 = mkHistory (push p x) (future (historyRef s))).
  { rewrite H, <- E. apply history_eta. }
  destruct (handleUndo_push s1 _ _ _ Hs1) as (Mu & Hu & Lu & Tu).
  set (s2 := handleUndo s1) in *.
  assert (T2 : historyTimeoutRef s2 = Some (mkTimer (now s1 + 500) v))
    by (rewrite Tu; exact T).
  assert (N2 : now s2 = now s1).
  { unfold s2, handleUndo. rewrite Hs1. cbn [past]. rewrite pop_push.
    session. reflexivity. }
  destruct (elapse_due ms s2 _ T2) as (E1 & E2 & E3 & _);
    [cbn [due]; rewrite N2; lia|].
  cbn [captured] in E1, E2.
  assert (Hh : historyRef (elapse ms s2)
               = mkHistory (capped (past (historyRef s))) []).
  { rewrite E1, pushToHistory_history, Lu, Hu.
    destruct (String.eqb_spec v x); [contradiction|].
    cbn [past]. now rewrite <- E. }
  split; [rewrite E3; exact Mu|]. split; [exact E2|]. split; [exact Hh|].
  unfold handleRedo. rewrite Hh. reflexivity.
Qed.

Lemma undo_keeps_pending_checkpoint_witness :
  future (historyRef
            (run [Typed "boo!"; UndoKey; Elapsed 500]
               (insertSnippet "boo" (initial "# ghost" None)))) = [].
Proof.
  refine (f_equal future (proj1 (proj2 (proj2
    (undo_keeps_pending_checkpoint
       (insertSnippet "boo" (initial "# ghost" None)) "boo!" 500 _ _ _))))).
  - vm_compute. discriminate.
  - vm_compute. discriminate.
  - lia.
Defined.

(** *** The draft *)

End SessionFacts.

(** ** The draft *)

Module DraftFacts.
Import Editor EditorFacts Quota.
#[local] Open Scope nat_scope.

#[local] Hint Rewrite setMarkdown_markdown setMarkdown_history
  setMarkdown_lastSaved setMarkdown_historyTimeout setMarkdown_draft
  setMarkdown_now pushToHistory_lastSaved pushToHistory_markdown
  pushToHistory_historyTimeout pushToHistory_draft pushToHistory_autoSave
  pushToHistory_now fireAutoSave_history fireAutoSave_lastSaved
  fireAutoSave_markdown fireAutoSave_historyTimeout fireAutoSave_now
  : session.

Lemma fireHistory_fields s :
  markdown (fireHistoryTimeout s) = markdown s /\
  autoSaveTimeoutRef (fireHistoryTimeout s) = autoSaveTimeoutRef s /\
  draft (fireHistoryTimeout s) = draft s /\
  now (fireHistoryTimeout s) = now s.
Proof.
  unfold fireHistoryTimeout. destruct (historyTimeoutRef s) as [t|]; [|auto].
  destruct (due t <=? now s); [|auto]. session. auto.
Qed.

Lemma onMarkdownChange_autoSave (v : string) (s : State) :
  v <> markdown s ->
  autoSaveTimeoutRef (onMarkdownChange v s)
  = Some (mkTimer (now (onMarkdownChange v s) + 1000) v) /\
  draft (onMarkdownChange v s) = draft s /\
  markdown (onMarkdownChange v s) = v.
Proof.
  intros H. unfold onMarkdownChange.
  cbn [autoSaveTimeoutRef draft markdown now with_historyTimeout].
  rewrite setMarkdown_autoSave by exact H. session. auto.
Qed.

(** A store that never refuses gives the session of [Editor]. *)
Lemma always_accepting (s : State) (e : Event) :
  Quota.step (fun _ => true) s e = Editor.step s e.
Proof. destruct e; reflexivity. Qed.

Section Store.
Variable accepts : string -> bool.

#[local] Abbreviation elapse := (Quota.elapse accepts).
#[local] Abbreviation step := (Quota.step accepts).
#[local] Abbreviation run := (Quota.run accepts).
#[local] Abbreviation reachable := (Quota.reachable accepts).
#[local] Abbreviation synced := (Quota.synced accepts).

Lemma synced_ext (s s' : State) :
  autoSaveTimeoutRef s' = autoSaveTimeoutRef s -> markdown s' = markdown s ->
  draft s' = draft s -> now s' = now s -> synced s -> synced s'.
Proof. unfold Quota.synced. intros -> -> -> ->. auto. Qed.

Lemma setMarkdown_synced v s : synced s -> synced (setMarkdown v s).
Proof.
  intros H. unfold setMarkdown. destruct (v =? markdown s)%string; [exact H|].
  unfold Quota.synced. cbn. split; [reflexivity|lia].
Qed.

Lemma pushToHistory_synced v s : synced s -> synced (pushToHistory v s).
Proof. apply synced_ext; session; reflexivity. Qed.

Lemma onMarkdownChange_synced v s : synced s -> synced (onMarkdownChange v s).
Proof.
  intros H. unfold onMarkdownChange.
  eapply synced_ext; [..|apply (setMarkdown_synced v s H)]; reflexivity.
Qed.

(** What a pause does to the draft, the buffer and the auto-save timer:
    a timer that has come due is gone, and has written what it closed
    over if the store took it. *)
Lemma elapse_autoSave (ms : nat) (s : State) :
  markdown (elapse ms s) = markdown s /\
  now (elapse ms s) = now s + ms /\
  match autoSaveTimeoutRef s with
  | Some t =>
      if due t <=? now s + ms
      then autoSaveTimeoutRef (elapse ms s) = None /\
           draft (elapse ms s)
           = if accepts (captured t) then Some (captured t) else draft s
      else autoSaveTimeoutRef (elapse ms s) = Some t /\
           draft (elapse ms s) = draft s
  | None =>
      autoSaveTimeoutRef (elapse ms s) = None /\ draft (elapse ms s) = draft s
  end.
Proof.
  unfold Quota.elapse.
  destruct (fireHistory_fields (with_now (now s + ms) s)) as (M & A & D & N).
  cbn [markdown autoSaveTimeoutRef draft now with_now] in M, A, D, N.
  unfold Quota.fireAutoSaveTimeout. rewrite A, N.
  destruct (autoSaveTimeoutRef s) as [t|].
  - destruct (due t <=? now s + ms).
    + destruct (accepts (captured t)); cbn; rewrite ?M, ?N, ?D; auto.
    + rewrite M, N, A, D. auto.
  - rewrite M, N, A, D. auto.
Qed.

Lemma elapse_synced ms s : synced s -> synced (elapse ms s).
Proof.
  intros H. destruct (elapse_autoSave ms s) as (M & N & E).
  unfold Quota.synced in *. rewrite M, N.
  destruct (autoSaveTimeoutRef s) as [t|].
  - destruct H as [C Du]. destruct (Nat.leb_spec (due t) (now s + ms)).
    + destruct E as [-> ->]. rewrite C. intros ->. reflexivity.
    + destruct E as [-> _]. split; [exact C|lia].
  - destruct E as [-> ->]. exact H.
Qed.

Lemma step_synced s e : synced s -> synced (step s e).
Proof.
  intros H. destruct e as [v|v| | |name result|ms]; cbn [Quota.step Editor.step].
  - now apply onMarkdownChange_synced.
  - now apply pushToHistory_synced, onMarkdownChange_synced.
  - unfold handleUndo. destruct (pop (past (historyRef s))) as [[p x]|];
      [|exact H].
    apply setMarkdown_synced. eapply synced_ext; [..|exact H]; reflexivity.
  - unfold handleRedo. destruct (pop (future (historyRef s))) as [[f x]|];
      [|exact H].
    apply setMarkdown_synced. eapply synced_ext; [..|exact H]; reflexivity.
  - unfold processFile.
    destruct (endsWith name ".md" || endsWith name ".txt");
      [|eapply synced_ext; [..|exact H]; reflexivity].
    destruct result as [text|];
      [|eapply synced_ext; [..|exact H]; reflexivity].
    eapply synced_ext;
      [..|apply (setMarkdown_synced text), (synced_ext s); [..|exact H]];
      reflexivity.
  - now apply elapse_synced.
Qed.

Lemma reachable_synced D saved s : reachable D saved s -> synced s.
Proof.
  induction 1 as [|s e _ IH].
  - unfold Quota.synced. cbn. split; [reflexivity|lia].
  - now apply step_synced.
Qed.

(** A second of quiet writes the buffer to the draft, if the store
    takes it. *)
Lemma synced_settles (s : State) (ms : nat) :
  synced s -> 1000 <= ms ->
  markdown (elapse ms s) = markdown s /\
  autoSaveTimeoutRef (elapse ms s) = None /\
  (accepts (markdown s) = true -> draft (elapse ms s) = Some (markdown s)) /\
  (accepts (markdown s) = false -> draft (elapse ms s) = draft s).
Proof.
  intros H Hms. destruct (elapse_autoSave ms s) as (M & N & E).
  unfold Quota.synced in H. split; [exact M|].
  destruct (autoSaveTimeoutRef s) as [t|].
  - destruct H as [C Du].
    destruct (Nat.leb_spec (due t) (now s + ms)); [|lia].
    destruct E as [-> ->]. rewrite C. split; [reflexivity|].
    split; intros ->; reflexivity.
  - destruct E as [-> ->]. split; [reflexivity|].
    split; [exact H|reflexivity].
Qed.

(** X7.  The draft follows the buffer as far as the store lets it.  In
    every state a session can reach, once 1000 ms pass without an event
    the buffer is unchanged and no auto-save is pending; the entry under
    the storage key is then the buffer if the store takes the buffer,
    and what it was before if the store refuses it. *)
Theorem draft_settles (DEFAULT_MARKDOWN : string) (saved : option string)
  (s : State) (ms : nat) :
  reachable DEFAULT_MARKDOWN saved s -> 1000 <= ms ->
  markdown (elapse ms s) = markdown s /\
  autoSaveTimeoutRef (elapse ms s) = None /\
  (accepts (markdown s) = true -> draft (elapse ms s) = Some (markdown s)) /\
  (accepts (markdown s) = false -> draft (elapse ms s) = draft s).
Proof.
  intros R Hms. apply synced_settles; [|exact Hms].
  now apply reachable_synced with (D := DEFAULT_MARKDOWN) (saved := saved).
Qed.

(** X8.  Reloading after a second of quiet brings the buffer back if
    the store took it: a session started from the draft left behind
    begins with the buffer of the old session, or with the default
    document when that buffer is empty.  If the store refused the
    buffer, the new session begins as one started from the draft there
    was before. *)
Theorem reload_restores_buffer (DEFAULT_MARKDOWN : string)
  (saved : option string) (s : State) (ms : nat) :
  reachable DEFAULT_MARKDOWN saved s -> 1000 <= ms ->
  markdown (initial DEFAULT_MARKDOWN (draft (elapse ms s)))
  = if accepts (markdown s)
    then (if truthy (markdown s) then markdown s else DEFAULT_MARKDOWN)
    else markdown (initial DEFAULT_MARKDOWN (draft s)).
Proof.
  intros R Hms.
  destruct (synced_settles s ms) as (_ & _ & Y & N); [|exact Hms|].
  - now apply reachable_synced with (D := DEFAULT_MARKDOWN) (saved := saved).
  - destruct (accepts (markdown s)).
    + rewrite (Y eq_refl). reflexivity.
    + rewrite (N eq_refl). reflexivity.
Qed.

(** While the auto-save timer is not due, time passes without a write. *)
Lemma elapse_unsaved (ms : nat) (s : State) (t : Timer) :
  autoSaveTimeoutRef s = Some t -> now s + ms < due t ->
  draft (elapse ms s) = draft s /\
  markdown (elapse ms s) = markdown s /\
  autoSaveTimeoutRef (elapse ms s) = Some t /\
  now (elapse ms s) = now s + ms.
Proof.
  intros Ht Hd. destruct (elapse_autoSave ms s) as (M & N & E).
  rewrite Ht in E. destruct (Nat.leb_spec (due t) (now s + ms)); [lia|].
  destruct E as [-> ->]. auto.
Qed.

Lemma burst_unsaved (rest : list (nat * string)) : forall (v : string) (s : State),
  Forall (fun gv => fst gv < 1000) rest ->
  chain v (map snd rest) ->
  markdown s = v ->
  autoSaveTimeoutRef s = Some (mkTimer (now s + 1000) v) ->
  let s' := run (flat_map (fun gv => [Elapsed (fst gv); Typed (snd gv)]) rest) s in
  draft s' = draft s /\
  markdown s' = List.last (map snd rest) v /\
  autoSaveTimeoutRef s'
  = Some (mkTimer (now s' + 1000) (List.last (map snd rest) v)).
Proof.
  induction rest as [|[g w] rest IH]; intros v s Hg Hc M T.
  - simpl. auto.
  - apply Forall_cons_iff in Hg as [Hlt Hg']. simpl in Hlt.
    cbn [map snd chain] in Hc. destruct Hc as [Hw Hc].
    cbn [flat_map app Quota.run fold_left Quota.step Editor.step fst snd].
    destruct (elapse_unsaved g s _ T) as (D1 & M1 & _); [simpl; lia|].
    destruct (onMarkdownChange_autoSave w (elapse g s)) as (T2 & D2 & M2);
      [rewrite M1, M; exact Hw|].
    specialize (IH w (onMarkdownChange w (elapse g s)) Hg' Hc M2 T2).
    cbv zeta in IH. unfold Quota.run in IH. destruct IH as (D3 & M3 & T3).
    replace (List.last (map snd ((g, w) :: rest)) v)
      with (List.last (map snd rest) w).
    + split; [congruence|]. split; assumption.
    + cbn [map snd]. destruct (map snd rest) as [|x l]; [reflexivity|].
      change (List.last (w :: x :: l) v) with (List.last (x :: l) v).
      apply last_default.
Qed.

(** X9.  Writes of the draft are coalesced.  Through a burst of edits,
    each changing the buffer and each less than 1000 ms after the one
    before, nothing is written to storage; once 1000 ms have passed
    without an edit, one write has been tried, of the last text typed:
    the draft is that text if the store takes it and is what it was
    before the burst if the store refuses it. *)
Theorem autosave_coalesces (s : State) (first : string)
  (rest : list (nat * string)) (quiet : nat) :
  chain (markdown s) (first :: map snd rest) ->
  Forall (fun gv => fst gv < 1000) rest -> 1000 <= quiet ->
  let s1 := run (burst first rest) s in
  draft s1 = draft s /\
  autoSaveTimeoutRef s1
  = Some (mkTimer (now s1 + 1000) (lastTyped first rest)) /\
  draft (elapse quiet s1)
  = (if accepts (lastTyped first rest)
     then Some (lastTyped first rest) else draft s) /\
  autoSaveTimeoutRef (elapse quiet s1) = None.
Proof.
  intros [Hf Hc] Hg Hq s1.
  destruct (onMarkdownChange_autoSave first s Hf) as (T & D & M).
  destruct (burst_unsaved rest first (onMarkdownChange first s) Hg Hc M T)
    as (D' & M' & T').
  cbv zeta in D', M', T'.
  change (Quota.run accepts
            (flat_map (fun gv => [Elapsed (fst gv); Typed (snd gv)]) rest)
            (onMarkdownChange first s)) with s1 in D', M', T'.
  fold (lastTyped first rest) in M', T'.
  split; [congruence|]. split; [exact T'|].
  destruct (elapse_autoSave quiet s1) as (_ & _ & E). rewrite T' in E.
  cbn [due captured] in E.
  destruct (Nat.leb_spec (now s1 + 1000) (now s1 + quiet)); [|lia].
  destruct E as [-> ->]. split; [|reflexivity].
  destruct (accepts (lastTyped first rest)); congruence.
Qed.

(** X29.  An import reaches the draft through the debounced write, and
    only if the store takes it.  After a Markdown or text file whose
    text differs from the buffer has been imported, the draft is as it
    was for the next 1000 ms; from then on it is the imported text if
    the store takes that text, and still what it was if the store
    refuses it, while the buffer is the imported text either way. *)
Theorem import_draft (s : State) (name text : string) (ms : nat) :
  endsWith name ".md" || endsWith name ".txt" = true ->
  text <> markdown s ->
  let s' := processFile name (Some text) s in
  markdown (elapse ms s') = text /\
  (ms < 1000 -> draft (elapse ms s') = draft s) /\
  (1000 <= ms ->
   draft (elapse ms s') = if accepts text then Some text else draft s).
Proof.
  intros Hext Hne s'.
  assert (F : markdown s' = text /\ draft s' = draft s /\ now s' = now s /\
              autoSaveTimeoutRef s' = Some (mkTimer (now s + 1000) text)).
  { subst s'. unfold processFile. rewrite Hext.
    cbn [toast markdown draft now autoSaveTimeoutRef].
    rewrite setMarkdown_markdown, setMarkdown_draft, setMarkdown_now.
    rewrite setMarkdown_autoSave by exact Hne. auto. }
  destruct F as (M & D & N & A).
  destruct (elapse_autoSave ms s') as (M' & _ & E).
  rewrite A, N in E. cbn [due captured] in E.
  split; [now rewrite M'|].
  split; intros Hms;
    destruct (Nat.leb_spec (now s + 1000) (now s + ms)); try lia;
    destruct E as [_ ->]; rewrite ?D; reflexivity.
Qed.

End Store.

Lemma import_draft_witness :
  draft (Quota.elapse tiny 1000
           (processFile "notes.md" (Some "# notes") (initial "# ghost" (Some "old"))))
  = Some "old".
Proof.
  refine (proj2 (proj2 (import_draft tiny (initial "# ghost" (Some "old"))
                          "notes.md" "# notes" 1000 _ _)) _).
  - reflexivity.
  - discriminate.
  - lia.
Defined.

Lemma draft_settles_witness :
  draft (Quota.elapse tiny 1000
           (Quota.step tiny (initial "# ghost" (Some "old")) (Typed "boo boo")))
  = Some "old".
Proof.
  refine (eq_trans (proj2 (proj2 (proj2 (draft_settles tiny "# ghost" (Some "old")
                   (Quota.step tiny (initial "# ghost" (Some "old"))
                      (Typed "boo boo")) 1000 _ _))) _) _).
  - apply reach_step, reach_initial.
  - lia.
  - reflexivity.
  - reflexivity.
Defined.

Lemma reload_restores_buffer_witness :
  markdown
    (initial "# ghost"
       (draft (Quota.elapse tiny 1000
                 (Quota.step tiny (initial "# ghost" None) (Typed "")))))
  = "# ghost".
Proof.
  refine (reload_restores_buffer tiny "# ghost" None
            (Quota.step tiny (initial "# ghost" None) (Typed "")) 1000 _ _).
  - apply reach_step, reach_initial.
  - lia.
Defined.

Lemma autosave_coalesces_witness :
  draft (Quota.elapse tiny 1000
           (Quota.run tiny (burst "g" [(400, "gh"); (900, "gho")])
              (initial "# ghost" (Some "old"))))
  = Some "gho".
Proof.
  refine (proj1 (proj2 (proj2 (autosave_coalesces tiny
                   (initial "# ghost" (Some "old")) "g"
                   [(400, "gh"); (900, "gho")] 1000 _ _ _)))).
  - cbn. repeat split; discriminate.
  - repeat constructor; simpl; lia.
  - lia.
Defined.

End DraftFacts.

(** ** From the share link to the viewer *)

(** The round trip of the codec, empty buffer included, for use below. *)
Lemma codec_round_trip_aux {lz : LZString} {spec : LZStringSpec lz} (t : string) :
  decompressMarkdown (compressMarkdown t)
  = if truthy t then Returned (Some t) else Returned None.
Proof.
  destruct (truthy t) eqn:Ht.
  - apply decompress_compress. now apply truthy_true_iff.
  - apply truthy_false_iff in Ht. subst t. reflexivity.
Qed.

Module LinkFacts.
Import Share Overlay.
#[local] Open Scope nat_scope.

Lemma replaceAll_length (from to : ascii) (s : string) :
  String.length (replaceAll from to s) = String.length s.
Proof. induction s as [|c r IH]; simpl; congruence. Qed.

(** Turning the plus signs of a text without spaces into spaces and the
    spaces back into plus signs gives the text again. *)
Lemma plusToSpace_undone (s : string) :
  includes " " s = false -> replaceAll " " "+" (plusToSpace s) = s.
Proof.
  unfold plusToSpace. induction s as [|c r IH]; [reflexivity|].
  cbn [includes replaceAll]. intros H. apply orb_false_iff in H as [Hc Hr].
  rewrite (IH Hr). f_equal.
  destruct (Ascii.eqb_spec c "+") as [->|N]; [reflexivity|].
  now rewrite Hc.
Qed.

Lemma trim_empty_of_empty (s : string) : s = "" -> trim s = "".
Proof. intros ->. reflexivity. Qed.

Lemma append_cancel_l (a x y : string) : a ++ x = a ++ y -> x = y.
Proof.
  induction a as [|c a IH]; simpl; [auto|]. intros [= H]. now apply IH.
Qed.

Section WithCodec.
Context {lz : LZString} {spec : LZStringSpec lz}.

(** A received value that is the compressed text, up to plus signs read
    as spaces, decompresses to the text. *)
Lemma decompress_received (t received : string) :
  t <> "" -> replaceAll " " "+" received = compressMarkdown t ->
  decompressMarkdown received = Returned (Some t).
Proof.
  intros Ht E. unfold decompressMarkdown.
  assert (Hc : compressMarkdown t = compressToEncodedURIComponent t).
  { unfold compressMarkdown. apply truthy_true_iff in Ht. now rewrite Ht. }
  assert (Hr : truthy received = true).
  { apply truthy_true_iff. intros ->. cbn in E. rewrite Hc in E.
    symmetry in E. now apply compress_nonempty in E. }
  rewrite Hr. cbn [negb]. cbv zeta. rewrite E, Hc. apply lz_round_trip.
Qed.

Lemma compressMarkdown_no_space (t : string) :
  includes " " (compressMarkdown t) = false.
Proof.
  unfold compressMarkdown. destruct (truthy t); [apply lz_no_space|reflexivity].
Qed.

Lemma compressMarkdown_inj (a b : string) :
  compressMarkdown a = compressMarkdown b -> a = b.
Proof.
  intros E. pose proof (codec_round_trip_aux a) as Ra.
  pose proof (codec_round_trip_aux b) as Rb. rewrite E in Ra.
  rewrite Ra in Rb.
  destruct (truthy a) eqn:Ta, (truthy b) eqn:Tb; try discriminate Rb.
  - now injection Rb.
  - apply truthy_false_iff in Ta, Tb. congruence.
Qed.

End WithCodec.

Lemma trimStart_end (x : string) (c : ascii) :
  isWhiteSpace c = false -> trimStart (x ++ String c "") <> "".
Proof.
  intros W. induction x as [|d x IH]; cbn [append trimStart].
  - rewrite W. discriminate.
  - destruct (isWhiteSpace d); [exact IH|discriminate].
Qed.

Lemma rev_nonempty (s : string) : s <> "" -> JS.rev s <> "".
Proof.
  destruct s as [|c r]; [contradiction|]. intros _. cbn [JS.rev].
  destruct (JS.rev r); discriminate.
Qed.

(** A text that begins with a character that is not white space is not
    blank. *)
Lemma trim_head (c : ascii) (r : string) :
  isWhiteSpace c = false -> trim (String c r) <> "".
Proof.
  intros W. unfold trim, trimEnd. cbn [trimStart]. rewrite W.
  apply rev_nonempty. cbn [JS.rev]. now apply trimStart_end.
Qed.

(** X10.  A share link opens in the viewer when its value is not blank.
    For a buffer that is not empty, a value of [c] that is the
    compressed buffer up to plus signs read as spaces loads the buffer,
    with no error, if it is not blank, and is reported as an empty link
    if it is.  When the compressed buffer begins with a character that
    is neither white space nor a plus sign, the compressed buffer itself
    and the compressed buffer with every plus sign turned into a space
    are values of the first kind.  For the empty buffer the value of [c]
    is empty and the viewer reports the link as empty. *)
Theorem shared_link_opens (lz : LZString) (spec : LZStringSpec lz)
  (markdown : string) (v : Viewer.State) :
  (markdown = "" ->
   Viewer.decodeEffect (Some (compressMarkdown markdown)) v
   = Viewer.mkState (Viewer.content v) false (Some Viewer.MSG_EMPTY)) /\
  (markdown <> "" ->
   (forall received,
      replaceAll " " "+" received = compressMarkdown markdown ->
      (trim received <> "" ->
       Viewer.decodeEffect (Some received) v
       = Viewer.mkState markdown false None) /\
      (trim received = "" ->
       Viewer.decodeEffect (Some received) v
       = Viewer.mkState (Viewer.content v) false (Some Viewer.MSG_EMPTY))) /\
   (forall c r,
      compressMarkdown markdown = String c r ->
      isWhiteSpace c = false -> c <> "+"%char ->
      Viewer.decodeEffect (Some (compressMarkdown markdown)) v
      = Viewer.mkState markdown false None /\
      Viewer.decodeEffect (Some (plusToSpace (compressMarkdown markdown))) v
      = Viewer.mkState markdown false None)).
Proof.
  assert (L : markdown <> "" -> forall received,
            replaceAll " " "+" received = compressMarkdown markdown ->
            trim received <> "" ->
            Viewer.decodeEffect (Some received) v
            = Viewer.mkState markdown false None).
  { intros Hne received E Ht.
    rewrite decodeEffect_decoded by exact Ht.
    rewrite (decompress_received markdown received Hne E).
    apply truthy_true_iff in Hne. rewrite Hne. reflexivity. }
  split.
  - intros ->. reflexivity.
  - intros Hne. split.
    + intros received E. split; [now apply L|].
      intros B. unfold Viewer.decodeEffect. rewrite B. reflexivity.
    + intros c r C W P. split.
      * apply (L Hne).
        -- apply replaceAll_absent, compressMarkdown_no_space.
        -- rewrite C. now apply trim_head.
      * apply (L Hne).
        -- apply plusToSpace_undone, compressMarkdown_no_space.
        -- rewrite C. unfold plusToSpace. cbn [replaceAll].
           destruct (Ascii.eqb_spec c "+") as [->|_]; [contradiction|].
           now apply trim_head.
Qed.

Lemma shared_link_opens_witness :
  Viewer.decodeEffect (lz := PairCodec.codec)
    (Some (plusToSpace (compressMarkdown (lz := PairCodec.codec) "# Boo")))
    Viewer.initial
  = Viewer.mkState "# Boo" false None.
Proof.
  refine (proj2 (proj2 (proj2 (shared_link_opens PairCodec.codec
                          PairCodecFacts.codec_spec "# Boo" Viewer.initial) _)
            "Q"%char _ eq_refl eq_refl _)).
  - discriminate.
  - discriminate.
Defined.

(** X11.  The codec survives the URL decoding of plus signs: decoding
    the encoding of a non-empty text whose plus signs have all been read
    as spaces gives the text back. *)
Theorem decompress_after_url_decoding (lz : LZString) (spec : LZStringSpec lz)
  (t : string) :
  t <> "" ->
  decompressMarkdown (plusToSpace (compressMarkdown t)) = Returned (Some t).
Proof.
  intros Ht. apply decompress_received; [exact Ht|].
  apply plusToSpace_undone, compressMarkdown_no_space.
Qed.

Lemma decompress_after_url_decoding_witness :
  decompressMarkdown (lz := PairCodec.codec)
    (plusToSpace (compressMarkdown (lz := PairCodec.codec) "a+b"))
  = Returned (Some "a+b").
Proof.
  refine (decompress_after_url_decoding PairCodec.codec
            PairCodecFacts.codec_spec "a+b" _).
  discriminate.
Defined.

(** X12.  Different buffers never share a link: from one origin, the
    generated reference determines the buffer, and it is never the empty
    string. *)
Theorem links_distinct (lz : LZString) (spec : LZStringSpec lz)
  (origin a b : string) :
  (generatedUrl origin a = generatedUrl origin b -> a = b) /\
  generatedUrl origin a <> "".
Proof.
  split.
  - unfold generatedUrl. intros E.
    apply append_cancel_l, append_cancel_l in E.
    now apply compressMarkdown_inj.
  - unfold generatedUrl. destruct origin; discriminate.
Qed.

Lemma links_distinct_witness :
  generatedUrl (lz := PairCodec.codec) "https://ghost.md" "boo" <> "".
Proof.
  exact (proj2 (links_distinct PairCodec.codec PairCodecFacts.codec_spec
                  "https://ghost.md" "boo" "boo")).
Defined.

(** X13.  The viewer never renders an empty document.  Whatever the
    query, after the effect has run on the initial state loading is
    over, and either there is no error and the content is a non-empty
    text, or there is an error and the content is still empty. *)
Theorem viewer_content_or_error (lz : LZString) (c : option string) :
  let v := Viewer.decodeEffect c Viewer.initial in
  Viewer.loading v = false /\
  ((Viewer.error v = None /\ Viewer.content v <> "") \/
   (Viewer.error v <> None /\ Viewer.content v = "")).
Proof.
  intros v. subst v. split; [apply decodeEffect_loading|].
  unfold Viewer.decodeEffect. destruct c as [encoded|];
    [|right; split; [discriminate|reflexivity]].
  destruct (trim encoded =? "")%string;
    [right; split; [discriminate|reflexivity]|].
  destruct (decompressMarkdown encoded) as [[decoded|]|];
    try (right; split; [discriminate|reflexivity]).
  destruct (truthy decoded) eqn:T;
    [|right; split; [discriminate|reflexivity]].
  left. split; [reflexivity|]. now apply truthy_true_iff.
Qed.

End LinkFacts.

(** ** The search overlay *)

Module OverlayFacts.
Import Search SearchFacts JSText JSTextFacts CodeEditor SearchPanel Overlay.
#[local] Open Scope nat_scope.

Section AnyMatcher.
Context {M : Matcher} {spec : MatcherSpec M}.

(** A finished search returned spans in order within the text. *)
Lemma performSearch_ascending fuel text term matchCase res :
  performSearch fuel text term matchCase = Some res ->
  ascending res /\
  Forall (fun sp => start sp <= stop sp /\ stop sp <= String.length text) res.
Proof.
  unfold performSearch.
  destruct (negb (truthy term));
    [intros [= <-]; split; [exact I|constructor]|].
  destruct (compile term (negb matchCase)) as [p|];
    [|intros [= <-]; split; [exact I|constructor]].
  intros H. apply searchLoop_ascending in H as [A F].
  split; [exact A|]. eapply Forall_impl; [|exact F].
  cbn beta. intros sp Hsp. lia.
Qed.

Lemma searchLoop_bounded text : forall fuel regex res,
  searchLoop fuel regex text [] = Some res ->
  List.length res + lastIndex regex <= String.length text + 1
  \/ res = [].
Proof.
  induction fuel as [|fuel IH]; intros regex res H; [discriminate|].
  rewrite searchLoop_step in H.
  destruct (exec regex text) as [[m|] regex1] eqn:E.
  - destruct (searchLoop fuel (advance m regex1) text []) as [rest|] eqn:R;
      [|discriminate].
    injection H as <-. left.
    pose proof (exec_match _ _ _ _ E) as (H1 & H2 & _).
    pose proof (advance_progress _ _ _ _ E) as (P1 & P2 & P3 & _).
    apply IH in R as [R| ->]; cbn [List.length]; lia.
  - injection H as <-. now right.
Qed.


End AnyMatcher.


Lemma ascending_chained (len : nat) (l : list Span) : forall lo,
  ascending l ->
  Forall (fun sp => start sp <= stop sp /\ stop sp <= len) l ->
  match l with [] => True | m :: _ => lo <= start m end ->
  chained len lo l.
Proof.
  induction l as [|m r IH]; intros lo A F H; [exact I|].
  cbn [ascending] in A. destruct A as [A1 A2].
  apply Forall_cons_iff in F as [[F1 F2] F].
  cbn [chained]. split; [lia|].
  apply IH; try assumption. destruct r as [|b r]; [exact I|lia].
Qed.

Lemma concat_cons (x : string) (l : list string) :
  String.concat "" (x :: l) = x ++ String.concat "" l.
Proof.
  destruct l as [|y l]; cbn [String.concat]; [now rewrite append_nil_r|].
  reflexivity.
Qed.

Lemma window_step (i cur n : nat) :
  (if i =? cur then 1 else 0)
  + (if (S i <=? cur) && (cur <? S i + n) then 1 else 0)
  = if (i <=? cur) && (cur <? i + S n) then 1 else 0.
Proof.
  destruct (Nat.eqb_spec i cur), (Nat.leb_spec (S i) cur),
    (Nat.ltb_spec cur (S i + n)), (Nat.leb_spec i cur),
    (Nat.ltb_spec cur (i + S n)); cbn; lia.
Qed.

Lemma forEachMatch_chained (value : string) (cur : nat) (matches : list Span) :
  forall i lo,
  chained (String.length value) lo matches ->
  shownText (forEachMatch value cur i lo matches) = substringFrom value lo /\
  map nodeText (filter isMark (forEachMatch value cur i lo matches))
  = map (fun m => substring2 value (start m) (stop m)) matches /\
  List.length (filter isCurrent (forEachMatch value cur i lo matches))
  = if (i <=? cur) && (cur <? i + List.length matches) then 1 else 0.
Proof.
  unfold shownText.
  induction matches as [|m r IH]; intros i lo C.
  - cbn [forEachMatch filter isCurrent isMark map nodeText List.length
         String.concat].
    rewrite Nat.add_0_r. split; [reflexivity|]. split; [reflexivity|].
    destruct (Nat.leb_spec i cur), (Nat.ltb_spec cur i); cbn [andb];
      try reflexivity; lia.
  - cbn [chained] in C. destruct C as [(C1 & C2 & C3) C].
    cbn [forEachMatch].
    destruct (Nat.ltb_spec (start m) lo); [lia|].
    destruct (Nat.ltb_spec (String.length value) (start m)); [lia|].
    cbn [orb]. destruct (IH (S i) (stop m) C) as (T & K & Q).
    cbn [map nodeText filter isMark isCurrent].
    split; [|split].
    + rewrite !concat_cons, T.
      rewrite substring2_rest by lia. apply substring2_rest; lia.
    + cbn [map nodeText]. now rewrite K.
    + change (List.length (m :: r)) with (S (List.length r)).
      rewrite <- window_step.
      destruct (i =? cur); cbn [List.length]; rewrite Q; reflexivity.
Qed.

(** X15.  The overlay shows the text and nothing else.  For matches in
    ascending order that lie in the text and do not overlap, the pieces
    of [renderedMatches] put together are the text itself, there is one
    highlighted span per match, and each holds the characters of its
    match. *)
Theorem overlay_shows_text (value : string) (matches : list Span)
  (currentIndex : nat) :
  ascending matches ->
  Forall (fun sp => start sp <= stop sp /\ stop sp <= String.length value)
    matches ->
  shownText (renderedMatches value matches currentIndex) = value /\
  map nodeText (filter isMark (renderedMatches value matches currentIndex))
  = map (fun m => substring2 value (start m) (stop m)) matches.
Proof.
  intros A F. unfold renderedMatches.
  destruct matches as [|m r] eqn:E; [split; reflexivity|]. rewrite <- E in *.
  assert (C : chained (String.length value) 0 matches).
  { apply ascending_chained; try assumption. rewrite E. lia. }
  destruct (forEachMatch_chained value currentIndex matches 0 0 C)
    as (T & K & _).
  split; [|exact K]. rewrite T. apply substringFrom_0.
Qed.

Lemma overlay_shows_text_witness :
  shownText (renderedMatches "ghost ghost boo" [mkSpan 0 5; mkSpan 6 11] 0)
  = "ghost ghost boo".
Proof.
  refine (proj1 (overlay_shows_text "ghost ghost boo"
                   [mkSpan 0 5; mkSpan 6 11] 0 _ _)).
  - cbn. lia.
  - repeat constructor; cbn; lia.
Defined.



End OverlayFacts.

(** ** Drag and drop *)

Module DragDropFacts.
Import DragDrop Invariant ZArith.
#[local] Open Scope Z_scope.

Lemma step_balanced (d : State) (e : Event) : balanced d -> balanced (step d e).
Proof.
  unfold balanced. intros [H1 H2].
  destruct e as [hasFiles| | | |]; cbn [step].
  - unfold handleDragEnter. destruct hasFiles; cbn [negb].
    + cbn [dragCounter isDraggingFile]. split; [lia|].
      split; [lia|reflexivity].
    + split; [exact H1|exact H2].
  - unfold handleDragLeave. destruct (isDraggingFile d) eqn:D; cbn [negb].
    + assert (0 < dragCounter d) by now apply H2.
      cbn [dragCounter isDraggingFile].
      destruct (Z.eqb_spec (dragCounter d - 1) 0) as [E|E].
      * split; [lia|]. split; [discriminate|lia].
      * split; [lia|]. split; [lia|reflexivity].
    + rewrite D. split; [exact H1|exact H2].
  - split; [exact H1|exact H2].
  - cbn. split; [lia|]. split; [discriminate|lia].
  - cbn. split; [lia|]. split; [discriminate|lia].
Qed.

Lemma run_balanced (es : list Event) : forall d,
  balanced d -> balanced (run es d).
Proof.
  induction es as [|e es IH]; intros d H; [exact H|].
  cbn [run fold_left]. apply IH, step_balanced, H.
Qed.

(** X17.  The drop overlay is shown exactly while the drag counter is
    positive, and the counter never goes below zero: after any sequence
    of drag events, drops and closings from the start,
    [isDraggingFile] is true if and only if more file drags have entered
    than left since the overlay last came down. *)
Theorem drag_overlay_counter (es : list Event) :
  0 <= dragCounter (run es initial) /\
  (isDraggingFile (run es initial) = true <-> 0 < dragCounter (run es initial)).
Proof.
  apply (run_balanced es initial). unfold balanced. cbn.
  split; [lia|]. split; [discriminate|lia].
Qed.

End DragDropFacts.

(** ** Export *)

Module ExportFacts.
Import Exporting Editor.
#[local] Open Scope nat_scope.

Lemma rev_append (a b : string) : JS.rev (a ++ b) = JS.rev b ++ JS.rev a.
Proof.
  induction a as [|c a IH]; simpl.
  - now rewrite JSTextFacts.append_nil_r.
  - now rewrite IH, JSTextFacts.append_assoc.
Qed.

Lemma rev_involutive (a : string) : JS.rev (JS.rev a) = a.
Proof.
  induction a as [|c a IH]; [reflexivity|].
  simpl. rewrite rev_append, IH. reflexivity.
Qed.

Lemma prefix_append (a b : string) : prefix a (a ++ b) = true.
Proof.
  induction a as [|c a IH]; simpl; [now destruct b|].
  destruct (ascii_dec c c); [exact IH|contradiction].
Qed.

Lemma endsWith_append (a b : string) : endsWith (a ++ b) b = true.
Proof. unfold endsWith. rewrite rev_append. apply prefix_append. Qed.

(** X18.  The name offered for an exported file is never bare: it is the
    file name without its surrounding white space, or "document" when
    nothing is left of it, followed by ".md"; so it ends in ".md" and
    has something before that. *)
Theorem download_name_shape (fileName : string) :
  downloadName fileName
  = (if trim fileName =? "" then "document" else trim fileName)%string ++ ".md" /\
  endsWith (downloadName fileName) ".md" = true /\
  3 < String.length (downloadName fileName).
Proof.
  unfold downloadName, truthy.
  destruct (String.eqb_spec (trim fileName) "") as [E|E]; cbn [negb].
  - repeat split. cbn. lia.
  - split; [reflexivity|]. split; [apply endsWith_append|].
    rewrite JSTextFacts.append_length. cbn [String.length].
    destruct (trim fileName); [contradiction|cbn [String.length]; lia].
Qed.

Lemma stripExtension_md (base : string) : stripExtension (base ++ ".md") = base.
Proof.
  unfold stripExtension. rewrite rev_append. cbn.
  apply rev_involutive.
Qed.

Lemma stripExtension_txt (base : string) : stripExtension (base ++ ".txt") = base.
Proof.
  unfold stripExtension. rewrite rev_append. cbn.
  apply rev_involutive.
Qed.

(** X19.  Import then export keeps the name and the text.  After a file
    named [base.md] or [base.txt] has been imported, where [base] is not
    empty and has no white space around it, an export as Markdown offers
    the file [base.md] holding the imported text, byte for byte. *)
Theorem import_export_round_trip (s : State) (base ext text : string) :
  ext = ".md" \/ ext = ".txt" -> trim base = base -> base <> "" ->
  fst (handleExport Md (processFile (base ++ ext) (Some text) s))
  = Some (mkDownload (base ++ ".md") text).
Proof.
  intros Hext Ht Hb.
  assert (Hends : endsWith (base ++ ext) ".md" || endsWith (base ++ ext) ".txt"
                  = true).
  { destruct Hext as [-> | ->]; rewrite endsWith_append;
      [reflexivity|apply orb_true_r]. }
  assert (Hstrip : stripExtension (base ++ ext) = base).
  { destruct Hext as [-> | ->];
      [apply stripExtension_md|apply stripExtension_txt]. }
  unfold processFile. rewrite Hends, Hstrip.
  cbn [handleExport fst]. cbn [toast fileName markdown].
  rewrite EditorFacts.setMarkdown_markdown. f_equal. f_equal.
  unfold setMarkdown.
  destruct (text =? _)%string; cbn [fileName autoSaveEffect
    with_autoSaveTimeout with_markdown with_fileName];
    unfold downloadName; rewrite Ht; apply truthy_true_iff in Hb;
    rewrite Hb; reflexivity.
Qed.

Lemma import_export_round_trip_witness :
  fst (handleExport Md
         (processFile "notes.txt" (Some "# notes") (initial "# ghost" None)))
  = Some (mkDownload "notes.md" "# notes").
Proof.
  refine (import_export_round_trip (initial "# ghost" None) "notes" ".txt"
            "# notes" _ _ _).
  - now right.
  - reflexivity.
  - discriminate.
Defined.

End ExportFacts.

(** ** Templates, carets and the gutter *)

Module TemplateFacts.
Import JSText JSTextFacts Snippet SnippetFacts Template ZArith.
#[local] Open Scope nat_scope.

Lemma orEmpty_some (v : string) : orEmpty (Some v) = v.
Proof. now destruct v. Qed.

(** Without the separator the whole string is the one piece. *)
Lemma splitAux_absent (sep : string) : forall s cur,
  occurs sep s = false -> splitAux sep 0 cur s = [cur ++ s].
Proof.
  induction s as [|c r IH]; intros cur H.
  - cbn [splitAux]. now rewrite append_nil_r.
  - cbn [occurs] in H. apply orb_false_iff in H as [P O].
    cbn [splitAux]. rewrite P, (IH _ O), append_assoc. reflexivity.
Qed.

Lemma prefix_nil (s : string) : prefix "" s = true.
Proof. now destruct s. Qed.

Lemma prefix_app_le : forall sub a b : string,
  String.length sub <= String.length a -> prefix sub (a ++ b) = prefix sub a.
Proof.
  induction sub as [|c sub IH]; intros a b L; [now rewrite !prefix_nil|].
  destruct a as [|d a]; cbn [String.length] in L; [lia|].
  cbn [append prefix]. destruct (ascii_dec c d); [|reflexivity].
  apply IH. lia.
Qed.

(** Up to the first marker. *)
Lemma splitAux_first (q : string) : forall p cur,
  occurs "Text" (p ++ "Tex") = false ->
  splitAux "Text" 0 cur (p ++ "Text" ++ q)
  = (cur ++ p) :: splitAux "Text" 0 "" q.
Proof.
  induction p as [|c p IH]; intros cur H.
  - rewrite append_nil_r. cbn [append splitAux prefix String.length Nat.sub].
    destruct (ascii_dec "T" "T"); [|contradiction].
    destruct (ascii_dec "e" "e"); [|contradiction].
    destruct (ascii_dec "x" "x"); [|contradiction].
    destruct (ascii_dec "t" "t"); [|contradiction].
    now rewrite prefix_nil.
  - cbn [append occurs] in H. apply orb_false_iff in H as [P O].
    change (String c p ++ "Text" ++ q) with (String c (p ++ "Text" ++ q)).
    cbn [splitAux].
    replace (String c (p ++ "Text" ++ q))
      with (String c (p ++ "Tex") ++ "t" ++ q)
      by (cbn [append]; now rewrite append_assoc).
    rewrite prefix_app_le, P
      by (cbn [String.length]; rewrite append_length; cbn; lia).
    rewrite (IH _ O), append_assoc. reflexivity.
Qed.

(** X20.  A wrap template that does not hold the marker "Text" is not
    wrapped around anything: the whole template goes in before the
    selection, or before the word "text" when nothing is selected.  The
    templates of the link and image buttons, "[Title](url)" and
    "![Alt](url)", are of this kind. *)
Theorem wrap_without_marker (markdown syntax : string) (start stop : nat) :
  occurs "Text" syntax = false ->
  let selection := substring2 markdown start stop in
  let textToUse := if truthy selection then selection else "text" in
  fst (splice markdown syntax Wrap start stop)
  = substring2 markdown 0 start ++ syntax ++ textToUse
      ++ substringFrom markdown stop /\
  snd (splice markdown syntax Wrap start stop)
  = start + String.length syntax + String.length textToUse.
Proof.
  intros H selection textToUse. unfold splice. cbv zeta. cbn [fst snd].
  unfold split. rewrite (splitAux_absent _ _ _ H).
  cbn [nth_error append]. rewrite orEmpty_some. cbn [orEmpty append String.length].
  fold selection. fold textToUse. split; [reflexivity|lia].
Qed.

Lemma wrap_without_marker_witness :
  fst (splice "see ghost.md" "[Title](url)" Wrap 4 9)
  = "see [Title](url)ghost.md".
Proof.
  refine (proj1 (wrap_without_marker "see ghost.md" "[Title](url)" 4 9 _)).
  reflexivity.
Defined.

(** X21.  A wrap template [p ++ "Text" ++ q] with the marker once puts [p]
    before the selection and [q] after it, and the marker itself is
    gone: the selection, or the word "text", stands in its place. *)
Theorem wrap_around_marker (markdown p q : string) (start stop : nat) :
  occurs "Text" (p ++ "Tex") = false -> occurs "Text" q = false ->
  let selection := substring2 markdown start stop in
  let textToUse := if truthy selection then selection else "text" in
  fst (splice markdown (p ++ "Text" ++ q) Wrap start stop)
  = substring2 markdown 0 start ++ p ++ textToUse ++ q
      ++ substringFrom markdown stop /\
  snd (splice markdown (p ++ "Text" ++ q) Wrap start stop)
  = start + String.length p + String.length textToUse + String.length q.
Proof.
  intros Hp Hq selection textToUse. unfold splice. cbv zeta. cbn [fst snd].
  unfold split. rewrite (splitAux_first q p "" Hp), (splitAux_absent _ _ _ Hq).
  cbn [nth_error append]. rewrite !orEmpty_some.
  fold selection. fold textToUse. split; reflexivity.
Qed.

Lemma wrap_around_marker_witness :
  fst (splice "see ghost.md" ("**" ++ "Text" ++ "**") Wrap 4 9)
  = "see **ghost**.md".
Proof.
  refine (proj1 (wrap_around_marker "see ghost.md" "**" "**" 4 9 _ _));
    reflexivity.
Defined.

(** Where the line policy puts the prefix. *)
Lemma lineStart_facts (markdown : string) (start : nat) :
  lineStart markdown start <= String.length markdown /\
  (1 <= start -> lineStart markdown start <= start) /\
  (start = 0 -> get 0 markdown <> Some LF -> lineStart markdown start = 0) /\
  (start = 0 -> get 0 markdown = Some LF -> lineStart markdown start = 1).
Proof.
  unfold lineStart, lastIndexOf.
  set (k := Z.to_nat (Z.min (Z.max (Z.of_nat start - 1) 0)
                        (Z.of_nat (String.length markdown)))).
  assert (Hk : 1 <= start -> k <= start - 1) by (intros; subst k; lia).
  assert (H0 : start = 0 -> k = 0) by (intros; subst k; lia).
  destruct (lastIndexFrom LF markdown k) as [j|] eqn:E.
  - apply lastIndexFrom_some in E as (E1 & E2 & E3).
    pose proof (get_in_range _ _ _ E2) as R.
    replace (Z.to_nat (Z.of_nat j + 1)) with (S j) by lia.
    split; [lia|]. split; [intros Hs; specialize (Hk Hs); lia|].
    split; intros Hs G; rewrite (H0 Hs) in *;
      assert (j = 0) by lia; subst j; [contradiction|reflexivity].
  - pose proof (lastIndexFrom_none _ _ _ E) as N.
    change (Z.to_nat (-1 + 1)) with 0.
    split; [lia|]. split; [lia|]. split; [reflexivity|].
    intros Hs G. rewrite (H0 Hs) in N. exfalso. apply (N 0); [lia|exact G].
Qed.

Lemma selection_length (markdown : string) (start stop : nat) :
  start <= stop -> stop <= String.length markdown ->
  (if truthy (substring2 markdown start stop)
   then String.length (substring2 markdown start stop) else 0)
  = stop - start.
Proof.
  intros H1 H2. pose proof (substring2_length markdown start stop H1 H2) as L.
  destruct (truthy (substring2 markdown start stop)) eqn:T; [exact L|].
  apply truthy_false_iff in T. rewrite T in L. exact L.
Qed.

(** X22.  The caret a snippet asks for lies within the new buffer.  With a
    textarea whose selection is in range, the insertion reports a caret
    that is at most the length of the buffer it leaves, for the wrap and
    block policies always, and for the line policy unless the selection
    starts at index 0 of a buffer that begins with a line feed.  In that
    case, when the whole buffer is selected, the caret asked for is one
    past the end. *)
Theorem snippet_caret_in_range (s : Editor.State) (syntax : string)
  (type : Kind) (start stop : nat) :
  start <= stop -> stop <= String.length (Editor.markdown s) ->
  let r := insertSnippetAt (Some (start, stop)) syntax type s in
  exists newCursorPos, snd r = Some newCursorPos /\
    ((type = Line -> start = 0 -> get 0 (Editor.markdown s) <> Some LF) ->
     newCursorPos <= String.length (Editor.markdown (fst r))) /\
    (type = Line -> start = 0 -> get 0 (Editor.markdown s) = Some LF ->
     stop = String.length (Editor.markdown s) ->
     newCursorPos = String.length (Editor.markdown (fst r)) + 1).
Proof.
  intros H1 H2 r. subst r. unfold insertSnippetAt. cbv zeta. cbn [fst snd].
  set (md := Editor.markdown s) in *.
  exists (snd (splice md syntax type start stop)).
  split; [reflexivity|].
  assert (M : Editor.markdown
                (Editor.insertSnippet (fst (splice md syntax type start stop)) s)
              = fst (splice md syntax type start stop)).
  { unfold Editor.insertSnippet. rewrite EditorFacts.pushToHistory_markdown.
    apply EditorFacts.onMarkdownChange_facts. }
  rewrite M.
  destruct (lineStart_facts md start) as (L1 & L2 & L3 & L4).
  pose proof (selection_length md start stop H1 H2) as S.
  assert (Line_ : type = Line ->
            splice md syntax type start stop
            = (substring2 md 0 (lineStart md start) ++ syntax
                 ++ substringFrom md (lineStart md start),
               lineStart md start + String.length syntax + (stop - start))).
  { intros ->. unfold splice. cbv zeta. fold (lineStart md start).
    now rewrite S. }
  assert (Len : type = Line ->
            String.length (fst (splice md syntax type start stop))
            = String.length md + String.length syntax).
  { intros T. rewrite (Line_ T). cbn [fst]. rewrite !append_length.
    unfold substringFrom. rewrite !substring2_length by lia. lia. }
  split.
  - intros Hq. destruct type.
    + destruct (splice_shape md syntax Wrap start stop ltac:(discriminate))
        as (inserted & _ & E & _).
      rewrite E. cbn [fst snd]. rewrite !append_length.
      rewrite substring2_length by lia. lia.
    + rewrite (Len eq_refl), (Line_ eq_refl). cbn [snd].
      destruct start as [|k].
      * destruct (get 0 md) as [c|] eqn:G.
        -- destruct (Ascii.eqb_spec c LF) as [->|N].
           ++ exfalso. now apply (Hq eq_refl eq_refl).
           ++ rewrite L3; [lia|reflexivity|congruence].
        -- rewrite L3; [lia|reflexivity|discriminate].
      * specialize (L2 ltac:(lia)). lia.
    + destruct (splice_shape md syntax Block start stop ltac:(discriminate))
        as (inserted & _ & E & _).
      rewrite E. cbn [fst snd]. rewrite !append_length.
      rewrite substring2_length by lia. lia.
  - intros T -> G ->. rewrite (Len T), (Line_ T). cbn [snd].
    rewrite (L4 eq_refl G). lia.
Qed.

Lemma snippet_caret_in_range_witness :
  exists newCursorPos,
    snd (insertSnippetAt (Some (4, 9)) "# " Line
           (Editor.initial "see ghost.md" None)) = Some newCursorPos /\
    newCursorPos
    <= String.length
         (Editor.markdown
            (fst (insertSnippetAt (Some (4, 9)) "# " Line
                    (Editor.initial "see ghost.md" None)))).
Proof.
  destruct (snippet_caret_in_range (Editor.initial "see ghost.md" None)
              "# " Line 4 9) as (pos & E & A & _).
  - lia.
  - cbn. lia.
  - exists pos. split; [exact E|]. apply A. intros _ H. discriminate H.
Defined.

(** X23.  The gutter numbers one line more than the buffer has line feeds:
    the lines are 1, 2, ... up to the number of line feeds plus one, so
    the empty buffer has the one line 1 and a final line feed opens a
    last, empty line. *)
Theorem gutter_lines (value : string) :
  CodeEditor.lineCount value = 1 + count LF value /\
  CodeEditor.lines value = seq 1 (1 + count LF value).
Proof.
  assert (H : forall s cur,
             List.length (splitAux (String LF EmptyString) 0 cur s)
             = 1 + count LF s).
  { induction s as [|c r IH]; intros cur; [reflexivity|].
    cbn [splitAux prefix count String.length Nat.sub].
    destruct (ascii_dec LF c) as [<-|N].
    - rewrite prefix_nil, Ascii.eqb_refl. cbn [List.length]. rewrite IH. lia.
    - destruct (Ascii.eqb_spec c LF) as [->|_]; [contradiction|].
      rewrite IH. lia. }
  unfold CodeEditor.lines, CodeEditor.lineCount, split. now rewrite H.
Qed.

End TemplateFacts.

(** ** Toasts *)

Module ToastFacts.
Import Toasts Invariant.
#[local] Open Scope nat_scope.
#[local] Open Scope list_scope.

Lemma remove_In (j : string) (l : list ToastEvent) (x : ToastEvent) :
  In x (remove j l) <-> In x l /\ id x <> j.
Proof.
  unfold remove. rewrite filter_In.
  destruct (String.eqb_spec (id x) j); cbn [negb]; intuition congruence.
Qed.

Lemma fired_In (due : list (nat * string)) : forall (l : list ToastEvent) x,
  In x (fold_left (fun l t => remove (snd t) l) due l)
  <-> In x l /\ forall t, In t due -> id x <> snd t.
Proof.
  induction due as [|t due IH]; intros l x; cbn [fold_left].
  - split; [intros H; split; [exact H|intros ? []]|intros [H _]; exact H].
  - rewrite IH, remove_In. split.
    + intros [[H1 H2] H3]. split; [exact H1|].
      intros t' [<-|Ht]; [exact H2|now apply H3].
    + intros [H1 H2]. split; [split; [exact H1|apply H2; now left]|].
      intros t' Ht. apply H2. now right.
Qed.

Lemma elapse_In (ms : nat) (s : State) (x : ToastEvent) :
  In x (toasts (elapse ms s))
  <-> In x (toasts s) /\
      forall t, In t (timers s) -> fst t <= now s + ms -> id x <> snd t.
Proof.
  unfold elapse. cbn [toasts]. rewrite fired_In.
  split; intros [H1 H2]; (split; [exact H1|]).
  - intros t Ht Hd. apply H2. apply filter_In. split; [exact Ht|].
    unfold isDue. now apply Nat.leb_le.
  - intros t Ht. apply filter_In in Ht as [Ht Hd].
    apply H2; [exact Ht|]. unfold isDue in Hd. now apply Nat.leb_le in Hd.
Qed.

Lemma elapse_timers (ms : nat) (s : State) (t : nat * string) :
  In t (timers (elapse ms s)) <-> In t (timers s) /\ now s + ms < fst t.
Proof.
  unfold elapse. cbn [timers]. rewrite filter_In. unfold isDue.
  destruct (Nat.leb_spec (fst t) (now s + ms)); cbn [negb];
    intuition (try lia; try discriminate).
Qed.

Lemma run_app (es es' : list Event) (s : State) :
  run (es ++ es') s = run es' (run es s).
Proof. apply fold_left_app. Qed.

Lemma ids_app (es es' : list Event) : ids (es ++ es') = ids es ++ ids es'.
Proof.
  induction es as [|[i m ty|ms] es IH]; cbn [ids app]; [reflexivity| |exact IH].
  now rewrite IH.
Qed.

(** The ids of the pending timers were drawn during the run. *)
Lemma timers_ids (es : list Event) : forall s t,
  In t (timers (run es s)) ->
  In t (timers s) \/ In (snd t) (ids es).
Proof.
  induction es as [|[i m ty|ms] es IH]; intros s t H; cbn [run fold_left] in H.
  - now left.
  - apply IH in H as [H|H]; [|right; now right].
    cbn [step show timers] in H. apply in_app_or in H as [H|[<-|[]]].
    + now left.
    + right. now left.
  - apply IH in H as [H|H]; [|now right].
    cbn [step] in H. apply elapse_timers in H. left. tauto.
Qed.

Lemma run_now (es : list Event) : forall s,
  now (run es s) = now s + duration es.
Proof.
  induction es as [|[i m ty|ms] es IH]; intros s; cbn [run fold_left duration].
  - lia.
  - fold (run es (step s (Show i m ty))). rewrite IH. reflexivity.
  - fold (run es (step s (Elapsed ms))). rewrite IH. cbn. lia.
Qed.

Lemma step_tracked (i : string) (D : nat) (x : ToastEvent) (s : State)
  (e : Event) :
  id x = i -> ~ In i (ids [e]) -> tracked i D x s -> tracked i D x (step s e).
Proof.
  intros Hx Hi (T1 & T2 & T3). destruct e as [j m ty|ms]; cbn [step].
  - assert (Hj : j <> i) by (intros ->; apply Hi; now left).
    unfold tracked, show. cbn [toasts timers now]. split; [|split].
    + intros t Ht E. apply in_app_or in Ht as [Ht|[<-|[]]]; [now apply T1|].
      cbn [snd] in E. contradiction.
    + intros Hn. destruct (T2 Hn) as [A B].
      split; apply in_or_app; now left.
    + intros Hn y Hy. apply in_app_or in Hy as [Hy|[<-|[]]]; [now apply T3|].
      exact Hj.
  - unfold tracked. split; [|split].
    + intros t Ht. apply elapse_timers in Ht as [Ht _]. now apply T1.
    + unfold elapse at 1. cbn [now]. intros Hn.
      destruct T2 as [A B]; [lia|]. split.
      * apply elapse_In. split; [exact A|].
        intros t Ht Hd E. rewrite Hx in E. symmetry in E.
        specialize (T1 t Ht E). lia.
      * apply elapse_timers. split; [exact B|]. cbn [fst]. lia.
    + unfold elapse at 1. cbn [now]. intros Hn y Hy.
      apply elapse_In in Hy as [Hy Hf].
      destruct (Nat.le_gt_cases D (now s)) as [L|L]; [now apply T3|].
      destruct (T2 L) as [_ B]. apply (Hf (D, i) B). cbn [fst]. lia.
Qed.

Lemma run_tracked (i : string) (D : nat) (x : ToastEvent) (es : list Event) :
  forall s, id x = i -> ~ In i (ids es) -> tracked i D x s ->
  tracked i D x (run es s).
Proof.
  induction es as [|e es IH]; intros s Hx Hi T; [exact T|].
  cbn [run fold_left]. apply IH; [exact Hx| |].
  - intros H. apply Hi. destruct e; cbn [ids]; [now right|exact H].
  - apply step_tracked; [exact Hx| |exact T].
    intros H. apply Hi. destruct e; cbn [ids] in *; [|contradiction].
    destruct H as [<-|[]]. now left.
Qed.

(** X24.  A toast stays for three seconds, neither less nor more.  When the
    ids drawn during a run are all different, a toast shown at some
    point of the run is among the toasts at the end exactly when less
    than 3000 ms have passed since it was shown, whatever else has been
    shown and removed before and since. *)
Theorem toast_lifetime (es es' : list Event) (i m : string) (ty : ToastType) :
  NoDup (ids (es ++ Show i m ty :: es')) ->
  In (mkToastEvent i m ty)
     (toasts (run (es ++ Show i m ty :: es') initial))
  <-> duration es' < 3000.
Proof.
  intros N. rewrite ids_app in N. cbn [ids] in N.
  apply NoDup_remove in N as [_ N].
  assert (N1 : ~ In i (ids es)) by (intros H; apply N, in_or_app; now left).
  assert (N2 : ~ In i (ids es')) by (intros H; apply N, in_or_app; now right).
  rewrite run_app. cbn [run fold_left]. fold (run es initial).
  set (s0 := run es initial).
  fold (run es' (step s0 (Show i m ty))).
  set (x := mkToastEvent i m ty).
  set (D := now s0 + 3000).
  assert (T : tracked i D x (step s0 (Show i m ty))).
  { unfold tracked. cbn [step show toasts timers now]. split; [|split].
    - intros t Ht E. apply in_app_or in Ht as [Ht|[<-|[]]]; [|reflexivity].
      exfalso. apply N1. rewrite <- E.
      destruct (timers_ids es initial t Ht) as [[]|H]. exact H.
    - intros _. split; apply in_or_app; right; now left.
    - unfold D. lia. }
  apply (run_tracked i D x es') in T; [|reflexivity|exact N2].
  destruct T as (_ & T2 & T3).
  rewrite run_now in T2, T3. cbn [step show now] in T2, T3.
  split.
  - intros H. destruct (Nat.lt_ge_cases (duration es') 3000) as [L|L];
      [exact L|].
    exfalso. apply (T3 ltac:(unfold D; lia) x H). reflexivity.
  - intros L. apply T2. unfold D. lia.
Qed.

Lemma toast_lifetime_witness :
  In (mkToastEvent "k3" "Copied!" Success)
     (toasts (run ([Show "a1" "File exported!" Success; Elapsed 2500]
                   ++ Show "k3" "Copied!" Success
                   :: [Elapsed 1000; Show "z9" "Invalid file type." Error;
                       Elapsed 1999])
                  initial)).
Proof.
  refine (proj2 (toast_lifetime
    [Show "a1" "File exported!" Success; Elapsed 2500]
    [Elapsed 1000; Show "z9" "Invalid file type." Error; Elapsed 1999]
    "k3" "Copied!" Success _) _).
  - cbn [ids app]. repeat constructor; cbn; intuition discriminate.
  - cbn. lia.
Defined.

(** The ids have to differ: a second toast that draws the id of one
    still shown goes with it. *)
Lemma toast_same_id :
  toasts (run [Show "a1" "Copied!" Success; Elapsed 2000;
               Show "a1" "File exported!" Success; Elapsed 1000] initial)
  = [].
Proof. reflexivity. Qed.

End ToastFacts.

(** ** The scroll lock *)

Module ScrollSyncFacts.
Import ScrollSync Invariant ZArith.
#[local] Open Scope nat_scope.

Lemma same_refl (a : Source) : same a a = true.
Proof. now destruct a. Qed.

Lemma same_other (a : Source) : same a (other a) = false.
Proof. now destruct a. Qed.

Lemma step_timed (s : State) (e : Event) : timed s -> timed (step s e).
Proof.
  unfold timed. intros T. destruct e as [source attached max|ms]; cbn [step].
  - unfold handleScroll.
    destruct (match syncSourceRef s with
              | Some o => negb (same o source)
              | None => false
              end); [exact T|].
    destruct attached; cbn [negb fst]; [|exact T].
    cbn [syncSourceRef syncTimeoutRef now]. lia.
  - unfold elapse.
    destruct (syncSourceRef s) as [o|], (syncTimeoutRef s) as [due|];
      try contradiction; [|exact I].
    destruct (Nat.leb_spec due (now s + ms));
      cbn [syncSourceRef syncTimeoutRef now]; [exact I|lia].
Qed.

Lemma run_timed (es : list Event) : forall s, timed s -> timed (run es s).
Proof.
  induction es as [|e es IH]; intros s T; [exact T|].
  cbn [run fold_left]. apply IH, step_timed, T.
Qed.

(** X25.  The scroll lock cannot stick.  After any sequence of scroll
    events and pauses, the lock is held exactly while its release timer
    is pending, the timer is due within 50 ms, and after 50 ms without a
    scroll event the lock is free. *)
Theorem scroll_lock_released (es : list Event) :
  (syncSourceRef (run es initial) = None
   <-> syncTimeoutRef (run es initial) = None) /\
  (forall due, syncTimeoutRef (run es initial) = Some due ->
     now (run es initial) < due /\ due <= now (run es initial) + 50) /\
  syncSourceRef (elapse 50 (run es initial)) = None.
Proof.
  assert (T : timed (run es initial)) by (apply run_timed; exact I).
  unfold timed in T. unfold elapse.
  destruct (syncSourceRef (run es initial)) as [o|],
           (syncTimeoutRef (run es initial)) as [d|]; try contradiction.
  - split; [split; discriminate|]. split.
    + intros due E. injection E as <-. exact T.
    + destruct (Nat.leb_spec d (now (run es initial) + 50)); [reflexivity|lia].
  - split; [split; reflexivity|]. split; [discriminate|reflexivity].
Qed.

(** X26.  The window of the lock.  A scroll of one pane that is let
    through takes the lock for 50 ms.  Within that time a scroll of the
    other pane is dropped: nothing is written, the state stays as it
    is, and the lock is released at the time set by the first scroll.
    From 50 ms on the other pane is let through and takes
    the lock in turn. *)
Theorem scroll_lock_window (s : State) (source : Source) (max max' : Z)
  (ms : nat) :
  syncSourceRef s <> Some (other source) ->
  let held := fst (handleScroll source true max s) in
  let later := elapse ms held in
  syncSourceRef held = Some source /\
  syncTimeoutRef held = Some (now s + 50) /\
  snd (handleScroll source true max s)
  = (if (0 <? max)%Z then Some (other source) else None) /\
  (ms < 50 ->
   handleScroll (other source) true max' later = (later, None) /\
   syncSourceRef (elapse (50 - ms) later) = None) /\
  (50 <= ms ->
   syncSourceRef later = None /\
   syncSourceRef (fst (handleScroll (other source) true max' later))
   = Some (other source)).
Proof.
  intros Hfree held later.
  assert (E : handleScroll source true max s
              = (mkState (Some source) (Some (now s + 50)) (now s),
                 if (0 <? max)%Z then Some (other source) else None)).
  { unfold handleScroll. destruct (syncSourceRef s) as [o|]; [|reflexivity].
    destruct o, source; cbn in *; congruence. }
  subst later held. rewrite E. cbn [fst snd].
  split; [reflexivity|]. split; [reflexivity|]. split; [reflexivity|].
  split; intros Hms.
  - assert (L : elapse ms (mkState (Some source) (Some (now s + 50)) (now s))
                = mkState (Some source) (Some (now s + 50)) (now s + ms)).
    { unfold elapse. cbn [syncSourceRef syncTimeoutRef now].
      destruct (Nat.leb_spec (now s + 50) (now s + ms)); [lia|reflexivity]. }
    rewrite L. split.
    + unfold handleScroll. cbn [syncSourceRef].
      now rewrite same_other.
    + unfold elapse. cbn [syncSourceRef syncTimeoutRef now].
      destruct (Nat.leb_spec (now s + 50) (now s + ms + (50 - ms)));
        [reflexivity|lia].
  - assert (L : elapse ms (mkState (Some source) (Some (now s + 50)) (now s))
                = mkState None None (now s + ms)).
    { unfold elapse. cbn [syncSourceRef syncTimeoutRef now].
      destruct (Nat.leb_spec (now s + 50) (now s + ms)); [reflexivity|lia]. }
    rewrite L. split; reflexivity.
Qed.

Lemma scroll_lock_window_witness :
  handleScroll PreviewPane true 600
    (elapse 16 (fst (handleScroll EditorPane true 1200 initial)))
  = (elapse 16 (fst (handleScroll EditorPane true 1200 initial)), None).
Proof.
  refine (proj1 (proj1 (proj2 (proj2 (proj2
    (scroll_lock_window initial EditorPane 1200 600 16 _)))) _)).
  - discriminate.
  - lia.
Defined.

End ScrollSyncFacts.

(** ** Scroll synchronisation *)

Module ScrollPanesFacts.
Import ScrollPanes Floats.
#[local] Open Scope nat_scope.

Lemma other_other (a : ScrollSync.Source) : ScrollSync.other (ScrollSync.other a) = a.
Proof. now destruct a. Qed.

(** A scroll of [source] that finds the lock free, or its own. *)
Lemma handleScroll_through (f : float -> Pane -> Pane)
  (source : ScrollSync.Source) (s : State) (a b : Pane) :
  syncSourceRef s <> Some (ScrollSync.other source) ->
  pane source s = Some a -> pane (ScrollSync.other source) s = Some b ->
  let s1 := handleScroll f source s in
  syncSourceRef s1 = Some source /\
  syncTimeoutRef s1 = Some (now s + 50) /\
  now s1 = now s /\
  pane source s1 = Some a /\
  pane (ScrollSync.other source) s1 = Some (driven f a b).
Proof.
  intros L A B s1. subst s1. unfold handleScroll.
  assert (G : match syncSourceRef s with
              | Some o => negb (ScrollSync.same o source)
              | None => false
              end = false).
  { destruct (syncSourceRef s) as [o|]; [|reflexivity].
    destruct o, source; cbn in *; congruence. }
  rewrite G. unfold driven, proportion, range.
  destruct source; cbn [pane ScrollSync.other] in A, B; rewrite A, B;
    cbv zeta.
  - destruct (0 <? scrollHeight a - clientHeight a)%float;
      cbn; repeat split.
  - destruct (0 <? scrollHeight a - clientHeight a)%float;
      cbn; repeat split.
Qed.

(** A scroll of a pane that finds the lock held by the other pane. *)
Lemma handleScroll_dropped (f : float -> Pane -> Pane)
  (source : ScrollSync.Source) (s : State) :
  syncSourceRef s = Some (ScrollSync.other source) ->
  handleScroll f source s = s.
Proof.
  intros L. unfold handleScroll. rewrite L.
  now destruct source.
Qed.

Lemma elapse_fields (ms : nat) (s : State) :
  editorScrollRef (elapse ms s) = editorScrollRef s /\
  previewScrollRef (elapse ms s) = previewScrollRef s /\
  now (elapse ms s) = now s + ms.
Proof.
  unfold elapse. destruct (syncTimeoutRef s) as [d|]; [|repeat split].
  destruct (d <=? now s + ms); repeat split.
Qed.

Lemma elapse_pane (ms : nat) (s : State) (source : ScrollSync.Source) :
  pane source (elapse ms s) = pane source s.
Proof.
  destruct (elapse_fields ms s) as (E & P & _).
  destruct source; cbn [pane]; assumption.
Qed.

Lemma elapse_held (ms : nat) (s : State) (o : option ScrollSync.Source)
  (d : nat) :
  syncSourceRef s = o -> syncTimeoutRef s = Some d ->
  (now s + ms < d ->
   syncSourceRef (elapse ms s) = o /\ syncTimeoutRef (elapse ms s) = Some d) /\
  (d <= now s + ms ->
   syncSourceRef (elapse ms s) = None /\ syncTimeoutRef (elapse ms s) = None).
Proof.
  intros O T. unfold elapse. rewrite T.
  destruct (Nat.leb_spec d (now s + ms)); split; intros; try lia;
    cbn; auto.
Qed.

(** The lock of the model with the panes is the lock of [ScrollSync]. *)
Lemma handleScroll_lock (f : float -> Pane -> Pane)
  (source : ScrollSync.Source) (s : State) (max : Z) :
  lockOf (handleScroll f source s)
  = fst (ScrollSync.handleScroll source
           (match editorScrollRef s, previewScrollRef s with
            | Some _, Some _ => true
            | _, _ => false
            end) max (lockOf s)).
Proof.
  unfold handleScroll, ScrollSync.handleScroll, lockOf.
  cbn [ScrollSync.syncSourceRef ScrollSync.now].
  destruct (match syncSourceRef s with
            | Some o => negb (ScrollSync.same o source)
            | None => false
            end); [reflexivity|].
  destruct (editorScrollRef s), (previewScrollRef s); reflexivity.
Qed.

Lemma elapse_lock (ms : nat) (s : State) :
  lockOf (elapse ms s) = ScrollSync.elapse ms (lockOf s).
Proof.
  unfold elapse, ScrollSync.elapse, lockOf.
  cbn [ScrollSync.syncSourceRef ScrollSync.syncTimeoutRef ScrollSync.now].
  destruct (syncTimeoutRef s) as [d|]; [|reflexivity].
  destruct (d <=? now s + ms); reflexivity.
Qed.

(** C9, as amended.  A scroll event of one pane, handled while both
    panes are mounted and the lock is free or held by that pane, takes
    the lock for 50 ms, leaves that pane as it is, and assigns to the
    other pane's [scrollTop] the proportional position of the driving
    pane times the range of the other, computed in double precision,
    when the range of the driving pane is positive; nothing is assigned
    otherwise.  A scroll event of the other pane handled less than
    50 ms later, the induced one or any, changes nothing, and a further
    one of the driving pane restarts the 50 ms.  From 50 ms on the lock
    is free: a scroll event of the other pane is then handled, takes
    the lock and assigns to the pane that drove before. *)
Theorem scroll_sync (setScrollTop : float -> Pane -> Pane)
  (source : ScrollSync.Source) (s : State) (a b : Pane) (ms : nat) :
  syncSourceRef s <> Some (ScrollSync.other source) ->
  pane source s = Some a -> pane (ScrollSync.other source) s = Some b ->
  let s1 := handleScroll setScrollTop source s in
  let b1 := driven setScrollTop a b in
  syncSourceRef s1 = Some source /\
  syncTimeoutRef s1 = Some (now s + 50) /\
  pane source s1 = Some a /\
  pane (ScrollSync.other source) s1 = Some b1 /\
  ((0 <? range a)%float = true ->
   b1 = setScrollTop (proportion a * range b)%float b) /\
  ((0 <? range a)%float = false -> b1 = b) /\
  (ms < 50 ->
   handleScroll setScrollTop (ScrollSync.other source) (elapse ms s1)
   = elapse ms s1 /\
   syncSourceRef (elapse ms s1) = Some source /\
   syncTimeoutRef (handleScroll setScrollTop source (elapse ms s1))
   = Some (now s + ms + 50)) /\
  (50 <= ms ->
   let s2 := handleScroll setScrollTop (ScrollSync.other source)
               (elapse ms s1) in
   syncSourceRef (elapse ms s1) = None /\
   syncSourceRef s2 = Some (ScrollSync.other source) /\
   pane (ScrollSync.other source) s2 = Some b1 /\
   pane source s2 = Some (driven setScrollTop b1 a)).
Proof.
  intros L A B s1 b1.
  destruct (handleScroll_through setScrollTop source s a b L A B)
    as (S1 & T1 & N1 & A1 & B1).
  fold s1 in S1, T1, N1, A1, B1. fold b1 in B1.
  split; [exact S1|]. split; [exact T1|]. split; [exact A1|].
  split; [exact B1|].
  split; [intros R; subst b1; unfold driven; now rewrite R|].
  split; [intros R; subst b1; unfold driven; now rewrite R|].
  destruct (elapse_held ms s1 _ _ S1 T1) as [Hin Hout]. rewrite N1 in Hin, Hout.
  split; intros Hms.
  - destruct Hin as [S2 T2]; [lia|].
    split; [|split; [exact S2|]].
    + apply handleScroll_dropped. rewrite S2. now rewrite other_other.
    + destruct (handleScroll_through setScrollTop source (elapse ms s1) a b1)
        as (_ & T3 & _).
      * rewrite S2. destruct source; discriminate.
      * now rewrite elapse_pane.
      * now rewrite elapse_pane.
      * rewrite T3. destruct (elapse_fields ms s1) as (_ & _ & N2).
        rewrite N2, N1. reflexivity.
  - destruct Hout as [S2 T2]; [lia|]. cbv zeta.
    split; [exact S2|].
    destruct (handleScroll_through setScrollTop (ScrollSync.other source)
                (elapse ms s1) b1 a) as (S3 & _ & _ & B3 & A3).
    + rewrite S2. discriminate.
    + now rewrite elapse_pane.
    + now rewrite other_other, elapse_pane.
    + rewrite other_other in A3. split; [exact S3|]. split; [exact B3|exact A3].
Qed.

Lemma scroll_sync_witness :
  handleScroll store ScrollSync.PreviewPane
    (elapse 16 (handleScroll store ScrollSync.EditorPane aligned7))
  = elapse 16 (handleScroll store ScrollSync.EditorPane aligned7).
Proof.
  refine (proj1 (proj1 (proj2 (proj2 (proj2 (proj2 (proj2 (proj2
    (scroll_sync store ScrollSync.EditorPane aligned7
       (mkPane 7 1834 600) (mkPane 0 1377 600) 16 _ _ _))))))) _)).
  - discriminate.
  - reflexivity.
  - reflexivity.
  - lia.
Defined.

(** C9 as stated fails on two counts.  With an element that holds the
    value assigned as it is, an editor at 7 of 1234 drives the preview,
    of range 777, to a position whose proportion is not the editor's,
    as doubles.  And the induced scroll event of the preview, when it is
    handled 50 ms after the scroll of the editor, is not suppressed: it
    is handled as a scroll of the preview and moves the editor off 7. *)
Lemma scroll_sync_inexact :
  option_map proportion (pane ScrollSync.EditorPane driven7)
  = Some (7 / 1234)%float /\
  option_map (fun p => (proportion p =? 7 / 1234)%float)
    (pane ScrollSync.PreviewPane driven7) = Some false /\
  syncSourceRef bounced7 = Some ScrollSync.PreviewPane /\
  option_map (fun p => (scrollTop p =? 7)%float)
    (pane ScrollSync.EditorPane bounced7) = Some false /\
  bounced7 <> elapse 50 driven7.
Proof.
  split; [vm_compute; reflexivity|].
  split; [vm_compute; reflexivity|]. split; [vm_compute; reflexivity|].
  split; [vm_compute; reflexivity|].
  intros E. apply (f_equal syncSourceRef) in E. vm_compute in E. discriminate E.
Qed.

End ScrollPanesFacts.

(** ** The colour theme *)

Module ThemeFacts.
Import Theme.

(** X27.  A theme chosen with the toggle is the theme of the next page
    load: the attribute of the document and the toggle both show it
    again, provided its name is not empty; with nothing stored both
    show "gruvbox".  And whatever the attribute holds, set or not, the
    theme a code block asks the highlighter for is one of the three the
    highlighter was created with. *)
Theorem theme_kept_and_loaded (s : State) (theme : string) :
  theme <> "" ->
  dataTheme (load (handleThemeChange theme s)) = Some theme /\
  currentTheme (load (handleThemeChange theme s)) = theme /\
  stored (load (handleThemeChange theme s)) = Some theme /\
  (stored s = None ->
   dataTheme (load s) = Some "gruvbox" /\ currentTheme (load s) = "gruvbox") /\
  (forall appTheme, In (shikiTheme appTheme) themes).
Proof.
  intros H. apply truthy_true_iff in H.
  unfold load, toggleEffect, appEffect, handleThemeChange, savedTheme.
  cbn [stored dataTheme currentTheme]. rewrite H.
  split; [reflexivity|]. split; [reflexivity|]. split; [reflexivity|].
  split.
  - intros ->. split; reflexivity.
  - intros [t|]; unfold shikiTheme, themes.
    + destruct (t =? "one-dark"); [now left|].
      destruct (t =? "gruvbox"); [right; right; now left|right; now left].
    + right. now left.
Qed.

Lemma theme_kept_and_loaded_witness :
  dataTheme (load (handleThemeChange "one-dark" (mkState None None "gruvbox")))
  = Some "one-dark".
Proof.
  refine (proj1 (theme_kept_and_loaded (mkState None None "gruvbox")
                   "one-dark" _)).
  discriminate.
Defined.

End ThemeFacts.

(** ** Resizing *)

Module ResizeFacts.
Import Resize Invariant Floats.
#[local] Open Scope float_scope.

Lemma step_within (s : State) (e : Event) : within s -> within (step s e).
Proof.
  intros W. destruct e as [|clientX innerWidth|]; cbn [step].
  - exact W.
  - unfold onMouseMove. destruct (isResizing s); cbn [negb]; [|exact W].
    destruct ((20 <? clientX / innerWidth * 100)
              && (clientX / innerWidth * 100 <? 80))%bool eqn:G; [|exact W].
    apply andb_true_iff in G. exact G.
  - exact W.
Qed.

(** X28.  Neither pane can be dragged away.  After any sequence of mouse
    presses on the handle, mouse moves and releases, with any numbers
    for the pointer position and the window width (zero, negative,
    infinite or not a number included), the split ratio is a number
    strictly between 20 and 80; and a mouse move outside a drag leaves
    it as it is. *)
Theorem split_ratio_bounds (es : list Event) (clientX innerWidth : float) :
  (20 <? splitRatio (run es initial)) = true /\
  (splitRatio (run es initial) <? 80) = true /\
  (isResizing (run es initial) = false ->
   onMouseMove clientX innerWidth (run es initial) = run es initial).
Proof.
  assert (W : forall es s, within s -> within (run es s)).
  { clear es. induction es as [|e es IH]; intros s H; [exact H|].
    cbn [run fold_left]. apply IH, step_within, H. }
  destruct (W es initial) as [A B]; [split; reflexivity|].
  split; [exact A|]. split; [exact B|].
  intros R. unfold onMouseMove. now rewrite R.
Qed.

End ResizeFacts.
